(** * Encounter-geometry core of the ship traffic generator

    A shallow embedding of [trafficgen.marine_system_simulator],
    [trafficgen.encounter], [trafficgen.utils] and
    [trafficgen.check_land_crossing].

    Floating-point numbers are modelled by the reals of the Standard
    Library: the arithmetic is exact, [np.sin], [np.cos], [np.sqrt] and
    [np.arctan] are [sin], [cos], [sqrt] and [atan], [np.pi] is [PI].
    Python exceptions, the pseudo-random generator, the objects shared by
    reference and the external libraries (land mask, [pyproj]) appear in
    the second half of the file. *)

From Stdlib Require Import Reals Lra Lia ZArith Machin Ratan.
From stdpp Require Import base gmap strings pretty.

Open Scope R_scope.

(** ** Numeric helpers *)

(** [floor] of a real; [Int_part r = up r - 1]. *)
Definition Rfloor (x : R) : Z := Int_part x.

(** [np.mod(x, y)] for [y > 0]: [x - y * floor(x / y)]. *)
Definition np_mod (x y : R) : R := x - y * IZR (Rfloor (x / y)).

(** ** [marine_system_simulator.ssa] *)

(** [ssa(angle) = np.mod(angle + np.pi, 2 * np.pi) - np.pi]. *)
Definition ssa (angle : R) : R := np_mod (angle + PI) (2 * PI) - PI.

(** ** Lemmas on floor and [ssa] *)

Lemma Rfloor_spec (x : R) : IZR (Rfloor x) <= x < IZR (Rfloor x) + 1.
Proof.
  unfold Rfloor. destruct (base_Int_part x) as [H1 H2]. lra.
Qed.

Lemma Rfloor_unique (x : R) (z : Z) :
  IZR z <= x < IZR z + 1 -> Rfloor x = z.
Proof.
  intros [H1 H2]. unfold Rfloor, Int_part.
  assert (Hup : up x = (z + 1)%Z).
  { symmetry. apply tech_up; rewrite plus_IZR; simpl; lra. }
  rewrite Hup. lia.
Qed.

Lemma PI_bounds : 3.14159 < PI < 3.1416.
Proof.
  destruct (PI_2_3_7_ineq 2) as [Hl Hu].
  unfold sum_f_R0, tg_alt, PI_2_3_7_tg, Ratan_seq in Hl, Hu; simpl in Hl, Hu.
  split; lra.
Qed.

Lemma np_mod_range (x y : R) : 0 < y -> 0 <= np_mod x y < y.
Proof.
  intros Hy. unfold np_mod.
  destruct (Rfloor_spec (x / y)) as [H1 H2].
  set (k := IZR (Rfloor (x / y))) in *.
  assert (Hx : x = (x / y) * y) by (field; lra).
  split.
  - assert (k * y <= (x / y) * y) by (apply Rmult_le_compat_r; lra). nra.
  - assert ((x / y) * y < (k + 1) * y) by (apply Rmult_lt_compat_r; lra). nra.
Qed.

Lemma ssa_range (angle : R) : - PI <= ssa angle < PI.
Proof.
  unfold ssa. pose proof PI_bounds.
  pose proof (np_mod_range (angle + PI) (2 * PI)). lra.
Qed.

Lemma ssa_congr (angle : R) : exists k : Z, ssa angle = angle + 2 * PI * IZR k.
Proof.
  exists (- Rfloor ((angle + PI) / (2 * PI)))%Z.
  unfold ssa, np_mod. rewrite opp_IZR. ring.
Qed.

(** [ssa] is the identity on [[-pi, pi)]. *)
Lemma ssa_id (angle : R) : - PI <= angle < PI -> ssa angle = angle.
Proof.
  intros [H1 H2]. pose proof PI_bounds.
  unfold ssa, np_mod.
  rewrite (Rfloor_unique ((angle + PI) / (2 * PI)) 0).
  - simpl. ring.
  - simpl. split.
    + unfold Rdiv. apply Rmult_le_pos; [lra|]. left. apply Rinv_0_lt_compat. lra.
    + apply (Rmult_lt_reg_r (2 * PI)); [lra|].
      unfold Rdiv. rewrite Rmult_assoc, Rinv_l by lra. lra.
Qed.

Lemma ssa_PI : ssa PI = - PI.
Proof.
  pose proof PI_bounds. unfold ssa, np_mod.
  replace ((PI + PI) / (2 * PI)) with 1 by (field; lra).
  rewrite (Rfloor_unique 1 1) by (simpl; lra). simpl. field.
Qed.

(** ** [marine_system_simulator.flat2llh] and [llh2flat] *)

(** WGS-84 parameters, as written in both functions. *)
Definition a_radius : R := 6378137.
Definition f_factor : R := 1 / 298.257223563.
Definition e_eccentricity : R := sqrt (2 * f_factor - f_factor ^ 2).

(** [r_n] and [r_m], computed identically by both functions. *)
Definition r_n_of (lat_0 : R) : R :=
  a_radius / sqrt (1 - e_eccentricity ^ 2 * sin lat_0 ^ 2).
Definition r_m_of (lat_0 : R) : R :=
  r_n_of lat_0 * ((1 - e_eccentricity ^ 2) / (1 - e_eccentricity ^ 2 * sin lat_0 ^ 2)).

(** [flat2llh(x_n, y_n, lat_0, lon_0, z_n, height_ref) -> (lat, lon, height)]. *)
Definition flat2llh (x_n y_n lat_0 lon_0 z_n height_ref : R) : R * R * R :=
  let r_n := r_n_of lat_0 in
  let r_m := r_m_of lat_0 in
  let d_lat := x_n / (r_m + height_ref) in
  let d_lon := y_n / ((r_n + height_ref) * cos lat_0) in
  let lat := ssa (lat_0 + d_lat) in
  let lon := ssa (lon_0 + d_lon) in
  let height := height_ref - z_n in
  (lat, lon, height).

(** [llh2flat(lat, lon, lat_0, lon_0, height, height_ref) -> (x_n, y_n, z_n)]. *)
Definition llh2flat (lat lon lat_0 lon_0 height height_ref : R) : R * R * R :=
  let d_lon := lon - lon_0 in
  let d_lat := lat - lat_0 in
  let r_n := r_n_of lat_0 in
  let r_m := r_m_of lat_0 in
  let x_n := d_lat * (r_m + height_ref) in
  let y_n := d_lon * ((r_n + height_ref) * cos lat_0) in
  let z_n := height_ref - height in
  (x_n, y_n, z_n).

(** The round trip of the projection with the default heights. *)
Definition flat_roundtrip (north east lat_0 lon_0 : R) : R * R :=
  let '(lat, lon, _) := flat2llh north east lat_0 lon_0 0 0 in
  let '(n, e, _) := llh2flat lat lon lat_0 lon_0 0 0 in
  (n, e).

Lemma e2_value : e_eccentricity ^ 2 = 2 * f_factor - f_factor ^ 2.
Proof.
  unfold e_eccentricity. rewrite <- Rsqr_pow2, Rsqr_sqrt; [reflexivity|].
  unfold f_factor. lra.
Qed.

Lemma e2_bounds : 0 <= e_eccentricity ^ 2 < 1 / 100.
Proof. rewrite e2_value. unfold f_factor. lra. Qed.

Lemma radius_denominator_pos (lat_0 : R) :
  0 < 1 - e_eccentricity ^ 2 * sin lat_0 ^ 2.
Proof.
  pose proof e2_bounds. pose proof (SIN_bound lat_0).
  assert (sin lat_0 ^ 2 <= 1) by nra. nra.
Qed.

Lemma r_n_pos (lat_0 : R) : 0 < r_n_of lat_0.
Proof.
  unfold r_n_of, a_radius. pose proof (radius_denominator_pos lat_0).
  apply Rdiv_lt_0_compat; [lra|]. apply sqrt_lt_R0. lra.
Qed.

Lemma r_m_pos (lat_0 : R) : 0 < r_m_of lat_0.
Proof.
  unfold r_m_of. pose proof (r_n_pos lat_0). pose proof e2_bounds.
  pose proof (radius_denominator_pos lat_0).
  apply Rmult_lt_0_compat; [lra|]. apply Rdiv_lt_0_compat; lra.
Qed.

Lemma r_n_0 : r_n_of 0 = a_radius.
Proof.
  unfold r_n_of. rewrite sin_0. replace (1 - e_eccentricity ^ 2 * 0 ^ 2) with 1 by ring.
  rewrite sqrt_1. field.
Qed.

Lemma r_n_ge (lat_0 : R) : a_radius <= r_n_of lat_0.
Proof.
  unfold r_n_of. pose proof (radius_denominator_pos lat_0).
  pose proof e2_bounds. pose proof (pow2_ge_0 (sin lat_0)).
  set (d := 1 - e_eccentricity ^ 2 * sin lat_0 ^ 2) in *.
  assert (Hd : d <= 1) by (unfold d; nra).
  assert (Hs : 0 < sqrt d <= 1).
  { split; [apply sqrt_lt_R0; lra|]. rewrite <- sqrt_1. apply sqrt_le_1_alt. lra. }
  unfold a_radius. apply (Rmult_le_reg_r (sqrt d)); [lra|].
  unfold Rdiv. rewrite Rmult_assoc, Rinv_l by lra. nra.
Qed.

Lemma r_m_ge (lat_0 : R) : a_radius * (99 / 100) <= r_m_of lat_0.
Proof.
  unfold r_m_of. pose proof (r_n_ge lat_0). pose proof e2_bounds.
  pose proof (radius_denominator_pos lat_0). pose proof (pow2_ge_0 (sin lat_0)).
  set (d := 1 - e_eccentricity ^ 2 * sin lat_0 ^ 2) in *.
  assert (Hd : d <= 1) by (unfold d; nra).
  assert (Hq : 99 / 100 <= (1 - e_eccentricity ^ 2) / d).
  { apply (Rmult_le_reg_r d); [lra|].
    replace ((1 - e_eccentricity ^ 2) / d * d) with (1 - e_eccentricity ^ 2)
      by (field; lra). nra. }
  unfold a_radius in *. nra.
Qed.

(** [ssa] subtracts one turn on [[pi, 3 pi)]. *)
Lemma ssa_shift_down (angle : R) : PI <= angle < 3 * PI -> ssa angle = angle - 2 * PI.
Proof.
  intros [H1 H2]. pose proof PI_bounds.
  unfold ssa, np_mod.
  rewrite (Rfloor_unique ((angle + PI) / (2 * PI)) 1).
  - simpl. ring.
  - simpl. split.
    + apply (Rmult_le_reg_r (2 * PI)); [lra|].
      unfold Rdiv. rewrite Rmult_assoc, Rinv_l by lra. lra.
    + apply (Rmult_lt_reg_r (2 * PI)); [lra|].
      unfold Rdiv. rewrite Rmult_assoc, Rinv_l by lra. lra.
Qed.

(** In general the round trip returns the offsets shifted by whole turns of
    the two [ssa] wraps. *)
Lemma flat_roundtrip_turns (north east lat_0 lon_0 : R) :
  cos lat_0 <> 0 ->
  exists k1 k2 : Z,
    flat_roundtrip north east lat_0 lon_0 =
    (north + 2 * PI * IZR k1 * r_m_of lat_0,
     east + 2 * PI * IZR k2 * (r_n_of lat_0 * cos lat_0)).
Proof.
  intros Hc. pose proof (r_n_pos lat_0). pose proof (r_m_pos lat_0).
  destruct (ssa_congr (lat_0 + north / (r_m_of lat_0 + 0))) as [k1 E1].
  destruct (ssa_congr (lon_0 + east / ((r_n_of lat_0 + 0) * cos lat_0))) as [k2 E2].
  exists k1, k2. unfold flat_roundtrip, flat2llh, llh2flat.
  rewrite E1, E2. f_equal; field; lra.
Qed.

Lemma flat_roundtrip_exact_aux (north east lat_0 lon_0 : R) :
  - PI / 2 < lat_0 < PI / 2 ->
  - PI <= lat_0 + north / r_m_of lat_0 < PI ->
  - PI <= lon_0 + east / (r_n_of lat_0 * cos lat_0) < PI ->
  flat_roundtrip north east lat_0 lon_0 = (north, east).
Proof.
  intros [Hl1 Hl2] Hn He. pose proof (r_n_pos lat_0). pose proof (r_m_pos lat_0).
  assert (Hc : 0 < cos lat_0) by (apply cos_gt_0; lra).
  unfold flat_roundtrip, flat2llh, llh2flat. rewrite !Rplus_0_r.
  rewrite (ssa_id _ Hn), (ssa_id _ He). f_equal; field; lra.
Qed.

Lemma flat_roundtrip_antimeridian_value :
  flat_roundtrip 0 (2 / 1000 * a_radius) 0 (PI - 1 / 1000) =
  (0, (2 / 1000 - 2 * PI) * a_radius).
Proof.
  pose proof PI_bounds.
  unfold flat_roundtrip, flat2llh, llh2flat. rewrite r_n_0, cos_0, !Rplus_0_r.
  replace (0 + 0 / r_m_of 0) with 0 by (unfold Rdiv; rewrite Rmult_0_l; ring).
  rewrite (ssa_id 0) by lra.
  replace (PI - 1 / 1000 + 2 / 1000 * a_radius / (a_radius * 1))
    with (PI + 1 / 1000) by (unfold a_radius; field).
  rewrite ssa_shift_down by lra. f_equal; field.
Qed.

(** ** Comparisons, rounding and angle helpers *)

Definition Rltb (x y : R) : bool := if Rlt_dec x y then true else false.
Definition Rleb (x y : R) : bool := if Rle_dec x y then true else false.

Lemma Rltb_spec (x y : R) : Rltb x y = true <-> x < y.
Proof. unfold Rltb. destruct (Rlt_dec x y); split; congruence || lra. Qed.

Lemma Rleb_spec (x y : R) : Rleb x y = true <-> x <= y.
Proof. unfold Rleb. destruct (Rle_dec x y); split; congruence || lra. Qed.

Lemma Rltb_false (x y : R) : Rltb x y = false <-> y <= x.
Proof. unfold Rltb. destruct (Rlt_dec x y); split; congruence || lra. Qed.

Lemma Rleb_false (x y : R) : Rleb x y = false <-> y < x.
Proof. unfold Rleb. destruct (Rle_dec x y); split; congruence || lra. Qed.

(** [np.rint]: round half to even. *)
Definition round_half_even (x : R) : Z :=
  let f := Rfloor x in
  let r := x - IZR f in
  if Rltb r (1 / 2) then f
  else if Rltb (1 / 2) r then (f + 1)%Z
  else if Z.even f then f else (f + 1)%Z.

(** [round(x, decimals)] on a numpy float: scale, [rint], unscale. *)
Definition np_round (x : R) (decimals : nat) : R :=
  IZR (round_half_even (x * 10 ^ decimals)) / 10 ^ decimals.

(** [np.arctan2(y, x)] (signed zeros are not modelled: [arctan2(0, 0) = 0]). *)
Definition np_arctan2 (y x : R) : R :=
  if Rltb 0 x then atan (y / x)
  else if Rltb x 0 then
    (if Rleb 0 y then atan (y / x) + PI else atan (y / x) - PI)
  else if Rltb 0 y then PI / 2
  else if Rltb y 0 then - (PI / 2)
  else 0.

(** [utils.convert_angle_minus_pi_to_pi_to_0_to_2_pi]. *)
Definition convert_angle_minus_pi_to_pi_to_0_to_2_pi (angle_pi : R) : R :=
  if Rleb 0 angle_pi then angle_pi else angle_pi + 2 * PI.

(** [utils.convert_angle_0_to_2_pi_to_minus_pi_to_pi]. *)
Definition convert_angle_0_to_2_pi_to_minus_pi_to_pi (angle_2_pi : R) : R :=
  if Rleb 0 angle_2_pi && Rleb angle_2_pi PI then angle_2_pi else angle_2_pi - 2 * PI.

(** [while x < lo: x += step], in closed form: the loop adds [step] the
    least number of times [k] with [x + k * step >= lo]. *)
Definition while_lt_add (x lo step : R) : R :=
  if Rltb x lo then x + step * IZR (- Rfloor (- ((lo - x) / step))) else x.

(** [while x >= hi: x -= step], in closed form: the loop subtracts [step]
    the least number of times [k] with [x - k * step < hi]. *)
Definition while_ge_sub (x hi step : R) : R :=
  if Rleb hi x then x - step * IZR (Rfloor ((x - hi) / step) + 1) else x.

(** ** Types of [trafficgen.types] used by the solver *)

Record GeoPosition := mkGeoPosition { lat : R; lon : R }.

Inductive EncounterType :=
| OVERTAKING_STAND_ON
| OVERTAKING_GIVE_WAY
| HEAD_ON
| CROSSING_GIVE_WAY
| CROSSING_STAND_ON
| NO_RISK_COLLISION.

#[global] Instance EncounterType_eq_dec : EqDecision EncounterType.
Proof. solve_decision. Defined.

(** [theta15] is a list of two angles in every settings file; the code only
    reads [theta15[0]] and [theta15[1]], kept here as a pair. *)
Record EncounterClassification := mkEncounterClassification {
  theta13_criteria : R;
  theta14_criteria : R;
  theta15_criteria : R;
  theta15 : R * R
}.

Record EncounterRelativeSpeed := mkEncounterRelativeSpeed {
  overtaking_stand_on : list R;
  overtaking_give_way : list R;
  head_on : list R;
  crossing_give_way : list R;
  crossing_stand_on : list R
}.

Record EncounterSettings := mkEncounterSettings {
  classification : EncounterClassification;
  relative_speed : EncounterRelativeSpeed;
  vector_range : list R;
  common_vector : R;
  situation_length : R;
  max_meeting_distance : R;
  evolve_time : R;
  disable_land_check : bool
}.

(** ** [encounter.determine_colreg] *)

(** The conditions of the five [if] statements, in source order. *)
Definition colreg_rule (k : nat) (alpha beta theta13_criteria theta14_criteria
    theta15_criteria : R) (theta15 : R * R) : bool :=
  let alpha_2_pi := if Rleb 0 alpha then alpha else alpha + 2 * PI in
  let beta_pi := if Rleb 0 beta && Rleb beta PI then beta else beta - 2 * PI in
  let limit := 0.001 in
  match k with
  | 1%nat => Rltb theta15.1 beta && Rltb beta theta15.2
             && Rleb (Rabs alpha - theta13_criteria) limit
  | 2%nat => Rltb theta15.1 alpha_2_pi && Rltb alpha_2_pi theta15.2
             && Rleb (Rabs beta_pi - theta13_criteria) limit
  | 3%nat => Rleb (Rabs beta_pi - theta14_criteria) limit
             && Rleb (Rabs alpha - theta14_criteria) limit
  | 4%nat => Rltb 0 beta && Rltb beta theta15.1 && Rltb (- theta15.1) alpha
             && Rleb (alpha - theta15_criteria) limit
  | 5%nat => Rltb 0 alpha_2_pi && Rltb alpha_2_pi theta15.1
             && Rltb (- theta15.1) beta_pi && Rleb (beta_pi - theta15_criteria) limit
  | _ => false
  end.

Definition determine_colreg (alpha beta theta13_criteria theta14_criteria
    theta15_criteria : R) (theta15 : R * R) : EncounterType :=
  let rule k := colreg_rule k alpha beta theta13_criteria theta14_criteria
                  theta15_criteria theta15 in
  if rule 1%nat then OVERTAKING_STAND_ON
  else if rule 2%nat then OVERTAKING_GIVE_WAY
  else if rule 3%nat then HEAD_ON
  else if rule 4%nat then CROSSING_GIVE_WAY
  else if rule 5%nat then CROSSING_STAND_ON
  else NO_RISK_COLLISION.

(** The default classification thresholds of the settings file. *)
Definition default_classification : EncounterClassification :=
  mkEncounterClassification 0.087 0.087 1.22 (2.97, 3.40).

(** ** Tactics for comparisons on concrete and bounded reals *)

Lemma Rabs_le_iff (x c : R) : Rabs x <= c <-> - c <= x <= c.
Proof. unfold Rabs. destruct (Rcase_abs x); split; intros; lra. Qed.

Ltac bool_facts :=
  repeat match goal with
  | H : (_ && _) = true |- _ => apply andb_true_iff in H; destruct H
  | H : Rltb _ _ = true |- _ => apply Rltb_spec in H
  | H : Rleb _ _ = true |- _ => apply Rleb_spec in H
  | H : Rltb _ _ = false |- _ => apply Rltb_false in H
  | H : Rleb _ _ = false |- _ => apply Rleb_false in H
  | H : Rabs ?x - ?t <= ?l |- _ =>
      let H' := fresh in
      assert (H' : - (l + t) <= x <= l + t) by (apply Rabs_le_iff; lra); clear H
  end.

(** Rewrites every comparison (and [Rabs]) of the goal whose truth value
    [lra] settles, using the bounds on [PI]. *)
Ltac rcmp :=
  pose proof PI_bounds;
  repeat (cbv beta iota delta [andb];
  match goal with
  | |- context [Rabs ?x] =>
      first [ rewrite (Rabs_pos_eq x) by lra | rewrite (Rabs_left x) by lra ]
  | |- context [Rltb ?x ?y] =>
      first [ rewrite (proj2 (Rltb_spec x y)) by lra
            | rewrite (proj2 (Rltb_false x y)) by lra ]
  | |- context [Rleb ?x ?y] =>
      first [ rewrite (proj2 (Rleb_spec x y)) by lra
            | rewrite (proj2 (Rleb_false x y)) by lra ]
  end); cbn [andb].

Definition colreg_domain (alpha beta : R) : Prop :=
  - PI <= alpha < PI /\ 0 <= beta < 2 * PI.

Definition default_rule (k : nat) (alpha beta : R) : bool :=
  colreg_rule k alpha beta (theta13_criteria default_classification)
    (theta14_criteria default_classification) (theta15_criteria default_classification)
    (theta15 default_classification).

Lemma default_rules_disjoint (i j : nat) (alpha beta : R) :
  In (i, j) [(1, 2); (1, 3); (1, 4); (2, 3); (2, 5)]%nat ->
  colreg_domain alpha beta ->
  default_rule i alpha beta && default_rule j alpha beta = false.
Proof.
  intros Hij [Ha Hb]. pose proof PI_bounds.
  destruct (default_rule i alpha beta) eqn:Ei; [|reflexivity].
  destruct (default_rule j alpha beta) eqn:Ej; [|reflexivity]. exfalso.
  unfold default_rule, colreg_rule, default_classification in Ei, Ej; cbn [fst snd
    theta13_criteria theta14_criteria theta15_criteria theta15] in Ei, Ej.
  destruct (Rleb 0 alpha) eqn:A; destruct (Rleb 0 beta && Rleb beta PI) eqn:B;
  simpl in Hij;
  repeat (destruct Hij as [Hij|Hij]; [injection Hij as <- <-|]); try contradiction;
  bool_facts; lra.
Qed.

Lemma default_rules_overlap_at (i j : nat) (alpha beta : R) :
  In (i, j, alpha, beta)
    [(1%nat, 5%nat, 0.05, 3.35); (2%nat, 4%nat, -2.93, 0.05); (3%nat, 4%nat, 0, 0.05);
     (3%nat, 5%nat, 0.05, 0); (4%nat, 5%nat, 0.5, 0.5)] ->
  colreg_domain alpha beta /\
  default_rule i alpha beta = true /\ default_rule j alpha beta = true.
Proof.
  intros H. pose proof PI_bounds. simpl in H.
  repeat (destruct H as [H|H]; [injection H as <- <- <- <-|]); try contradiction;
  (split; [unfold colreg_domain; lra|]);
  unfold default_rule, colreg_rule, default_classification;
  cbn [fst snd theta13_criteria theta14_criteria theta15_criteria theta15];
  rcmp; split; reflexivity.
Qed.

(** ** [encounter.calculate_relative_bearing] *)

(** Returns [(beta, alpha)]. *)
Definition calculate_relative_bearing (position_own_ship : GeoPosition)
    (heading_own_ship : R) (position_target_ship : GeoPosition)
    (heading_target_ship : R) (lat_lon0 : GeoPosition) : R * R :=
  let '(n_own_ship, e_own_ship, _) :=
    llh2flat (lat position_own_ship) (lon position_own_ship)
      (lat lat_lon0) (lon lat_lon0) 0 0 in
  let '(n_target_ship, e_target_ship, _) :=
    llh2flat (lat position_target_ship) (lon position_target_ship)
      (lat lat_lon0) (lon lat_lon0) 0 0 in
  let q := Rabs (n_target_ship - n_own_ship) / Rabs (e_target_ship - e_own_ship) in
  let bng_own_ship_target_ship :=
    if Req_EM_T e_own_ship e_target_ship then
      (if Rleb n_own_ship n_target_ship then 0 else PI)
    else if Rltb e_own_ship e_target_ship then
      (if Rleb n_own_ship n_target_ship then 1 / 2 * PI - atan q
       else 1 / 2 * PI + atan q)
    else if Rleb n_own_ship n_target_ship then 3 / 2 * PI + atan q
    else 3 / 2 * PI - atan q in
  let bng_target_ship_own_ship := bng_own_ship_target_ship + PI in
  let beta := bng_own_ship_target_ship - heading_own_ship in
  let beta := while_lt_add beta 0 (2 * PI) in
  let beta := while_ge_sub beta (2 * PI) (2 * PI) in
  let alpha := bng_target_ship_own_ship - heading_target_ship in
  let alpha := while_lt_add alpha (- PI) (2 * PI) in
  let alpha := while_ge_sub alpha PI (2 * PI) in
  (beta, alpha).

(** ** [encounter.calculate_ship_cog] *)

Definition calculate_ship_cog (pos_0 pos_1 lat_lon0 : GeoPosition) : R :=
  let '(n_0, e_0, _) := llh2flat (lat pos_0) (lon pos_0) (lat lat_lon0) (lon lat_lon0) 0 0 in
  let '(n_1, e_1, _) := llh2flat (lat pos_1) (lon pos_1) (lat lat_lon0) (lon lat_lon0) 0 0 in
  let cog := np_arctan2 (e_1 - e_0) (n_1 - n_0) in
  let cog := if Rltb cog 0 then cog + 2 * PI else cog in
  np_round cog 3.

(** ** [encounter.find_start_position_target_ship] *)

(** The coefficients [(a, b, c)] of the quadratic in the ray parameter. *)
Definition start_position_coefficients (own_ship_position lat_lon0 : GeoPosition)
    (own_ship_cog : R) (target_ship_position_future : GeoPosition)
    (target_ship_vector_length desired_beta : R) : R * R * R * (R * R * R * R) :=
  let '(n_1, e_1, _) := llh2flat (lat own_ship_position) (lon own_ship_position)
                          (lat lat_lon0) (lon lat_lon0) 0 0 in
  let '(n_2, e_2, _) := llh2flat (lat target_ship_position_future)
                          (lon target_ship_position_future)
                          (lat lat_lon0) (lon lat_lon0) 0 0 in
  let v_r := target_ship_vector_length in
  let psi := own_ship_cog + desired_beta in
  let n_4 := n_1 + cos psi in
  let e_4 := e_1 + sin psi in
  let b := - 2 * e_2 * e_4 - 2 * n_2 * n_4 + 2 * e_1 * e_2 + 2 * n_1 * n_2
           + 2 * e_1 * (e_4 - e_1) + 2 * n_1 * (n_4 - n_1) in
  let a := (e_4 - e_1) ^ 2 + (n_4 - n_1) ^ 2 in
  let c := e_2 ^ 2 + n_2 ^ 2 - 2 * e_1 * e_2 - 2 * n_1 * n_2 - v_r ^ 2 + e_1 ^ 2 + n_1 ^ 2 in
  (a, b, c, (n_1, e_1, n_4, e_4)).

Definition discriminant (own_ship_position lat_lon0 : GeoPosition) (own_ship_cog : R)
    (target_ship_position_future : GeoPosition)
    (target_ship_vector_length desired_beta : R) : R :=
  let '(a, b, c, _) := start_position_coefficients own_ship_position lat_lon0
    own_ship_cog target_ship_position_future target_ship_vector_length desired_beta in
  b ^ 2 - 4 * a * c.

(** Course, relative bearings and classification of a candidate start
    position, as the function computes them for each root. *)
Definition candidate_colreg (own_ship_position lat_lon0 : GeoPosition) (own_ship_cog : R)
    (target_ship_position_future : GeoPosition) (cls : EncounterClassification)
    (pos : GeoPosition) : R * R * EncounterType :=
  let target_ship_cog := calculate_ship_cog pos target_ship_position_future lat_lon0 in
  let '(beta, alpha) := calculate_relative_bearing own_ship_position own_ship_cog pos
                          target_ship_cog lat_lon0 in
  (beta, alpha, determine_colreg alpha beta (theta13_criteria cls) (theta14_criteria cls)
                  (theta15_criteria cls) (theta15 cls)).

(** The start positions of the two roots, [s_1] first. *)
Definition root_positions (own_ship_position lat_lon0 : GeoPosition) (own_ship_cog : R)
    (target_ship_position_future : GeoPosition)
    (target_ship_vector_length desired_beta : R) : GeoPosition * GeoPosition :=
  let '(a, b, c, (n_1, e_1, n_4, e_4)) :=
    start_position_coefficients own_ship_position lat_lon0 own_ship_cog
      target_ship_position_future target_ship_vector_length desired_beta in
  let s_1 := (- b + sqrt (b ^ 2 - 4 * a * c)) / (2 * a) in
  let s_2 := (- b - sqrt (b ^ 2 - 4 * a * c)) / (2 * a) in
  let e_31 := np_round (e_1 + s_1 * (e_4 - e_1)) 0 in
  let n_31 := np_round (n_1 + s_1 * (n_4 - n_1)) 0 in
  let e_32 := np_round (e_1 + s_2 * (e_4 - e_1)) 0 in
  let n_32 := np_round (n_1 + s_2 * (n_4 - n_1)) 0 in
  let '(lat31, lon31, _) := flat2llh n_31 e_31 (lat lat_lon0) (lon lat_lon0) 0 0 in
  let '(lat32, lon32, _) := flat2llh n_32 e_32 (lat lat_lon0) (lon lat_lon0) 0 0 in
  (mkGeoPosition lat31 lon31, mkGeoPosition lat32 lon32).

(** The acceptance test of a root, as written in the function. *)
Definition root_accepted (desired_encounter_type : EncounterType) (desired_beta : R)
    (beta : R) (colreg_state : EncounterType) : bool :=
  let limit := 0.01 in
  bool_decide (desired_encounter_type = colreg_state)
  && Rltb (Rabs (convert_angle_0_to_2_pi_to_minus_pi_to_pi (Rabs (beta - desired_beta)))) limit.

Definition find_start_position_target_ship (own_ship_position lat_lon0 : GeoPosition)
    (own_ship_cog : R) (target_ship_position_future : GeoPosition)
    (target_ship_vector_length desired_beta : R)
    (desired_encounter_type : EncounterType) (encounter_settings : EncounterSettings)
    : GeoPosition * bool :=
  let cls := classification encounter_settings in
  (* conservative fallback values *)
  let fallback := (target_ship_position_future, false) in
  if Rleb (discriminant own_ship_position lat_lon0 own_ship_cog
             target_ship_position_future target_ship_vector_length desired_beta) 0
  then fallback
  else
    let '(p31, p32) := root_positions own_ship_position lat_lon0 own_ship_cog
                         target_ship_position_future target_ship_vector_length desired_beta in
    let '(beta1, _, colreg_state1) := candidate_colreg own_ship_position lat_lon0
                                        own_ship_cog target_ship_position_future cls p31 in
    let '(beta2, _, colreg_state2) := candidate_colreg own_ship_position lat_lon0
                                        own_ship_cog target_ship_position_future cls p32 in
    if root_accepted desired_encounter_type desired_beta beta1 colreg_state1 then (p31, true)
    else if root_accepted desired_encounter_type desired_beta beta2 colreg_state2 then (p32, true)
    else fallback.



(** * Ships and the Python world *)

Inductive AisNavStatus :=
| UNDER_WAY_USING_ENGINE | AT_ANCHOR | NOT_UNDER_COMMAND | RESTRICTED_MANEUVERABILITY
| CONSTRAINED_BY_HER_DRAUGHT | MOORED | AGROUND | ENGAGED_IN_FISHING | UNDER_WAY_SAILING
| RESERVED_FOR_FUTURE_AMENDMENT_DG_HS_MP_C_HSC | RESERVED_FOR_FUTURE_AMENDMENT_DG_HS_MP_A_WIG
| POWER_DRIVEN_VESSEL_TOWING_ASTERN | POWER_DRIVEN_VESSEL_PUSHING_AHEAD_OR_TOWING_ALONGSIDE
| RESERVED_FOR_FUTURE_USE | AIS_SART_ACTIVE | UNDEFINED.

(** [types.ShipStatic]. The fields [dimensions], [ship_type] and [path_type]
    are copied along and never read by the code modelled here. *)
Record ShipStatic := mkShipStatic {
  id : Z;
  mmsi : option Z;
  imo : option Z;
  name : option string;
  sog_min : option R;
  sog_max : option R
}.

(** [types.Initial]. *)
Record Initial := mkInitial {
  position : GeoPosition;
  sog : R;
  cog : R;
  heading : option R;
  nav_status : option AisNavStatus
}.

(** [types.DataPoint] (its interpolation fields are not read here),
    [types.RouteData] (field [sog], named [route_sog] here), [types.Leg] and
    [types.Waypoint] (field [position], named [wp_position] here). *)
Record DataPoint := mkDataPoint { value : option R }.
Record RouteData := mkRouteData { route_sog : option DataPoint }.
Record Leg := mkLeg { starboard_xtd : option R; portside_xtd : option R; data : option RouteData }.
Record Waypoint := mkWaypoint {
  wp_position : GeoPosition;
  turn_radius : option R;
  leg : option Leg
}.

(** Python objects that the code mutates in place are kept in a heap: a
    [ShipStatic] is a reference [loc]. [model_copy(deep=True)] allocates a
    fresh object. *)
Definition loc := positive.

(** [types.OwnShip]: its [static] is never touched by [generate_encounter]. *)
Record OwnShip := mkOwnShip {
  own_static : ShipStatic;
  own_initial : option Initial;
  own_waypoints : option (list Waypoint)
}.

(** [types.TargetShip]: [static] holds the [ShipStatic] object it was built
    with (pydantic keeps a model instance as given). *)
Record TargetShip := mkTargetShip {
  static : loc;
  initial : option Initial;
  waypoints : option (list Waypoint)
}.

Inductive PyExc :=
| AssertionError | AttributeError | IndexError | TypeError | ValueError
| ValidationError | ZeroDivisionError.

(** The state a call of [generate_encounter] can change:
    - [heap]: the [ShipStatic] objects;
    - [relative_speed_lists]: the current contents of the five lists of
      [settings.relative_speed], which are Python lists shared with the
      settings object;
    - [rng_calls]: how many values the [random] module has produced;
    - [solver_calls]: how many times [find_start_position_target_ship] was
      called (a counter of the model, not a variable of the source). *)
Record World := mkWorld {
  heap : gmap loc ShipStatic;
  relative_speed_lists : EncounterRelativeSpeed;
  rng_calls : nat;
  solver_calls : nat
}.

(** The external libraries: [random.random()] and [random._randbelow] as
    streams indexed by [rng_calls], [pyproj.Geod(ellps="WGS84").fwd] and
    [global_land_mask.globe.is_land]. *)
Class PyEnv := {
  random_random : nat -> R;
  random_randbelow : nat -> Z -> Z;
  geod_fwd : R -> R -> R -> R -> R * R * R;
  globe_is_land : R -> R -> bool
}.

(** A state and exception monad: an exception keeps the state reached. *)
Definition M (A : Type) : Type := World -> (PyExc + A) * World.

Global Instance M_ret : MRet M := fun A x w => (inr x, w).
Global Instance M_bind : MBind M := fun A B k m w =>
  match m w with
  | (inl e, w') => (inl e, w')
  | (inr x, w') => k x w'
  end.

Definition raise {A} (e : PyExc) : M A := fun w => (inl e, w).

Definition assert_some {A} (o : option A) : M A :=
  match o with Some x => mret x | None => raise AssertionError end.

(** [l[i]] for an index [i >= 0]. *)
Definition list_index {A} (l : list A) (i : nat) : M A :=
  match l !! i with Some x => mret x | None => raise IndexError end.

(** [x / y] on Python floats. *)
Definition py_div (x y : R) : M R :=
  if Req_EM_T y 0 then raise ZeroDivisionError else mret (x / y).

Definition load (l : loc) : M ShipStatic := fun w =>
  match heap w !! l with
  | Some s => (inr s, w)
  | None => (inl AttributeError, w) (* a dangling reference; Python has none *)
  end.

Definition store (l : loc) (s : ShipStatic) : M unit := fun w =>
  (inr tt, mkWorld (<[l := s]> (heap w)) (relative_speed_lists w) (rng_calls w)
             (solver_calls w)).

Definition alloc (s : ShipStatic) : M loc := fun w =>
  let l := fresh (dom (heap w)) in
  (inr l, mkWorld (<[l := s]> (heap w)) (relative_speed_lists w) (rng_calls w)
            (solver_calls w)).

Definition get_relative_speed : M EncounterRelativeSpeed := fun w =>
  (inr (relative_speed_lists w), w).

Definition put_relative_speed (rs : EncounterRelativeSpeed) : M unit := fun w =>
  (inr tt, mkWorld (heap w) rs (rng_calls w) (solver_calls w)).

(** ** The functions of [trafficgen.utils] used by [generate_encounter] *)

(** [calculate_position_at_certain_time(position, lat_lon0, sog, cog, delta_time)]. *)
Definition calculate_position_at_certain_time (position lat_lon0 : GeoPosition)
    (sog cog delta_time : R) : GeoPosition :=
  let '(north, east, _) := llh2flat (lat position) (lon position)
                             (lat lat_lon0) (lon lat_lon0) 0 0 in
  let north := north + sog * delta_time * cos cog in
  let east := east + sog * delta_time * sin cog in
  let '(lat_future, lon_future, _) := flat2llh north east (lat lat_lon0) (lon lat_lon0) 0 0 in
  mkGeoPosition lat_future lon_future.

Definition calculate_distance (position_prev position_next : GeoPosition) : R :=
  let '(north_next, east_next, _) := llh2flat (lat position_next) (lon position_next)
                                       (lat position_prev) (lon position_prev) 0 0 in
  sqrt (north_next ^ 2 + east_next ^ 2).

Definition calculate_bearing_between_waypoints (position_prev position_next : GeoPosition) : R :=
  let '(north_next, east_next, _) := llh2flat (lat position_next) (lon position_next)
                                       (lat position_prev) (lon position_prev) 0 0 in
  convert_angle_minus_pi_to_pi_to_0_to_2_pi (np_arctan2 east_next north_next).

Definition calculate_destination_along_track (position_prev : GeoPosition)
    (distance bearing : R) : GeoPosition :=
  let north := distance * cos bearing in
  let east := distance * sin bearing in
  let '(lat, lon, _) := flat2llh north east (lat position_prev) (lon position_prev) 0 0 in
  mkGeoPosition lat lon.

(** The unit conversions of [trafficgen.utils]. *)
Definition knot_2_m_pr_s (speed_in_knot : R) : R :=
  let knot_2_m_pr_sec := 0.5144 in speed_in_knot * knot_2_m_pr_sec.

Definition m_pr_s_2_knot (speed_in_m_pr_s : R) : R :=
  let knot_2_m_pr_sec := 0.5144 in speed_in_m_pr_s / knot_2_m_pr_sec.

Definition min_2_s (time_in_min : R) : R :=
  let min_2_s_coeff := 60 in time_in_min * min_2_s_coeff.

Definition m_2_nm (length_in_m : R) : R :=
  let m_2_nm_coeff := 1 / 1852 in m_2_nm_coeff * length_in_m.

Definition nm_2_m (length_in_nm : R) : R :=
  let nm_2_m_factor := 1852 in length_in_nm * nm_2_m_factor.

Definition deg_2_rad (angle_in_degrees : R) : R := angle_in_degrees * PI / 180.

Definition rad_2_deg (angle_in_radians : R) : R := angle_in_radians * 180 / PI.

(** ** Pure parts of [encounter] used by the search loop *)

(** [np.abs(np.cross(p_2 - p_1, p_3 - p_1) / np.linalg.norm(p_2 - p_1))]. *)
Definition calculate_min_vector_length_target_ship (own_ship_position : GeoPosition)
    (own_ship_cog : R) (target_ship_position_future : GeoPosition)
    (desired_beta : R) (lat_lon0 : GeoPosition) : R :=
  let psi := own_ship_cog + desired_beta in
  let '(own_ship_position_north, own_ship_position_east, _) :=
    llh2flat (lat own_ship_position) (lon own_ship_position) (lat lat_lon0) (lon lat_lon0) 0 0 in
  let '(target_ship_position_future_north, target_ship_position_future_east, _) :=
    llh2flat (lat target_ship_position_future) (lon target_ship_position_future)
      (lat lat_lon0) (lon lat_lon0) 0 0 in
  let d2 := (own_ship_position_north + cos psi - own_ship_position_north,
             own_ship_position_east + sin psi - own_ship_position_east) in
  let d3 := (target_ship_position_future_north - own_ship_position_north,
             target_ship_position_future_east - own_ship_position_east) in
  Rabs ((fst d2 * snd d3 - snd d2 * fst d3) / sqrt (fst d2 ^ 2 + snd d2 ^ 2)).

(** [int(x)] on a Python float: truncation toward zero. *)
Definition py_int (x : R) : Z := if Rle_dec 0 x then Rfloor x else (- Rfloor (- x))%Z.

(** The argument of [path_crosses_land] named [position_1], as a Python
    object: a [GeoPosition], a [types.Position] (fields [x] and [y]), or any
    other object that has attributes [north] and [east]. *)
Inductive PositionArg :=
| PositionGeo (g : GeoPosition)
| PositionXY (x y : R)
| PositionNorthEast (north east : R).

(** The argument [lat_lon0] of [path_crosses_land]: a list of floats (as
    annotated) or a [GeoPosition]. *)
Inductive LatLon0Arg :=
| LatLon0List (l : list R)
| LatLon0Geo (g : GeoPosition).

Inductive BetaDefault :=
| BetaNone
| BetaList (l : list R)
| BetaFloat (x : R).

(** [types.OwnShipInitial] and the field [own_ship] of
    [types.SituationInput], the only field of it [define_own_ship] reads. *)
Record OwnShipInitial := mkOwnShipInitial {
  osi_initial : Initial;
  osi_waypoints : option (list Waypoint)
}.

Record SituationInput := mkSituationInput { situation_own_ship : OwnShipInitial }.

Section Environment.
Context `{PyEnv}.

(** [random.uniform(a, b)] is [a + (b - a) * random()]. *)
Definition random_uniform (a b : R) : M R := fun w =>
  (inr (a + (b - a) * random_random (rng_calls w)),
   mkWorld (heap w) (relative_speed_lists w) (S (rng_calls w)) (solver_calls w)).

(** [random.randint(a, b)] is [randrange(a, b + 1)]: [a + _randbelow(b - a + 1)],
    and [ValueError] on an empty range. *)
Definition random_randint (a b : Z) : M Z := fun w =>
  if (b + 1 - a <=? 0)%Z then (inl ValueError, w)
  else (inr (a + random_randbelow (rng_calls w) (b + 1 - a) mod (b + 1 - a))%Z,
        mkWorld (heap w) (relative_speed_lists w) (S (rng_calls w)) (solver_calls w)).

(** [utils.calculate_position_along_track_using_waypoints]: the [for] loop
    over [i = 1 .. len(waypoints) - 1], with [prev = waypoints[i - 1]];
    [None] when the loop ends without returning. *)
Fixpoint along_track_loop (prev : Waypoint) (rest : list Waypoint)
    (inital_speed vector_time time_in_transit : R) : M (option GeoPosition) :=
  match rest with
  | [] => mret None
  | waypoint :: rest' =>
      ship_speed ← match leg waypoint with
                   | Some l =>
                       match data l with
                       | Some d =>
                           match route_sog d with
                           | Some sp => assert_some (value sp)
                           | None => mret inital_speed
                           end
                       | None => mret inital_speed
                       end
                   | None => mret inital_speed
                   end;
      let dist_between_waypoints :=
        calculate_distance (wp_position prev) (wp_position waypoint) in
      let dist_travel := ship_speed * (vector_time - time_in_transit) in
      if Rltb dist_between_waypoints dist_travel then
        t ← py_div dist_between_waypoints ship_speed;
        along_track_loop waypoint rest' inital_speed vector_time (time_in_transit + t)
      else
        let bearing := calculate_bearing_between_waypoints (wp_position prev)
                         (wp_position waypoint) in
        mret (Some (calculate_destination_along_track (wp_position prev) dist_travel bearing))
  end.

Definition calculate_position_along_track_using_waypoints (waypoints : list Waypoint)
    (inital_speed vector_time : R) : M GeoPosition :=
  match waypoints with
  | [] => raise IndexError (* [waypoints[-1]] *)
  | w0 :: rest =>
      r ← along_track_loop w0 rest inital_speed vector_time 0;
      match r with
      | Some p => mret p
      | None => mret (wp_position (List.last rest w0))
      end
  end.

Definition assign_future_position_to_target_ship (own_ship_position_future lat_lon0 : GeoPosition)
    (max_meeting_distance : R) : M GeoPosition :=
  u1 ← random_uniform 0 1;
  let random_angle := u1 * 2 * PI in
  u2 ← random_uniform 0 1;
  let random_distance := u2 * max_meeting_distance in
  let '(own_ship_position_future_north, own_ship_position_future_east, _) :=
    llh2flat (lat own_ship_position_future) (lon own_ship_position_future)
      (lat lat_lon0) (lon lat_lon0) 0 0 in
  let north := own_ship_position_future_north + random_distance * cos random_angle in
  let east := own_ship_position_future_east + random_distance * sin random_angle in
  let '(lat, lon, _) := flat2llh north east (lat lat_lon0) (lon lat_lon0) 0 0 in
  mret (mkGeoPosition lat lon).

Definition assign_beta (encounter_type : EncounterType)
    (encounter_settings : EncounterSettings) : M R :=
  let cls := classification encounter_settings in
  let theta13_crit := theta13_criteria cls in
  let theta14_crit := theta14_criteria cls in
  let theta15_crit := theta15_criteria cls in
  let '(theta15_0, theta15_1) := theta15 cls in
  match encounter_type with
  | OVERTAKING_STAND_ON =>
      u ← random_uniform 0 1; mret (theta15_0 + u * (theta15_1 - theta15_0))
  | OVERTAKING_GIVE_WAY =>
      u ← random_uniform 0 1; mret (- theta13_crit + u * (theta13_crit - - theta13_crit))
  | HEAD_ON =>
      u ← random_uniform 0 1; mret (- theta14_crit + u * (theta14_crit - - theta14_crit))
  | CROSSING_GIVE_WAY =>
      u ← random_uniform 0 1; mret (0 + u * (theta15_0 - 0))
  | CROSSING_STAND_ON =>
      u ← random_uniform 0 1;
      mret (convert_angle_minus_pi_to_pi_to_0_to_2_pi
              (- theta15_1 + u * (theta15_1 + theta15_crit)))
  | NO_RISK_COLLISION => mret 0
  end.

Definition assign_beta_from_list (beta_limit : list R) : M R :=
  if decide (length beta_limit = 2%nat) then
    b0 ← list_index beta_limit 0;
    b1 ← list_index beta_limit 1;
    u ← random_uniform 0 1;
    mret (b0 + u * (b1 - b0))
  else raise AssertionError.

(** [assign_vector_time]: the operands of
    [vector_time_range[0] + random.uniform(0, 1) * (vector_time_range[1] - vector_time_range[0])]
    are evaluated from left to right. *)
Definition assign_vector_time (vector_time_range : list R) : M R :=
  v0 ← list_index vector_time_range 0;
  u ← random_uniform 0 1;
  v1 ← list_index vector_time_range 1;
  v0' ← list_index vector_time_range 0;
  mret (v0 + u * (v1 - v0')).

(** The list of [relative_sog_setting] that [assign_sog_to_target_ship]
    picks for a type, and the same settings with that list replaced. *)
Definition relative_sog_of (encounter_type : EncounterType)
    (rs : EncounterRelativeSpeed) : option (list R) :=
  match encounter_type with
  | OVERTAKING_STAND_ON => Some (overtaking_stand_on rs)
  | OVERTAKING_GIVE_WAY => Some (overtaking_give_way rs)
  | HEAD_ON => Some (head_on rs)
  | CROSSING_GIVE_WAY => Some (crossing_give_way rs)
  | CROSSING_STAND_ON => Some (crossing_stand_on rs)
  | NO_RISK_COLLISION => None
  end.

Definition set_relative_sog (encounter_type : EncounterType) (l : list R)
    (rs : EncounterRelativeSpeed) : EncounterRelativeSpeed :=
  let '(mkEncounterRelativeSpeed os og ho cg cs) := rs in
  match encounter_type with
  | OVERTAKING_STAND_ON => mkEncounterRelativeSpeed l og ho cg cs
  | OVERTAKING_GIVE_WAY => mkEncounterRelativeSpeed os l ho cg cs
  | HEAD_ON => mkEncounterRelativeSpeed os og l cg cs
  | CROSSING_GIVE_WAY => mkEncounterRelativeSpeed os og ho l cs
  | CROSSING_STAND_ON => mkEncounterRelativeSpeed os og ho cg l
  | NO_RISK_COLLISION => rs
  end.

(** [assign_sog_to_target_ship]. Its argument [relative_sog_setting] is
    [settings.relative_speed], whose lists are the ones held in the world:
    [relative_sog[0] = ...] writes into the list of the settings object
    (the fresh list [[0.0, 0.0]] of the last branch is not shared). *)
Definition assign_sog_to_target_ship (encounter_type : EncounterType)
    (own_ship_sog min_target_ship_sog : R) : M R :=
  relative_sog_setting ← get_relative_speed;
  let shared := relative_sog_of encounter_type relative_sog_setting in
  let relative_sog := match shared with Some l => l | None => [0; 0] end in
  q ← py_div min_target_ship_sog own_ship_sog;
  r0 ← list_index relative_sog 0;
  in_range ← (if Rltb r0 q then
                q' ← py_div min_target_ship_sog own_ship_sog;
                r1 ← list_index relative_sog 1;
                mret (Rltb q' r1)
              else mret false : M bool);
  relative_sog ← (if (in_range : bool) then
                    q'' ← py_div min_target_ship_sog own_ship_sog;
                    let l := <[0%nat := q'']> relative_sog in
                    (match shared with
                     | Some _ => put_relative_speed
                                   (set_relative_sog encounter_type l relative_sog_setting)
                     | None => mret tt
                     end);;
                    mret l
                  else mret relative_sog : M (list R));
  s0 ← list_index relative_sog 0;
  u ← random_uniform 0 1;
  s1 ← list_index relative_sog 1;
  mret ((s0 + u * (s1 - s0)) * own_ship_sog).

(** [decide_target_ship]: the caller's list holds references to the
    templates; the function returns a fresh deep copy of one of them. *)
Definition decide_target_ship (target_ships_static : list loc) : M loc :=
  let num_target_ships := Z.of_nat (length target_ships_static) in
  target_ship_to_use ← random_randint 1 num_target_ships;
  l ← list_index target_ships_static (Z.to_nat (target_ship_to_use - 1));
  target_ship_static ← load l;
  alloc target_ship_static.

(** The constructor [Initial(...)] and its field constraints
    ([sog >= 0], [0 <= cog <= 360], [0 <= heading <= 360]). *)
Definition mk_Initial (position : GeoPosition) (sog cog : R) (heading : option R)
    (nav_status : option AisNavStatus) : M Initial :=
  let heading_ok := match heading with
                    | Some h => Rleb 0 h && Rleb h 360
                    | None => true
                    end in
  if Rleb 0 sog && Rleb 0 cog && Rleb cog 360 && heading_ok
  then mret (mkInitial position sog cog heading nav_status)
  else raise ValidationError.

(** [Ship._generate_waypoints]: an [Initial] object is always truthy. *)
Definition generate_waypoints (initial : option Initial) : option (list Waypoint) :=
  match initial with
  | Some i =>
      let '(lon1, lat1, _) := geod_fwd (lon (position i)) (lat (position i)) (cog i)
                                (sog i * 0.51444 * 3600 * 3) in
      let waypoint1 := mkWaypoint (mkGeoPosition lat1 lon1) None None in
      let waypoint0 := mkWaypoint (mkGeoPosition (lat (position i)) (lon (position i))) None None in
      Some [waypoint0; waypoint1]
  | None => None
  end.

(** Python truthiness of an optional string and of an optional list. *)
Definition str_truthy (s : option string) : bool :=
  match s with Some (String _ _) => true | _ => false end.

Definition list_truthy {A} (l : option (list A)) : bool :=
  match l with Some (_ :: _) => true | _ => false end.

Definition with_name (s : ShipStatic) (n : string) : ShipStatic :=
  mkShipStatic (id s) (mmsi s) (imo s) (Some n) (sog_min s) (sog_max s).

Definition with_id_name (s : ShipStatic) (i : Z) (n : string) : ShipStatic :=
  mkShipStatic i (mmsi s) (imo s) (Some n) (sog_min s) (sog_max s).

(** [TargetShip(static=..., initial=..., waypoints=...)]: [Ship.__init__]
    then [TargetShip.__init__], which names a nameless [static] in place. *)
Definition new_TargetShip (static : loc) (initial : option Initial)
    (waypoints : option (list Waypoint)) : M TargetShip :=
  let waypoints := if list_truthy waypoints then waypoints else generate_waypoints initial in
  s ← load static;
  (if str_truthy (name s) then mret tt
   else store static (with_name s ("TGT " +:+ pretty (id s))));;
  mret (mkTargetShip static initial waypoints).

Definition check_encounter_evolvement (own_ship : OwnShip) (own_ship_cog : R)
    (own_ship_position_future lat_lon0 : GeoPosition)
    (target_ship_sog target_ship_cog : R) (target_ship_position_future : GeoPosition)
    (desired_encounter_type : EncounterType) (encounter_settings : EncounterSettings) : M bool :=
  let cls := classification encounter_settings in
  own_init ← assert_some (own_initial own_ship);
  let own_ship_sog := sog own_init in
  let evolve_time := evolve_time encounter_settings in
  let encounter_preposition_target_ship :=
    calculate_position_at_certain_time target_ship_position_future lat_lon0
      target_ship_sog target_ship_cog (- evolve_time) in
  let encounter_preposition_own_ship :=
    calculate_position_at_certain_time own_ship_position_future lat_lon0
      own_ship_sog own_ship_cog (- evolve_time) in
  let '(pre_beta, pre_alpha) :=
    calculate_relative_bearing encounter_preposition_own_ship own_ship_cog
      encounter_preposition_target_ship target_ship_cog lat_lon0 in
  let pre_colreg_state := determine_colreg pre_alpha pre_beta (theta13_criteria cls)
                            (theta14_criteria cls) (theta15_criteria cls) (theta15 cls) in
  mret (bool_decide (pre_colreg_state = desired_encounter_type)).

(** [check_land_crossing.path_crosses_land]. Attribute access and indexing
    as Python does them on each kind of argument. In the loop body,
    [Position(north=..., east=...)] is evaluated first; [types.Position]
    requires its fields [x] and [y], so it raises a validation error. (Had it
    not, [calculate_position_at_certain_time] is called with 4 of its 5
    positional arguments, a [TypeError].) *)
Definition get_north (p : PositionArg) : M R :=
  match p with PositionNorthEast n _ => mret n | _ => raise AttributeError end.

Definition get_east (p : PositionArg) : M R :=
  match p with PositionNorthEast _ e => mret e | _ => raise AttributeError end.

Definition lat_lon0_index (l : LatLon0Arg) (i : nat) : M R :=
  match l with LatLon0List xs => list_index xs i | LatLon0Geo _ => raise TypeError end.

Definition Position_north_east (north east : R) : M PositionArg := raise ValidationError.

(** [for i in range(n)]: the first iteration raises, so the loop either
    does nothing ([n = 0]) or raises. *)
Definition path_crosses_land_loop (n : nat) (north_1 east_1 : R) : M bool :=
  match n with
  | O => mret false
  | S _ =>
      _ ← Position_north_east north_1 east_1;
      raise TypeError
  end.

Definition path_crosses_land (position_1 : PositionArg) (speed course : R)
    (lat_lon0 : LatLon0Arg) (time_interval : R) : M bool :=
  north_1 ← get_north position_1;
  east_1 ← get_east position_1;
  lat_0 ← lat_lon0_index lat_lon0 0;
  lon_0 ← lat_lon0_index lat_lon0 1;
  let num_checks := 10 in
  path_crosses_land_loop (Z.to_nat (py_int (time_interval / num_checks))) north_1 east_1.

(** A call of [find_start_position_target_ship], counted. *)
Definition call_find_start_position_target_ship (own_ship_position lat_lon0 : GeoPosition)
    (own_ship_cog : R) (target_ship_position_future : GeoPosition)
    (target_ship_vector_length desired_beta : R)
    (desired_encounter_type : EncounterType) (encounter_settings : EncounterSettings)
    : M (GeoPosition * bool) := fun w =>
  (inr (find_start_position_target_ship own_ship_position lat_lon0 own_ship_cog
          target_ship_position_future target_ship_vector_length desired_beta
          desired_encounter_type encounter_settings),
   mkWorld (heap w) (relative_speed_lists w) (rng_calls w) (S (solver_calls w))).

(** ** [encounter.generate_encounter] *)

(** The variables the two [while] loops update. *)
Record SearchState := mkSearchState {
  encounter_found : bool;
  outer_counter : Z;
  inner_counter : Z;
  target_ship_initial_position : GeoPosition;
  target_ship_sog : R;
  target_ship_cog : R
}.

Definition maximum_loops : Z := 5.

Definition with_id (s : ShipStatic) (i : Z) : ShipStatic :=
  mkShipStatic i (mmsi s) (imo s) (name s) (sog_min s) (sog_max s).

(** The arguments of [generate_encounter] and the values fixed before the
    loops. *)
Section Search.
Variables (desired_encounter_type : EncounterType) (own_ship : OwnShip)
  (beta_default : BetaDefault) (relative_sog_default vector_time_default : option R)
  (settings : EncounterSettings) (lat_lon0 : GeoPosition) (target_ship_static : loc).

(** The body of the inner loop, with the values of the outer iteration. *)
Definition inner_iteration (own_init : Initial) (vector_time beta own_ship_cog : R)
    (target_ship_position_future : GeoPosition) (st : SearchState) : M SearchState :=
  let inner_counter := (inner_counter st + 1)%Z in
  target_ship_sog ←
    match relative_sog_default with
    | None =>
        min_target_ship_sog ←
          py_div (calculate_min_vector_length_target_ship (position own_init) own_ship_cog
                    target_ship_position_future beta lat_lon0) vector_time;
        assign_sog_to_target_ship desired_encounter_type (sog own_init) min_target_ship_sog
    | Some relative_sog => mret (relative_sog * sog own_init)
    end;
  s ← load target_ship_static;
  sog_max ← assert_some (sog_max s);
  let target_ship_sog := np_round (Rmin target_ship_sog sog_max) 1 in
  let target_ship_vector_length := target_ship_sog * vector_time in
  r ← call_find_start_position_target_ship (position own_init) lat_lon0 own_ship_cog
        target_ship_position_future target_ship_vector_length beta desired_encounter_type
        settings;
  let '(start_position_target_ship, position_found) := (r : GeoPosition * bool) in
  if position_found then
    let target_ship_initial_position := start_position_target_ship in
    let target_ship_cog := calculate_ship_cog target_ship_initial_position
                             target_ship_position_future lat_lon0 in
    encounter_ok ← check_encounter_evolvement own_ship own_ship_cog (position own_init)
                     lat_lon0 target_ship_sog target_ship_cog target_ship_position_future
                     desired_encounter_type settings;
    encounter_found ←
      (if disable_land_check settings then mret encounter_ok
       else
         trajectory_on_land ← path_crosses_land (PositionGeo target_ship_initial_position)
                                target_ship_sog target_ship_cog (LatLon0Geo lat_lon0)
                                (situation_length settings);
         mret (encounter_ok && negb trajectory_on_land) : M bool);
    mret (mkSearchState encounter_found (outer_counter st) inner_counter
            target_ship_initial_position target_ship_sog target_ship_cog)
  else
    mret (mkSearchState (encounter_found st) (outer_counter st) inner_counter
            (target_ship_initial_position st) target_ship_sog (target_ship_cog st)).

(** [while not encounter_found and inner_counter < maximum_loops], run with
    [fuel] as an upper bound on the number of iterations. *)
Fixpoint inner_loop (fuel : nat) (own_init : Initial) (vector_time beta own_ship_cog : R)
    (target_ship_position_future : GeoPosition) (st : SearchState) : M SearchState :=
  match fuel with
  | O => mret st
  | S fuel' =>
      if negb (encounter_found st) && (inner_counter st <? maximum_loops)%Z then
        st' ← inner_iteration own_init vector_time beta own_ship_cog
                target_ship_position_future st;
        inner_loop fuel' own_init vector_time beta own_ship_cog target_ship_position_future st'
      else mret st
  end.

Definition outer_iteration (inner_fuel : nat) (st : SearchState) : M SearchState :=
  let st := mkSearchState (encounter_found st) (outer_counter st + 1) 0
              (target_ship_initial_position st) (target_ship_sog st) (target_ship_cog st) in
  vector_time ←
    match vector_time_default with
    | Some v => mret v
    | None =>
        v0 ← list_index (vector_range settings) 0;
        v1 ← list_index (vector_range settings) 1;
        random_uniform v0 v1
    end;
  beta ←
    match beta_default with
    | BetaNone => assign_beta desired_encounter_type settings
    | BetaList l => assign_beta_from_list l
    | BetaFloat b => mret b
    end;
  own_init ← assert_some (own_initial own_ship);
  wps ← assert_some (own_waypoints own_ship);
  w0 ← list_index wps 0;
  w1 ← list_index wps 1;
  let own_ship_cog := calculate_bearing_between_waypoints (wp_position w0) (wp_position w1) in
  own_ship_position_future ←
    calculate_position_along_track_using_waypoints wps (sog own_init) vector_time;
  target_ship_position_future ←
    assign_future_position_to_target_ship own_ship_position_future lat_lon0
      (max_meeting_distance settings);
  inner_loop inner_fuel own_init vector_time beta own_ship_cog target_ship_position_future st.

Fixpoint outer_loop (fuel inner_fuel : nat) (st : SearchState) : M SearchState :=
  match fuel with
  | O => mret st
  | S fuel' =>
      if negb (encounter_found st) && (outer_counter st <? maximum_loops)%Z then
        st' ← outer_iteration inner_fuel st;
        outer_loop fuel' inner_fuel st'
      else mret st
  end.

End Search.

(** [generate_encounter], with [fuel] bounding the iterations of the outer
    loop and of each run of the inner loop.
    [target_ships_static] holds references to the caller's templates. *)
Definition generate_encounter_fuel (fuel : nat) (desired_encounter_type : EncounterType)
    (own_ship : OwnShip) (target_ships_static : list loc) (encounter_number : Z)
    (beta_default : BetaDefault) (relative_sog_default vector_time_default : option R)
    (settings : EncounterSettings) : M (TargetShip * bool) :=
  own_init ← assert_some (own_initial own_ship);
  (* [target_ship_initial_position] starts as [own_ship.initial.position] *)
  let lat_lon0 := mkGeoPosition (lat (position own_init)) (lon (position own_init)) in
  target_ship_static ← decide_target_ship target_ships_static;
  st ← outer_loop desired_encounter_type own_ship beta_default relative_sog_default
         vector_time_default settings lat_lon0 target_ship_static fuel fuel
         (mkSearchState false 0 0 (position own_init) 0 0);
  if encounter_found st then
    let target_ship_id := 10%Z in
    s ← load target_ship_static;
    store target_ship_static (with_id s target_ship_id);;
    s ← load target_ship_static;
    store target_ship_static (with_name s ("target_ship_" +:+ pretty encounter_number));;
    target_ship_initial ← mk_Initial (target_ship_initial_position st) (target_ship_sog st)
                            (target_ship_cog st) (Some (target_ship_cog st))
                            (Some UNDER_WAY_USING_ENGINE);
    let target_ship_waypoint0 := mkWaypoint (target_ship_initial_position st) None None in
    let future_position_target_ship :=
      calculate_position_at_certain_time (target_ship_initial_position st) lat_lon0
        (target_ship_sog st) (target_ship_cog st) (situation_length settings) in
    let target_ship_waypoint1 := mkWaypoint future_position_target_ship None None in
    target_ship ← new_TargetShip target_ship_static (Some target_ship_initial)
                    (Some [target_ship_waypoint0; target_ship_waypoint1]);
    mret (target_ship, true)
  else
    target_ship ← new_TargetShip target_ship_static (own_initial own_ship) None;
    mret (target_ship, false).

(** Both loops stop by their guards within [maximum_loops] iterations, so
    this fuel is never the reason a loop stops. *)
Definition generate_encounter := generate_encounter_fuel (Z.to_nat maximum_loops).

(** [OwnShip(static=..., initial=..., waypoints=...)]: [Ship.__init__]
    replaces a missing or empty list of waypoints by [_generate_waypoints()],
    then [OwnShip.__init__] names a nameless [static] ["OS"]. *)
Definition new_OwnShip (static : ShipStatic) (initial : option Initial)
    (waypoints : option (list Waypoint)) : OwnShip :=
  let waypoints := if list_truthy waypoints then waypoints else generate_waypoints initial in
  let static := if str_truthy (name static) then static else with_name static "OS" in
  mkOwnShip static initial waypoints.

(** [encounter.define_own_ship]. *)
Definition define_own_ship (desired_traffic_situation : SituationInput)
    (own_ship_static : ShipStatic) (encounter_settings : EncounterSettings)
    (lat_lon0 : GeoPosition) : OwnShip :=
  let own_ship_initial := osi_initial (situation_own_ship desired_traffic_situation) in
  let own_ship_waypoints :=
    match osi_waypoints (situation_own_ship desired_traffic_situation) with
    | None =>
        let own_ship_waypoint0 := mkWaypoint (position own_ship_initial) None None in
        let ship_position_future :=
          calculate_position_at_certain_time (position own_ship_initial) lat_lon0
            (sog own_ship_initial) (cog own_ship_initial)
            (situation_length encounter_settings) in
        let own_ship_waypoint1 := mkWaypoint ship_position_future None None in
        [own_ship_waypoint0; own_ship_waypoint1]
    | Some [own_ship_waypoint1] =>
        let own_ship_waypoint0 := mkWaypoint (position own_ship_initial) None None in
        [own_ship_waypoint0; own_ship_waypoint1]
    | Some own_ship_waypoints => own_ship_waypoints
    end in
  new_OwnShip own_ship_static (Some own_ship_initial) (Some own_ship_waypoints).

End Environment.

(** ** Reasoning about [M]: calls of the solver and results *)

(** [m] calls the solver at most [n] times, or never. *)
Definition calls_le {A} (n : nat) (m : M A) : Prop :=
  forall w, (solver_calls (snd (m w)) <= solver_calls w + n)%nat.

Definition pure_calls {A} (m : M A) : Prop :=
  forall w, solver_calls (snd (m w)) = solver_calls w.

(** Every value [m] returns satisfies [Q]. *)
Definition post {A} (m : M A) (Q : A -> Prop) : Prop :=
  forall w x w', m w = (inr x, w') -> Q x.

Create HintDb calls.

Lemma mbind_unfold {A B} (f : A -> M B) (m : M A) (w : World) :
  mbind f m w = match m w with (inl e, w') => (inl e, w') | (inr x, w') => f x w' end.
Proof. reflexivity. Qed.

Lemma pure_calls_ret {A} (x : A) : pure_calls (mret x).
Proof. intros w; reflexivity. Qed.

Lemma pure_calls_raise {A} (e : PyExc) : pure_calls (A := A) (raise e).
Proof. intros w; reflexivity. Qed.

Lemma pure_calls_bind {A B} (f : A -> M B) (m : M A) :
  pure_calls m -> (forall x, pure_calls (f x)) -> pure_calls (mbind f m).
Proof.
  intros Hm Hf w. rewrite mbind_unfold. specialize (Hm w).
  destruct (m w) as [[e|x] w']; simpl in *; [auto | rewrite Hf; auto].
Qed.

Lemma calls_le_of_pure {A} (n : nat) (m : M A) : pure_calls m -> calls_le n m.
Proof. intros Hm w. rewrite Hm. lia. Qed.

Lemma calls_le_pure_bind {A B} (n : nat) (f : A -> M B) (m : M A) :
  pure_calls m -> (forall x, calls_le n (f x)) -> calls_le n (mbind f m).
Proof.
  intros Hm Hf w. rewrite mbind_unfold. specialize (Hm w).
  destruct (m w) as [[e|x] w']; simpl in *; [lia | specialize (Hf x w'); lia].
Qed.

Lemma calls_le_bind_pure {A B} (n : nat) (f : A -> M B) (m : M A) :
  calls_le n m -> (forall x, pure_calls (f x)) -> calls_le n (mbind f m).
Proof.
  intros Hm Hf w. rewrite mbind_unfold. specialize (Hm w).
  destruct (m w) as [[e|x] w']; simpl in *; [lia | rewrite Hf; lia].
Qed.

Lemma post_ret {A} (x : A) (Q : A -> Prop) : Q x -> post (mret x) Q.
Proof. intros HQ w y w' E. injection E as <- _. exact HQ. Qed.

Lemma post_raise {A} (e : PyExc) (Q : A -> Prop) : post (raise e) Q.
Proof. intros w y w' E. discriminate E. Qed.

Lemma post_bind {A B} (f : A -> M B) (m : M A) (P : A -> Prop) (Q : B -> Prop) :
  post m P -> (forall x, P x -> post (f x) Q) -> post (mbind f m) Q.
Proof.
  intros Hm Hf w y w' E. rewrite mbind_unfold in E.
  destruct (m w) as [[e|x] w''] eqn:Em; [discriminate E|].
  exact (Hf x (Hm w x w'' Em) w'' y w' E).
Qed.

Lemma post_bind_any {A B} (f : A -> M B) (m : M A) (Q : B -> Prop) :
  (forall x, post (f x) Q) -> post (mbind f m) Q.
Proof.
  intros Hf w y w' E. rewrite mbind_unfold in E.
  destruct (m w) as [[e|x] w'']; [discriminate E | exact (Hf x w'' y w' E)].
Qed.

Ltac pc_solve :=
  repeat match goal with
  | |- pure_calls (mbind _ _) => apply pure_calls_bind; [| intros ?]
  | |- pure_calls (mret _) => apply pure_calls_ret
  | |- pure_calls (raise _) => apply pure_calls_raise
  | |- pure_calls ((fun _ => _) _) => cbv beta
  | |- pure_calls (let _ := _ in _) => cbv zeta
  | |- pure_calls (if ?b then _ else _) => destruct b
  | |- pure_calls (match ?x with _ => _ end) => destruct x
  | |- pure_calls _ => solve [eauto with calls]
  end.

Ltac post_solve :=
  repeat match goal with
  | |- post (mbind _ _) _ => apply post_bind_any; intros ?
  | |- post (mret _) _ => apply post_ret
  | |- post (raise _) _ => apply post_raise
  | |- post ((fun _ => _) _) _ => cbv beta
  | |- post (let _ := _ in _) _ => cbv zeta
  | |- post (if ?b then _ else _) _ => destruct b
  | |- post (match ?x with _ => _ end) _ => destruct x
  end.

Section CallCounts.
Context `{PyEnv}.

Lemma pure_calls_assert_some {A} (o : option A) : pure_calls (assert_some o).
Proof. destruct o; intros w; reflexivity. Qed.

Lemma pure_calls_list_index {A} (l : list A) (i : nat) : pure_calls (list_index l i).
Proof. unfold list_index. destruct (l !! i); intros w; reflexivity. Qed.

Lemma pure_calls_py_div (x y : R) : pure_calls (py_div x y).
Proof. unfold py_div. destruct (Req_EM_T y 0); intros w; reflexivity. Qed.

Lemma pure_calls_load (l : loc) : pure_calls (load l).
Proof. intros w. unfold load. destruct (heap w !! l); reflexivity. Qed.

Lemma pure_calls_store (l : loc) (s : ShipStatic) : pure_calls (store l s).
Proof. intros w; reflexivity. Qed.

Lemma pure_calls_alloc (s : ShipStatic) : pure_calls (alloc s).
Proof. intros w; reflexivity. Qed.

Lemma pure_calls_get_relative_speed : pure_calls get_relative_speed.
Proof. intros w; reflexivity. Qed.

Lemma pure_calls_put_relative_speed (rs : EncounterRelativeSpeed) :
  pure_calls (put_relative_speed rs).
Proof. intros w; reflexivity. Qed.

Lemma pure_calls_random_uniform (a b : R) : pure_calls (random_uniform a b).
Proof. intros w; reflexivity. Qed.

Lemma pure_calls_random_randint (a b : Z) : pure_calls (random_randint a b).
Proof. intros w. unfold random_randint. destruct (b + 1 - a <=? 0)%Z; reflexivity. Qed.

End CallCounts.

#[export] Hint Resolve pure_calls_ret pure_calls_raise pure_calls_assert_some
  pure_calls_list_index pure_calls_py_div pure_calls_load pure_calls_store
  pure_calls_alloc pure_calls_get_relative_speed pure_calls_put_relative_speed
  pure_calls_random_uniform pure_calls_random_randint : calls.

Section CallCountsDerived.
Context `{PyEnv}.

Lemma pure_calls_along_track_loop (rest : list Waypoint) :
  forall prev inital_speed vector_time time_in_transit,
  pure_calls (along_track_loop prev rest inital_speed vector_time time_in_transit).
Proof.
  induction rest as [|wp rest IH]; intros; simpl; [apply pure_calls_ret|].
  pc_solve.
Qed.
Hint Resolve pure_calls_along_track_loop : calls.

Lemma pure_calls_calculate_position_along_track_using_waypoints (waypoints : list Waypoint)
    (inital_speed vector_time : R) :
  pure_calls (calculate_position_along_track_using_waypoints waypoints inital_speed vector_time).
Proof. unfold calculate_position_along_track_using_waypoints. pc_solve. Qed.

Lemma pure_calls_assign_future_position_to_target_ship (p q : GeoPosition) (d : R) :
  pure_calls (assign_future_position_to_target_ship p q d).
Proof. unfold assign_future_position_to_target_ship. pc_solve. Qed.

Lemma pure_calls_assign_beta (t : EncounterType) (s : EncounterSettings) :
  pure_calls (assign_beta t s).
Proof. unfold assign_beta. pc_solve. Qed.

Lemma pure_calls_assign_beta_from_list (l : list R) : pure_calls (assign_beta_from_list l).
Proof. unfold assign_beta_from_list. pc_solve. Qed.

Lemma pure_calls_assign_sog_to_target_ship (t : EncounterType) (a b : R) :
  pure_calls (assign_sog_to_target_ship t a b).
Proof. unfold assign_sog_to_target_ship. pc_solve. Qed.

Lemma pure_calls_decide_target_ship (l : list loc) : pure_calls (decide_target_ship l).
Proof. unfold decide_target_ship. pc_solve. Qed.

Lemma pure_calls_mk_Initial p a b h n : pure_calls (mk_Initial p a b h n).
Proof. unfold mk_Initial. pc_solve. Qed.

Lemma pure_calls_new_TargetShip l i wps : pure_calls (new_TargetShip l i wps).
Proof. unfold new_TargetShip. pc_solve. Qed.

Lemma pure_calls_check_encounter_evolvement o c p q a b r t s :
  pure_calls (check_encounter_evolvement o c p q a b r t s).
Proof. unfold check_encounter_evolvement. pc_solve. Qed.

Lemma pure_calls_path_crosses_land p a b l t : pure_calls (path_crosses_land p a b l t).
Proof. unfold path_crosses_land, path_crosses_land_loop, get_north, get_east, lat_lon0_index. pc_solve. Qed.

End CallCountsDerived.

#[export] Hint Resolve pure_calls_along_track_loop
  pure_calls_calculate_position_along_track_using_waypoints
  pure_calls_assign_future_position_to_target_ship pure_calls_assign_beta
  pure_calls_assign_beta_from_list pure_calls_assign_sog_to_target_ship
  pure_calls_decide_target_ship pure_calls_mk_Initial pure_calls_new_TargetShip
  pure_calls_check_encounter_evolvement pure_calls_path_crosses_land : calls.

Ltac cl_pure_prefix :=
  repeat match goal with
  | |- calls_le _ (mbind _ _) => apply calls_le_pure_bind; [solve [pc_solve] | intros ?]
  | |- calls_le _ ((fun _ => _) _) => cbv beta
  | |- calls_le _ (let _ := _ in _) => cbv zeta
  end.

(** ** The search loops: solver calls and counters *)

Section Loops.
Context `{PyEnv}.

Lemma call_find_start_calls a b c d e f g h :
  calls_le 1 (call_find_start_position_target_ship a b c d e f g h).
Proof. intros w. simpl. lia. Qed.

Lemma inner_iteration_calls t o r s l ts oi vt b c f st :
  calls_le 1 (inner_iteration t o r s l ts oi vt b c f st).
Proof.
  unfold inner_iteration. cl_pure_prefix.
  apply calls_le_bind_pure; [apply call_find_start_calls | intros ?; pc_solve].
Qed.

Lemma inner_iteration_post t o r s l ts oi vt b c f st :
  post (inner_iteration t o r s l ts oi vt b c f st)
    (fun st' => inner_counter st' = (inner_counter st + 1)%Z /\
                outer_counter st' = outer_counter st).
Proof. unfold inner_iteration. post_solve; simpl; auto. Qed.

Lemma inner_loop_calls t o r s l ts fuel oi vt b c f :
  forall st,
  calls_le (Z.to_nat (maximum_loops - inner_counter st))
    (inner_loop t o r s l ts fuel oi vt b c f st) /\
  post (inner_loop t o r s l ts fuel oi vt b c f st)
    (fun st' => outer_counter st' = outer_counter st).
Proof.
  induction fuel as [|fuel IH]; intros st; simpl.
  { split; [apply calls_le_of_pure, pure_calls_ret | apply post_ret; reflexivity]. }
  destruct (negb (encounter_found st) && (inner_counter st <? maximum_loops)%Z) eqn:G.
  2: { split; [apply calls_le_of_pure, pure_calls_ret | apply post_ret; reflexivity]. }
  apply andb_true_iff in G as [_ G]. apply Z.ltb_lt in G.
  split.
  - intros w. rewrite mbind_unfold.
    pose proof (inner_iteration_calls t o r s l ts oi vt b c f st w) as Hc.
    pose proof (inner_iteration_post t o r s l ts oi vt b c f st w) as Hp.
    destruct (inner_iteration t o r s l ts oi vt b c f st w) as [[e|st'] w'] eqn:E;
      simpl in *; [unfold maximum_loops in *; lia|].
    destruct (Hp st' w' eq_refl) as [Hi _].
    destruct (IH st') as [IHc _]. specialize (IHc w'). rewrite Hi in IHc.
    unfold maximum_loops in *; lia.
  - intros w x w' E. rewrite mbind_unfold in E.
    destruct (inner_iteration t o r s l ts oi vt b c f st w) as [[e|st'] w''] eqn:E2;
      [discriminate E|].
    destruct (inner_iteration_post t o r s l ts oi vt b c f st w st' w'' E2) as [_ Ho].
    rewrite <- Ho. exact (proj2 (IH st') w'' x w' E).
Qed.

Lemma outer_iteration_calls t o bd r vd s l ts fuel st :
  calls_le 5 (outer_iteration t o bd r vd s l ts fuel st) /\
  post (outer_iteration t o bd r vd s l ts fuel st)
    (fun st' => outer_counter st' = (outer_counter st + 1)%Z).
Proof.
  split.
  - unfold outer_iteration. cl_pure_prefix.
    exact (proj1 (inner_loop_calls t o r s l ts fuel _ _ _ _ _ _)).
  - unfold outer_iteration. post_solve.
    intros w0 y0 w1 E0.
    exact (proj2 (inner_loop_calls t o r s l ts fuel _ _ _ _ _ _) w0 y0 w1 E0).
Qed.

Lemma outer_loop_calls t o bd r vd s l ts fuel inner_fuel :
  forall st,
  calls_le (5 * Z.to_nat (maximum_loops - outer_counter st))
    (outer_loop t o bd r vd s l ts fuel inner_fuel st).
Proof.
  induction fuel as [|fuel IH]; intros st; simpl.
  { apply calls_le_of_pure, pure_calls_ret. }
  destruct (negb (encounter_found st) && (outer_counter st <? maximum_loops)%Z) eqn:G.
  2: { apply calls_le_of_pure, pure_calls_ret. }
  apply andb_true_iff in G as [_ G]. apply Z.ltb_lt in G.
  intros w. rewrite mbind_unfold.
  destruct (outer_iteration_calls t o bd r vd s l ts inner_fuel st) as [Hc Hp].
  specialize (Hc w). specialize (Hp w).
  destruct (outer_iteration t o bd r vd s l ts inner_fuel st w) as [[e|st'] w'] eqn:E;
    simpl in *; [unfold maximum_loops in *; lia|].
  specialize (Hp st' w' eq_refl). specialize (IH st' w'). rewrite Hp in IH.
  unfold maximum_loops in *; lia.
Qed.

Lemma mbind_ext {A B} (f g : A -> M B) (m : M A) :
  (forall x w, f x w = g x w) -> forall w, mbind f m w = mbind g m w.
Proof. intros Hfg w. rewrite !mbind_unfold. destruct (m w) as [[e|x] w']; auto. Qed.

Lemma inner_loop_fuel t o r s l ts oi vt b c f :
  forall fuel1 fuel2 st,
  (Z.to_nat (maximum_loops - inner_counter st) <= fuel1)%nat ->
  (Z.to_nat (maximum_loops - inner_counter st) <= fuel2)%nat ->
  forall w, inner_loop t o r s l ts fuel1 oi vt b c f st w =
            inner_loop t o r s l ts fuel2 oi vt b c f st w.
Proof.
  induction fuel1 as [|fuel1 IH]; intros fuel2 st H1 H2 w.
  - destruct fuel2 as [|fuel2]; simpl; [reflexivity|].
    replace (inner_counter st <? maximum_loops)%Z with false
      by (symmetry; apply Z.ltb_ge; unfold maximum_loops in *; lia).
    rewrite andb_false_r. reflexivity.
  - destruct fuel2 as [|fuel2]; simpl.
    + replace (inner_counter st <? maximum_loops)%Z with false
        by (symmetry; apply Z.ltb_ge; unfold maximum_loops in *; lia).
      rewrite andb_false_r. reflexivity.
    + destruct (negb (encounter_found st) && (inner_counter st <? maximum_loops)%Z); [|reflexivity].
      rewrite !mbind_unfold.
      destruct (inner_iteration t o r s l ts oi vt b c f st w) as [[e|st'] w'] eqn:E;
        [reflexivity|].
      destruct (inner_iteration_post t o r s l ts oi vt b c f st w st' w' E) as [Hi _].
      apply IH; rewrite Hi; unfold maximum_loops in *; lia.
Qed.

Lemma outer_iteration_fuel t o bd r vd s l ts fuel1 fuel2 st :
  (5 <= fuel1)%nat -> (5 <= fuel2)%nat ->
  forall w, outer_iteration t o bd r vd s l ts fuel1 st w =
            outer_iteration t o bd r vd s l ts fuel2 st w.
Proof.
  intros H1 H2. unfold outer_iteration. cbv zeta.
  repeat (apply mbind_ext; intros ? ?; cbv beta zeta).
  apply inner_loop_fuel; unfold maximum_loops; simpl; lia.
Qed.

Lemma outer_loop_fuel t o bd r vd s l ts :
  forall fuel1 fuel2 inner_fuel1 inner_fuel2 st,
  (Z.to_nat (maximum_loops - outer_counter st) <= fuel1)%nat ->
  (Z.to_nat (maximum_loops - outer_counter st) <= fuel2)%nat ->
  (5 <= inner_fuel1)%nat -> (5 <= inner_fuel2)%nat ->
  forall w, outer_loop t o bd r vd s l ts fuel1 inner_fuel1 st w =
            outer_loop t o bd r vd s l ts fuel2 inner_fuel2 st w.
Proof.
  induction fuel1 as [|fuel1 IH]; intros fuel2 if1 if2 st H1 H2 Hi1 Hi2 w.
  - destruct fuel2 as [|fuel2]; simpl; [reflexivity|].
    replace (outer_counter st <? maximum_loops)%Z with false
      by (symmetry; apply Z.ltb_ge; unfold maximum_loops in *; lia).
    rewrite andb_false_r. reflexivity.
  - destruct fuel2 as [|fuel2]; simpl.
    + replace (outer_counter st <? maximum_loops)%Z with false
        by (symmetry; apply Z.ltb_ge; unfold maximum_loops in *; lia).
      rewrite andb_false_r. reflexivity.
    + destruct (negb (encounter_found st) && (outer_counter st <? maximum_loops)%Z); [|reflexivity].
      rewrite !mbind_unfold, (outer_iteration_fuel t o bd r vd s l ts if1 if2 st Hi1 Hi2 w).
      destruct (outer_iteration t o bd r vd s l ts if2 st w) as [[e|st'] w'] eqn:E;
        [reflexivity|].
      pose proof (proj2 (outer_iteration_calls t o bd r vd s l ts if2 st) w st' w' E) as Ho.
      apply IH; try rewrite Ho; unfold maximum_loops in *; lia.
Qed.

(** The fuel of [generate_encounter] is not what stops it: with any fuel
    of at least [maximum_loops] the result is the same. *)
Lemma generate_encounter_fuel_enough fuel t o ts n bd r vd s :
  (5 <= fuel)%nat ->
  forall w, generate_encounter_fuel fuel t o ts n bd r vd s w =
            generate_encounter t o ts n bd r vd s w.
Proof.
  intros Hf. unfold generate_encounter, generate_encounter_fuel.
  apply mbind_ext; intros oi w1; cbv beta zeta.
  apply mbind_ext; intros l w2; cbv beta zeta.
  rewrite !mbind_unfold, (outer_loop_fuel t o bd r vd s _ l fuel 5 fuel 5);
    unfold maximum_loops; simpl; try lia.
  reflexivity.
Qed.

End Loops.

(** ** Reasoning about [M]: the heap of [ShipStatic] objects *)

(** [m] leaves every object of the heap as it is. *)
Definition heap_same {A} (m : M A) : Prop := forall w, heap (snd (m w)) = heap w.

(** [m] writes no object other than [l]. *)
Definition heap_frame {A} (l : loc) (m : M A) : Prop :=
  forall l', l' <> l -> forall w, heap (snd (m w)) !! l' = heap w !! l'.

Create HintDb heap.

Lemma heap_same_ret {A} (x : A) : heap_same (mret x).
Proof. intros w; reflexivity. Qed.

Lemma heap_same_raise {A} (e : PyExc) : heap_same (A := A) (raise e).
Proof. intros w; reflexivity. Qed.

Lemma heap_same_bind {A B} (f : A -> M B) (m : M A) :
  heap_same m -> (forall x, heap_same (f x)) -> heap_same (mbind f m).
Proof.
  intros Hm Hf w. rewrite mbind_unfold. specialize (Hm w).
  destruct (m w) as [[e|x] w']; simpl in *; [auto | rewrite Hf; auto].
Qed.

Lemma heap_frame_of_same {A} (l : loc) (m : M A) : heap_same m -> heap_frame l m.
Proof. intros Hm l' _ w. rewrite Hm. reflexivity. Qed.

Lemma heap_frame_bind {A B} (l : loc) (f : A -> M B) (m : M A) :
  heap_frame l m -> (forall x, heap_frame l (f x)) -> heap_frame l (mbind f m).
Proof.
  intros Hm Hf l' Hl w. rewrite mbind_unfold. specialize (Hm l' Hl w).
  destruct (m w) as [[e|x] w']; simpl in *; [auto | rewrite Hf; auto].
Qed.

Lemma heap_frame_store (l : loc) (s : ShipStatic) : heap_frame l (store l s).
Proof. intros l' Hl w. simpl. apply lookup_insert_ne. congruence. Qed.

Ltac hs_solve :=
  repeat match goal with
  | |- heap_same (mbind _ _) => apply heap_same_bind; [| intros ?]
  | |- heap_same (mret _) => apply heap_same_ret
  | |- heap_same (raise _) => apply heap_same_raise
  | |- heap_same ((fun _ => _) _) => cbv beta
  | |- heap_same (let _ := _ in _) => cbv zeta
  | |- heap_same (if ?b then _ else _) => destruct b
  | |- heap_same (match ?x with _ => _ end) => destruct x
  | |- heap_same _ => solve [eauto with heap]
  end.

Ltac hf_solve :=
  repeat match goal with
  | |- heap_frame _ (mbind _ _) => apply heap_frame_bind; [| intros ?]
  | |- heap_frame _ (store _ _) => apply heap_frame_store
  | |- heap_frame _ ((fun _ => _) _) => cbv beta
  | |- heap_frame _ (let _ := _ in _) => cbv zeta
  | |- heap_frame _ (if ?b then _ else _) => destruct b
  | |- heap_frame _ (match ?x with _ => _ end) => destruct x
  | |- heap_frame _ _ => solve [eauto with heap]
  | |- heap_frame _ _ => apply heap_frame_of_same; solve [hs_solve]
  end.

Section HeapFrame.
Context `{PyEnv}.

Lemma heap_same_assert_some {A} (o : option A) : heap_same (assert_some o).
Proof. destruct o; intros w; reflexivity. Qed.

Lemma heap_same_list_index {A} (l : list A) (i : nat) : heap_same (list_index l i).
Proof. unfold list_index. destruct (l !! i); intros w; reflexivity. Qed.

Lemma heap_same_py_div (x y : R) : heap_same (py_div x y).
Proof. unfold py_div. destruct (Req_EM_T y 0); intros w; reflexivity. Qed.

Lemma heap_same_load (l : loc) : heap_same (load l).
Proof. intros w. unfold load. destruct (heap w !! l); reflexivity. Qed.

Lemma heap_same_get_relative_speed : heap_same get_relative_speed.
Proof. intros w; reflexivity. Qed.

Lemma heap_same_put_relative_speed (rs : EncounterRelativeSpeed) :
  heap_same (put_relative_speed rs).
Proof. intros w; reflexivity. Qed.

Lemma heap_same_random_uniform (a b : R) : heap_same (random_uniform a b).
Proof. intros w; reflexivity. Qed.

Lemma heap_same_random_randint (a b : Z) : heap_same (random_randint a b).
Proof. intros w. unfold random_randint. destruct (b + 1 - a <=? 0)%Z; reflexivity. Qed.

Lemma heap_same_call_find_start a b c d e f g h :
  heap_same (call_find_start_position_target_ship a b c d e f g h).
Proof. intros w; reflexivity. Qed.

End HeapFrame.

#[export] Hint Resolve heap_same_ret heap_same_raise heap_same_assert_some
  heap_same_list_index heap_same_py_div heap_same_load heap_same_get_relative_speed
  heap_same_put_relative_speed heap_same_random_uniform heap_same_random_randint
  heap_same_call_find_start : heap.

Section HeapFrameDerived.
Context `{PyEnv}.

Lemma heap_same_along_track_loop (rest : list Waypoint) :
  forall prev inital_speed vector_time time_in_transit,
  heap_same (along_track_loop prev rest inital_speed vector_time time_in_transit).
Proof.
  induction rest as [|wp rest IH]; intros; simpl; [apply heap_same_ret|].
  hs_solve.
Qed.
Hint Resolve heap_same_along_track_loop : heap.

Lemma heap_same_calculate_position_along_track_using_waypoints (waypoints : list Waypoint)
    (inital_speed vector_time : R) :
  heap_same (calculate_position_along_track_using_waypoints waypoints inital_speed vector_time).
Proof. unfold calculate_position_along_track_using_waypoints. hs_solve. Qed.
Hint Resolve heap_same_calculate_position_along_track_using_waypoints : heap.

Lemma heap_same_assign_future_position_to_target_ship (p q : GeoPosition) (d : R) :
  heap_same (assign_future_position_to_target_ship p q d).
Proof. unfold assign_future_position_to_target_ship. hs_solve. Qed.
Hint Resolve heap_same_assign_future_position_to_target_ship : heap.

Lemma heap_same_assign_beta (t : EncounterType) (s : EncounterSettings) :
  heap_same (assign_beta t s).
Proof. unfold assign_beta. hs_solve. Qed.
Hint Resolve heap_same_assign_beta : heap.

Lemma heap_same_assign_beta_from_list (l : list R) : heap_same (assign_beta_from_list l).
Proof. unfold assign_beta_from_list. hs_solve. Qed.
Hint Resolve heap_same_assign_beta_from_list : heap.

Lemma heap_same_assign_sog_to_target_ship (t : EncounterType) (a b : R) :
  heap_same (assign_sog_to_target_ship t a b).
Proof. unfold assign_sog_to_target_ship. hs_solve. Qed.
Hint Resolve heap_same_assign_sog_to_target_ship : heap.

Lemma heap_same_mk_Initial p a b h n : heap_same (mk_Initial p a b h n).
Proof. unfold mk_Initial. hs_solve. Qed.
Hint Resolve heap_same_mk_Initial : heap.

Lemma heap_same_check_encounter_evolvement o c p q a b r t s :
  heap_same (check_encounter_evolvement o c p q a b r t s).
Proof. unfold check_encounter_evolvement. hs_solve. Qed.
Hint Resolve heap_same_check_encounter_evolvement : heap.

Lemma heap_same_path_crosses_land p a b l t : heap_same (path_crosses_land p a b l t).
Proof. unfold path_crosses_land, path_crosses_land_loop, get_north, get_east, lat_lon0_index. hs_solve. Qed.
Hint Resolve heap_same_path_crosses_land : heap.

Lemma heap_same_inner_iteration t o r s l ts oi vt b c f st :
  heap_same (inner_iteration t o r s l ts oi vt b c f st).
Proof. unfold inner_iteration. hs_solve. Qed.
Hint Resolve heap_same_inner_iteration : heap.

Lemma heap_same_inner_loop t o r s l ts fuel oi vt b c f :
  forall st, heap_same (inner_loop t o r s l ts fuel oi vt b c f st).
Proof. induction fuel as [|fuel IH]; intros st; simpl; hs_solve. Qed.
Hint Resolve heap_same_inner_loop : heap.

Lemma heap_same_outer_iteration t o bd r vd s l ts fuel st :
  heap_same (outer_iteration t o bd r vd s l ts fuel st).
Proof. unfold outer_iteration. hs_solve. Qed.
Hint Resolve heap_same_outer_iteration : heap.

Lemma heap_same_outer_loop t o bd r vd s l ts fuel inner_fuel :
  forall st, heap_same (outer_loop t o bd r vd s l ts fuel inner_fuel st).
Proof. induction fuel as [|fuel IH]; intros st; simpl; hs_solve. Qed.

Lemma heap_frame_new_TargetShip l i wps : heap_frame l (new_TargetShip l i wps).
Proof. unfold new_TargetShip. hf_solve. Qed.

(** [decide_target_ship] writes only the fresh location it returns. *)
Lemma decide_target_ship_fresh (target_ships_static : list loc) (w : World) :
  let l0 := fresh (dom (heap w)) in
  (forall l', l' <> l0 -> heap (snd (decide_target_ship target_ships_static w)) !! l' = heap w !! l') /\
  (forall x w', decide_target_ship target_ships_static w = (inr x, w') -> x = l0).
Proof.
  unfold decide_target_ship, random_randint, list_index, load, alloc.
  rewrite !mbind_unfold.
  destruct (_ <=? 0)%Z; [split; [reflexivity | discriminate]|].
  simpl. rewrite !mbind_unfold.
  destruct (target_ships_static !! _) as [l|]; simpl; [|split; [reflexivity | discriminate]].
  rewrite !mbind_unfold. simpl.
  destruct (heap w !! l) as [s|]; simpl; [|split; [reflexivity | discriminate]].
  split.
  - intros l' Hl. apply lookup_insert_ne. congruence.
  - intros x w' E. injection E as <- _. reflexivity.
Qed.

Lemma new_TargetShip_post l i wps :
  post (new_TargetShip l i wps) (fun target_ship => static target_ship = l).
Proof. unfold new_TargetShip. post_solve. reflexivity. Qed.

End HeapFrameDerived.

#[export] Hint Resolve heap_same_along_track_loop
  heap_same_calculate_position_along_track_using_waypoints
  heap_same_assign_future_position_to_target_ship heap_same_assign_beta
  heap_same_assign_beta_from_list heap_same_assign_sog_to_target_ship
  heap_same_mk_Initial heap_same_check_encounter_evolvement heap_same_path_crosses_land
  heap_same_inner_iteration heap_same_inner_loop heap_same_outer_iteration
  heap_same_outer_loop heap_frame_new_TargetShip : heap.

(** ** Reasoning about [M]: the lists of [settings.relative_speed] *)

(** The only write to these lists replaces the first element by a larger
    value. *)
Definition list_grows (l l' : list R) : Prop :=
  l' = l \/ exists a b t, l = a :: t /\ l' = b :: t /\ a < b.

Definition rs_grows (rs rs' : EncounterRelativeSpeed) : Prop :=
  list_grows (overtaking_stand_on rs) (overtaking_stand_on rs') /\
  list_grows (overtaking_give_way rs) (overtaking_give_way rs') /\
  list_grows (head_on rs) (head_on rs') /\
  list_grows (crossing_give_way rs) (crossing_give_way rs') /\
  list_grows (crossing_stand_on rs) (crossing_stand_on rs').

Definition rs_mono {A} (m : M A) : Prop :=
  forall w, rs_grows (relative_speed_lists w) (relative_speed_lists (snd (m w))).

Lemma list_grows_refl (l : list R) : list_grows l l.
Proof. left; reflexivity. Qed.

Lemma list_grows_trans (l1 l2 l3 : list R) :
  list_grows l1 l2 -> list_grows l2 l3 -> list_grows l1 l3.
Proof.
  intros H12 H23. destruct H12 as [->|(a & b & t & -> & -> & Hab)]; [exact H23|].
  destruct H23 as [->|(c & d & t' & E & -> & Hcd)].
  - right. exists a, b, t. auto.
  - injection E as <- <-. right. exists a, d, t. repeat split. lra.
Qed.

Lemma rs_grows_refl (rs : EncounterRelativeSpeed) : rs_grows rs rs.
Proof. repeat split; apply list_grows_refl. Qed.

Lemma rs_grows_trans (rs1 rs2 rs3 : EncounterRelativeSpeed) :
  rs_grows rs1 rs2 -> rs_grows rs2 rs3 -> rs_grows rs1 rs3.
Proof.
  intros (H1 & H2 & H3 & H4 & H5) (G1 & G2 & G3 & G4 & G5).
  repeat split; eapply list_grows_trans; eauto.
Qed.

Lemma rs_mono_ret {A} (x : A) : rs_mono (mret x).
Proof. intros w; apply rs_grows_refl. Qed.

Lemma rs_mono_raise {A} (e : PyExc) : rs_mono (A := A) (raise e).
Proof. intros w; apply rs_grows_refl. Qed.

Lemma rs_mono_bind {A B} (f : A -> M B) (m : M A) :
  rs_mono m -> (forall x, rs_mono (f x)) -> rs_mono (mbind f m).
Proof.
  intros Hm Hf w. rewrite mbind_unfold. specialize (Hm w).
  destruct (m w) as [[e|x] w']; cbn [snd] in *; [exact Hm|].
  eapply rs_grows_trans; [exact Hm | apply Hf].
Qed.

(** A run of [m] from [w] passes the world [w1], and every later step only
    lets the lists grow. *)
Definition rs_reaches {A} (m : M A) (w w1 : World) : Prop :=
  rs_grows (relative_speed_lists w1) (relative_speed_lists (snd (m w))).

Lemma mbind_inr {A B} (f : A -> M B) (m : M A) (w : World) (x : A) (w1 : World) :
  m w = (inr x, w1) -> mbind f m w = f x w1.
Proof. intros E. rewrite mbind_unfold, E. reflexivity. Qed.

Lemma rs_reaches_here {A} (m : M A) (w w1 : World) (x : A) :
  m w = (inr x, w1) -> rs_reaches m w w1.
Proof. intros E. unfold rs_reaches. rewrite E. apply rs_grows_refl. Qed.

Lemma rs_reaches_bind_l {A B} (f : A -> M B) (m : M A) (w w1 : World) :
  rs_reaches m w w1 -> (forall x, rs_mono (f x)) -> rs_reaches (mbind f m) w w1.
Proof.
  unfold rs_reaches. intros Hm Hf. rewrite mbind_unfold.
  destruct (m w) as [[e|x] w']; cbn [snd] in *; [exact Hm|].
  eapply rs_grows_trans; [exact Hm | apply Hf].
Qed.

Lemma rs_reaches_bind_r {A B} (f : A -> M B) (m : M A) (w w1 w2 : World) (x : A) :
  m w = (inr x, w2) -> rs_reaches (f x) w2 w1 -> rs_reaches (mbind f m) w w1.
Proof. unfold rs_reaches. intros E Hf. rewrite (mbind_inr f m w x w2 E). exact Hf. Qed.

Ltac rm_solve :=
  repeat match goal with
  | |- rs_mono (mbind _ _) => apply rs_mono_bind; [| intros ?]
  | |- rs_mono (mret _) => apply rs_mono_ret
  | |- rs_mono (raise _) => apply rs_mono_raise
  | |- rs_mono ((fun _ => _) _) => cbv beta
  | |- rs_mono (let _ := _ in _) => cbv zeta
  | |- rs_mono (if ?b then _ else _) => destruct b
  | |- rs_mono (match ?x with _ => _ end) => destruct x
  | |- rs_mono _ => solve [eauto with relspeed]
  end.

Create HintDb relspeed.

Section RelativeSpeed.
Context `{PyEnv}.

Lemma rs_mono_assert_some {A} (o : option A) : rs_mono (assert_some o).
Proof. destruct o; intros w; apply rs_grows_refl. Qed.

Lemma rs_mono_list_index {A} (l : list A) (i : nat) : rs_mono (list_index l i).
Proof. unfold list_index. destruct (l !! i); intros w; apply rs_grows_refl. Qed.

Lemma rs_mono_py_div (x y : R) : rs_mono (py_div x y).
Proof. unfold py_div. destruct (Req_EM_T y 0); intros w; apply rs_grows_refl. Qed.

Lemma rs_mono_load (l : loc) : rs_mono (load l).
Proof. intros w. unfold load. destruct (heap w !! l); apply rs_grows_refl. Qed.

Lemma rs_mono_store (l : loc) (s : ShipStatic) : rs_mono (store l s).
Proof. intros w; apply rs_grows_refl. Qed.

Lemma rs_mono_alloc (s : ShipStatic) : rs_mono (alloc s).
Proof. intros w; apply rs_grows_refl. Qed.

Lemma rs_mono_get_relative_speed : rs_mono get_relative_speed.
Proof. intros w; apply rs_grows_refl. Qed.

Lemma rs_mono_random_uniform (a b : R) : rs_mono (random_uniform a b).
Proof. intros w; apply rs_grows_refl. Qed.

Lemma rs_mono_random_randint (a b : Z) : rs_mono (random_randint a b).
Proof. intros w. unfold random_randint. destruct (b + 1 - a <=? 0)%Z; apply rs_grows_refl. Qed.

Lemma rs_mono_call_find_start a b c d e f g h :
  rs_mono (call_find_start_position_target_ship a b c d e f g h).
Proof. intros w; apply rs_grows_refl. Qed.

End RelativeSpeed.

#[export] Hint Resolve rs_mono_ret rs_mono_raise rs_mono_assert_some rs_mono_list_index
  rs_mono_py_div rs_mono_load rs_mono_store rs_mono_alloc rs_mono_get_relative_speed
  rs_mono_random_uniform rs_mono_random_randint rs_mono_call_find_start : relspeed.

Lemma rs_grows_set_relative_sog (t : EncounterType) (rs : EncounterRelativeSpeed)
    (a q : R) (tl : list R) :
  relative_sog_of t rs = Some (a :: tl) -> a < q ->
  rs_grows rs (set_relative_sog t (q :: tl) rs).
Proof.
  intros Hl Ha. destruct rs, t; cbn in *; try discriminate; injection Hl as ->;
    repeat split; first [apply list_grows_refl | right; exists a, q, tl; auto].
Qed.

Section RelativeSpeedDerived.
Context `{PyEnv}.

(** [relative_sog[0]] is overwritten only when it is below the new value. *)
Lemma rs_mono_assign_sog_to_target_ship (t : EncounterType) (a b : R) :
  rs_mono (assign_sog_to_target_ship t a b).
Proof.
  intros w. unfold assign_sog_to_target_ship, py_div.
  destruct (Req_EM_T a 0) as [E|E]; unfold mbind, M_bind; cbn;
  destruct (relative_sog_of t (relative_speed_lists w)) as [l|] eqn:Hl;
    try destruct l as [|r0 [|r1 tl]]; cbn; try apply rs_grows_refl;
  repeat match goal with |- context [Rltb ?x ?y] => destruct (Rltb x y) eqn:? end;
  cbn; try apply rs_grows_refl.
  eapply rs_grows_set_relative_sog; [exact Hl | apply Rltb_spec; assumption].
Qed.
Hint Resolve rs_mono_assign_sog_to_target_ship : relspeed.

Lemma rs_mono_along_track_loop (rest : list Waypoint) :
  forall prev inital_speed vector_time time_in_transit,
  rs_mono (along_track_loop prev rest inital_speed vector_time time_in_transit).
Proof.
  induction rest as [|wp rest IH]; intros; simpl; [apply rs_mono_ret|].
  rm_solve.
Qed.
Hint Resolve rs_mono_along_track_loop : relspeed.

Lemma rs_mono_calculate_position_along_track_using_waypoints (waypoints : list Waypoint)
    (inital_speed vector_time : R) :
  rs_mono (calculate_position_along_track_using_waypoints waypoints inital_speed vector_time).
Proof. unfold calculate_position_along_track_using_waypoints. rm_solve. Qed.
Hint Resolve rs_mono_calculate_position_along_track_using_waypoints : relspeed.

Lemma rs_mono_assign_future_position_to_target_ship (p q : GeoPosition) (d : R) :
  rs_mono (assign_future_position_to_target_ship p q d).
Proof. unfold assign_future_position_to_target_ship. rm_solve. Qed.
Hint Resolve rs_mono_assign_future_position_to_target_ship : relspeed.

Lemma rs_mono_assign_beta (t : EncounterType) (s : EncounterSettings) :
  rs_mono (assign_beta t s).
Proof. unfold assign_beta. rm_solve. Qed.
Hint Resolve rs_mono_assign_beta : relspeed.

Lemma rs_mono_assign_beta_from_list (l : list R) : rs_mono (assign_beta_from_list l).
Proof. unfold assign_beta_from_list. rm_solve. Qed.
Hint Resolve rs_mono_assign_beta_from_list : relspeed.

Lemma rs_mono_decide_target_ship (l : list loc) : rs_mono (decide_target_ship l).
Proof. unfold decide_target_ship. rm_solve. Qed.
Hint Resolve rs_mono_decide_target_ship : relspeed.

Lemma rs_mono_mk_Initial p a b h n : rs_mono (mk_Initial p a b h n).
Proof. unfold mk_Initial. rm_solve. Qed.
Hint Resolve rs_mono_mk_Initial : relspeed.

Lemma rs_mono_new_TargetShip l i wps : rs_mono (new_TargetShip l i wps).
Proof. unfold new_TargetShip. rm_solve. Qed.
Hint Resolve rs_mono_new_TargetShip : relspeed.

Lemma rs_mono_check_encounter_evolvement o c p q a b r t s :
  rs_mono (check_encounter_evolvement o c p q a b r t s).
Proof. unfold check_encounter_evolvement. rm_solve. Qed.
Hint Resolve rs_mono_check_encounter_evolvement : relspeed.

Lemma rs_mono_path_crosses_land p a b l t : rs_mono (path_crosses_land p a b l t).
Proof. unfold path_crosses_land, path_crosses_land_loop, get_north, get_east, lat_lon0_index, Position_north_east. rm_solve. Qed.
Hint Resolve rs_mono_path_crosses_land : relspeed.

Lemma rs_mono_inner_iteration t o r s l ts oi vt b c f st :
  rs_mono (inner_iteration t o r s l ts oi vt b c f st).
Proof. unfold inner_iteration. rm_solve. Qed.
Hint Resolve rs_mono_inner_iteration : relspeed.

Lemma rs_mono_inner_loop t o r s l ts fuel oi vt b c f :
  forall st, rs_mono (inner_loop t o r s l ts fuel oi vt b c f st).
Proof. induction fuel as [|fuel IH]; intros st; simpl; rm_solve. Qed.
Hint Resolve rs_mono_inner_loop : relspeed.

Lemma rs_mono_outer_iteration t o bd r vd s l ts fuel st :
  rs_mono (outer_iteration t o bd r vd s l ts fuel st).
Proof. unfold outer_iteration. rm_solve. Qed.
Hint Resolve rs_mono_outer_iteration : relspeed.

Lemma rs_mono_outer_loop t o bd r vd s l ts fuel inner_fuel :
  forall st, rs_mono (outer_loop t o bd r vd s l ts fuel inner_fuel st).
Proof. induction fuel as [|fuel IH]; intros st; simpl; rm_solve. Qed.

End RelativeSpeedDerived.

#[export] Hint Resolve rs_mono_assign_sog_to_target_ship rs_mono_along_track_loop
  rs_mono_calculate_position_along_track_using_waypoints
  rs_mono_assign_future_position_to_target_ship rs_mono_assign_beta
  rs_mono_assign_beta_from_list rs_mono_decide_target_ship rs_mono_mk_Initial
  rs_mono_new_TargetShip rs_mono_check_encounter_evolvement rs_mono_path_crosses_land
  rs_mono_inner_iteration rs_mono_inner_loop rs_mono_outer_iteration
  rs_mono_outer_loop : relspeed.

(** Sample inputs. *)
Definition origin : GeoPosition := mkGeoPosition 0 0.

Definition zero_settings : EncounterSettings :=
  mkEncounterSettings default_classification
    (mkEncounterRelativeSpeed [] [] [] [] []) [] 0 0 0 0 false.

(** A run of [generate_encounter] on concrete inputs: [random.random()]
    always returns [0.25], the own ship stands at (0, 0) with both waypoints
    there, and the land check is disabled. *)
Definition sample_env : PyEnv := {|
  random_random := fun _ => 1 / 4;
  random_randbelow := fun _ _ => 0%Z;
  geod_fwd := fun lon lat _ _ => (lon, lat, 0);
  globe_is_land := fun _ _ => false |}.

Lemma assign_future_sample (w : World) :
  @assign_future_position_to_target_ship sample_env origin origin 2 w =
  (inr (mkGeoPosition 0 (1 / (2 * a_radius))),
   mkWorld (heap w) (relative_speed_lists w) (S (S (rng_calls w))) (solver_calls w)).
Proof.
  unfold assign_future_position_to_target_ship, mbind, M_bind, random_uniform. cbn.
  replace ((0 + (1 - 0) * (1 / 4)) * 2 * PI) with (PI / 2) by field.
  rewrite cos_PI2, sin_PI2, cos_0, r_n_0.
  pose proof (r_m_pos 0) as Hm. assert (Ha : 0 < a_radius) by (unfold a_radius; lra).
  unfold mret, M_ret. f_equal. f_equal. f_equal.
  - match goal with |- ssa ?x = 0 => replace x with 0 by (field; lra) end.
    apply ssa_id. pose proof PI_bounds. lra.
  - match goal with |- ssa ?x = _ => replace x with (1 / (2 * a_radius)) by (field; lra) end.
    apply ssa_id. pose proof PI_bounds. unfold a_radius. lra.
Qed.

Lemma bearing_same (p : GeoPosition) : calculate_bearing_between_waypoints p p = 0.
Proof.
  unfold calculate_bearing_between_waypoints, llh2flat. cbn.
  rewrite !Rminus_diag, !Rmult_0_l.
  unfold np_arctan2, convert_angle_minus_pi_to_pi_to_0_to_2_pi.
  replace (Rltb 0 0) with false by (symmetry; apply Rltb_false; lra).
  replace (Rleb 0 0) with true by (symmetry; apply Rleb_spec; lra).
  reflexivity.
Qed.

Lemma min_vector_length_sample :
  calculate_min_vector_length_target_ship origin (calculate_bearing_between_waypoints origin origin)
    (mkGeoPosition 0 (1 / (2 * a_radius))) 0 origin
  = 1 / 2.
Proof.
  rewrite bearing_same.
  unfold calculate_min_vector_length_target_ship, llh2flat. cbn.
  rewrite !Rplus_0_r, cos_0, sin_0, r_n_0.
  match goal with |- context [sqrt ?x] => replace x with 1 by ring end.
  rewrite sqrt_1.
  assert (Ha : 0 < a_radius) by (unfold a_radius; lra).
  match goal with |- Rabs ?x = _ => replace x with (1 / 2) by (field; lra) end.
  apply Rabs_pos_eq. lra.
Qed.

Lemma distance_same (p : GeoPosition) : calculate_distance p p = 0.
Proof.
  unfold calculate_distance, llh2flat. cbn.
  rewrite !Rminus_diag, !Rmult_0_l, Rplus_0_r. apply sqrt_0.
Qed.

Lemma py_div_nonzero (x y : R) : y <> 0 -> py_div x y = mret (x / y).
Proof. intros Hy. unfold py_div. destruct (Req_EM_T y 0); [contradiction | reflexivity]. Qed.

Definition sample_waypoint : Waypoint := mkWaypoint origin None None.

Lemma along_track_sample `{PyEnv} (w : World) :
  calculate_position_along_track_using_waypoints [sample_waypoint; sample_waypoint] 1 1 w
  = (inr origin, w).
Proof.
  unfold calculate_position_along_track_using_waypoints. cbn [along_track_loop]. unfold mbind, M_bind.
  cbn -[calculate_distance calculate_bearing_between_waypoints calculate_destination_along_track py_div Rltb].
  rewrite distance_same.
  replace (Rltb 0 (1 * (1 - 0))) with true by (symmetry; apply Rltb_spec; lra).
  unfold py_div. destruct (Req_EM_T 1 0); [lra | reflexivity].
Qed.

Lemma assign_sog_writes `{PyEnv} (t : EncounterType) (own q : R) (w : World) (r0 r1 : R) (tl : list R) :
  relative_sog_of t (relative_speed_lists w) = Some (r0 :: r1 :: tl) -> own <> 0 ->
  r0 < q / own < r1 ->
  relative_speed_lists (snd (assign_sog_to_target_ship t own q w)) =
  set_relative_sog t (q / own :: r1 :: tl) (relative_speed_lists w).
Proof.
  intros Hl Ho [H0 H1]. unfold assign_sog_to_target_ship, py_div.
  destruct (Req_EM_T own 0) as [E|E]; [contradiction|].
  unfold mbind, M_bind. cbn. rewrite Hl. cbn.
  replace (Rltb r0 (q / own)) with true by (symmetry; apply Rltb_spec; lra).
  replace (Rltb (q / own) r1) with true by (symmetry; apply Rltb_spec; lra).
  reflexivity.
Qed.

Definition sample_own_ship : OwnShip :=
  mkOwnShip (mkShipStatic 1 None None (Some "own"%string) None None)
    (Some (mkInitial origin 1 0 None None)) (Some [sample_waypoint; sample_waypoint]).
Definition sample_template : ShipStatic := mkShipStatic 2 None None None None (Some 10).
Definition sample_relative_speed : EncounterRelativeSpeed :=
  mkEncounterRelativeSpeed [2 / 10; 8 / 10] [2 / 10; 8 / 10] [2 / 10; 8 / 10]
    [2 / 10; 8 / 10] [2 / 10; 8 / 10].
Definition sample_settings : EncounterSettings :=
  mkEncounterSettings default_classification sample_relative_speed [10; 30] 10 3600 2 1200 true.
Definition sample_world : World :=
  mkWorld {[1%positive := sample_template]} sample_relative_speed 0 0.

Lemma rs_reaches_self {A} (m : M A) (w : World) : rs_reaches m w (snd (m w)).
Proof. apply rs_grows_refl. Qed.

Lemma decide_target_ship_spec `{PyEnv} (ships : list loc) (w : World) (x : loc) (w1 : World) :
  decide_target_ship ships w = (inr x, w1) ->
  exists l s, l ∈ ships /\ heap w !! l = Some s /\ heap w1 = <[x := s]> (heap w).
Proof.
  unfold decide_target_ship, random_randint, list_index, load, alloc.
  rewrite !mbind_unfold.
  destruct (_ <=? 0)%Z; [discriminate|].
  simpl. rewrite !mbind_unfold.
  destruct (ships !! _) as [l|] eqn:El; simpl; [|discriminate].
  rewrite !mbind_unfold. simpl.
  destruct (heap w !! l) as [s|] eqn:Es; simpl; [|discriminate].
  intros E. injection E as <- <-. exists l, s. repeat split; auto.
  eapply list_elem_of_lookup_2; eauto.
Qed.

(** ** Runs that return: [m] started in [w] returns a value and a world
    satisfying [Q]. *)
Definition runs_to {A} (m : M A) (w : World) (Q : A -> World -> Prop) : Prop :=
  exists x w', m w = (inr x, w') /\ Q x w'.

Lemma runs_to_ret {A} (x : A) (w : World) (Q : A -> World -> Prop) :
  Q x w -> runs_to (mret x) w Q.
Proof. intros HQ. exists x, w. split; [reflexivity | exact HQ]. Qed.

Lemma runs_to_eq {A B} (f : A -> M B) (m : M A) (w w1 : World) (x : A) (Q : B -> World -> Prop) :
  m w = (inr x, w1) -> runs_to (f x) w1 Q -> runs_to (mbind f m) w Q.
Proof. intros E Hf. unfold runs_to. rewrite (mbind_inr f m w x w1 E). exact Hf. Qed.

Lemma runs_to_bind {A B} (f : A -> M B) (m : M A) (w : World)
    (P : A -> World -> Prop) (Q : B -> World -> Prop) :
  runs_to m w P -> (forall x w1, P x w1 -> runs_to (f x) w1 Q) -> runs_to (mbind f m) w Q.
Proof.
  intros (x & w1 & E & HP) Hf. eapply runs_to_eq; [exact E | apply Hf, HP].
Qed.

Lemma runs_to_weaken {A} (m : M A) (w : World) (P Q : A -> World -> Prop) :
  runs_to m w P -> (forall x w1, P x w1 -> Q x w1) -> runs_to m w Q.
Proof. intros (x & w1 & E & HP) HPQ. exists x, w1. auto. Qed.

Lemma np_round_0_1 : np_round 0 1 = 0.
Proof.
  unfold np_round, round_half_even.
  rewrite Rmult_0_l, (Rfloor_unique 0 0) by (simpl; lra).
  replace (Rltb (0 - IZR 0) (1 / 2)) with true by (symmetry; apply Rltb_spec; simpl; lra).
  simpl. lra.
Qed.

Lemma discriminant_zero_length (p l : GeoPosition) (c : R) (f : GeoPosition) (b : R) :
  discriminant p l c f 0 b <= 0.
Proof.
  unfold discriminant, start_position_coefficients.
  destruct (llh2flat (lat p) _ _ _ _ _) as [[n1 e1] z1].
  destruct (llh2flat (lat f) _ _ _ _ _) as [[n2 e2] z2].
  pose proof (pow2_ge_0 (sin (c + b) * (n1 - n2) - cos (c + b) * (e1 - e2))).
  nra.
Qed.

Lemma find_start_zero_length (p l : GeoPosition) (c : R) (f : GeoPosition) (b : R)
    (t : EncounterType) (s : EncounterSettings) :
  find_start_position_target_ship p l c f 0 b t s = (f, false).
Proof.
  unfold find_start_position_target_ship.
  rewrite (proj2 (Rleb_spec _ _) (discriminant_zero_length p l c f b)). reflexivity.
Qed.

Section ZeroSog.
Context `{PyEnv}.

(** With [relative_sog_default = 0] the vector of the target ship has length
    0, the discriminant is never positive and no start position is found. *)
Lemma inner_iteration_zero_sog t o s l ts oi vt b c f st w tmpl m :
  heap w !! ts = Some tmpl -> sog_max tmpl = Some m -> 0 <= m ->
  runs_to (inner_iteration t o (Some 0) s l ts oi vt b c f st) w
    (fun st' w' => encounter_found st' = encounter_found st /\
       outer_counter st' = outer_counter st /\ heap w' = heap w).
Proof.
  intros Hts Hm Hm0. unfold inner_iteration. cbv zeta.
  eapply runs_to_eq; [reflexivity|]. cbv beta.
  eapply runs_to_eq; [unfold load; rewrite Hts; reflexivity|]. cbv beta.
  eapply runs_to_eq; [rewrite Hm; reflexivity|]. cbv beta.
  rewrite Rmult_0_l, Rmin_left, np_round_0_1, Rmult_0_l by exact Hm0.
  eapply runs_to_eq; [reflexivity|]. cbv beta.
  rewrite find_start_zero_length.
  apply runs_to_ret. auto.
Qed.

Lemma inner_loop_zero_sog t o s l ts oi vt b c f tmpl m :
  forall fuel st w,
  heap w !! ts = Some tmpl -> sog_max tmpl = Some m -> 0 <= m ->
  encounter_found st = false ->
  runs_to (inner_loop t o (Some 0) s l ts fuel oi vt b c f st) w
    (fun st' w' => encounter_found st' = false /\
       outer_counter st' = outer_counter st /\ heap w' = heap w).
Proof.
  induction fuel as [|fuel IH]; intros st w Hts Hm Hm0 Hf; cbn [inner_loop].
  - apply runs_to_ret. auto.
  - rewrite Hf. cbn [negb andb].
    destruct (inner_counter st <? maximum_loops)%Z; [|apply runs_to_ret; auto].
    eapply runs_to_bind; [eapply inner_iteration_zero_sog; eauto|].
    intros st1 w1 (Hf1 & Ho1 & Hh1).
    eapply runs_to_weaken; [apply IH; [rewrite Hh1; exact Hts | exact Hm | exact Hm0 | congruence]|].
    intros st2 w2 (Hf2 & Ho2 & Hh2). repeat split; congruence.
Qed.

End ZeroSog.

Lemma outer_iteration_sample ts fuel st w :
  heap w !! ts = Some sample_template -> encounter_found st = false ->
  runs_to (@outer_iteration sample_env OVERTAKING_STAND_ON sample_own_ship (BetaFloat 0)
             (Some 0) (Some 1) sample_settings origin ts fuel st) w
    (fun st' w' => encounter_found st' = false /\
       outer_counter st' = (outer_counter st + 1)%Z /\ heap w' = heap w).
Proof.
  intros Hts Hf. unfold outer_iteration. cbv zeta.
  do 6 (eapply runs_to_eq; [reflexivity|]; cbv beta zeta).
  eapply runs_to_eq; [apply (@along_track_sample sample_env)|]; cbv beta zeta.
  eapply runs_to_eq; [apply assign_future_sample|]; cbv beta zeta.
  eapply runs_to_weaken.
  - apply (@inner_loop_zero_sog sample_env) with (tmpl := sample_template) (m := 10);
      [exact Hts | reflexivity | lra | exact Hf].
  - intros st1 w1 (Hf1 & Ho1 & Hh1). cbn in Ho1. auto.
Qed.

Lemma outer_loop_sample ts inner_fuel :
  forall fuel st w,
  heap w !! ts = Some sample_template -> encounter_found st = false ->
  runs_to (@outer_loop sample_env OVERTAKING_STAND_ON sample_own_ship (BetaFloat 0)
             (Some 0) (Some 1) sample_settings origin ts fuel inner_fuel st) w
    (fun st' w' => encounter_found st' = false /\ heap w' = heap w).
Proof.
  induction fuel as [|fuel IH]; intros st w Hts Hf; cbn [outer_loop].
  - apply runs_to_ret. auto.
  - rewrite Hf. cbn [negb andb].
    destruct (outer_counter st <? maximum_loops)%Z; [|apply runs_to_ret; auto].
    eapply runs_to_bind; [apply outer_iteration_sample; eauto|].
    intros st1 w1 (Hf1 & Ho1 & Hh1).
    eapply runs_to_weaken; [apply IH; [rewrite Hh1; exact Hts | exact Hf1]|].
    intros st2 w2 (Hf2 & Hh2). split; congruence.
Qed.

(** ** The acceptance test of [find_start_position_target_ship]

    The function tests [|convert_angle_0_to_2_pi_to_minus_pi_to_pi(|beta - desired_beta|)|]
    against [0.01]. Its value is [|wrap_pi (beta - desired_beta)|] as long as
    [|beta - desired_beta| < 3 pi]. *)






Lemma while_lt_add_ge (x lo step : R) : 0 < step -> lo <= while_lt_add x lo step.
Proof.
  intros Hs. unfold while_lt_add. destruct (Rltb x lo) eqn:E; bool_facts; [|lra].
  destruct (Rfloor_spec (- ((lo - x) / step))) as [H1 _].
  rewrite opp_IZR.
  assert (Ht : step * ((lo - x) / step) = lo - x) by (field; lra).
  assert (step * ((lo - x) / step) <= step * - IZR (Rfloor (- ((lo - x) / step)))).
  { apply Rmult_le_compat_l; lra. }
  lra.
Qed.

Lemma while_ge_sub_range (x hi step : R) :
  0 < step -> hi - step <= x -> hi - step <= while_ge_sub x hi step < hi.
Proof.
  intros Hs Hx. unfold while_ge_sub. destruct (Rleb hi x) eqn:E; bool_facts; [|lra].
  destruct (Rfloor_spec ((x - hi) / step)) as [H1 H2].
  rewrite plus_IZR.
  set (f := IZR (Rfloor ((x - hi) / step))) in *.
  assert (Ht : x = hi + step * ((x - hi) / step)) by (field; lra).
  set (t := (x - hi) / step) in *.
  assert (step * f <= step * t) by (apply Rmult_le_compat_l; lra).
  assert (step * t < step * (f + 1)) by (apply Rmult_lt_compat_l; lra).
  nra.
Qed.

Lemma relative_bearing_beta_range (own : GeoPosition) (h : R) (tgt : GeoPosition) (ht : R)
    (lat_lon0 : GeoPosition) :
  0 <= fst (calculate_relative_bearing own h tgt ht lat_lon0) < 2 * PI.
Proof.
  pose proof PI_bounds.
  unfold calculate_relative_bearing.
  destruct (llh2flat _ _ _ _ _ _) as [[n1 e1] z1].
  destruct (llh2flat _ _ _ _ _ _) as [[n2 e2] z2].
  cbv beta iota zeta. cbn [fst].
  match goal with |- context [while_lt_add ?x _ _] => set (b := x) end.
  pose proof (while_lt_add_ge b 0 (2 * PI) ltac:(lra)).
  pose proof (while_ge_sub_range (while_lt_add b 0 (2 * PI)) (2 * PI) (2 * PI) ltac:(lra) ltac:(lra)).
  lra.
Qed.


(** ** A solver input with [desired_beta] beyond [3 pi]

    Bounds on [atan] near [pi / 2], the flat coordinates of a point given
    by its north and east offsets from [origin], and an input of
    [find_start_position_target_ship]: own ship at north 0, east 41/90,
    target future position at north 100, east 62499/500 + 41/90, vector
    length 62501/500, and [own_ship_cog + desired_beta = 6 pi], with
    [own_ship_cog] halfway between the bearings of the two candidates, so
    that [desired_beta] is about [4 pi + 0.0046]. The quadratic has the
    roots [101] and [99]. *)











(** The loops of [calculate_relative_bearing] on values they move at most
    once, the bearings of the two candidates, their courses and their
    classifications. *)







Lemma round_half_even_bounds (x : R) :
  x - 1 / 2 <= IZR (round_half_even x) <= x + 1 / 2.
Proof.
  unfold round_half_even. cbv zeta. destruct (Rfloor_spec x) as [H1 H2].
  destruct (Rltb (x - IZR (Rfloor x)) (1 / 2)) eqn:E1; bool_facts; [lra|].
  destruct (Rltb (1 / 2) (x - IZR (Rfloor x))) eqn:E2; bool_facts;
    [rewrite plus_IZR; simpl; lra|].
  destruct (Z.even (Rfloor x)); [lra|rewrite plus_IZR; simpl; lra].
Qed.








(** ** Helpers for the further properties *)

(** The world after one value drawn from [random]. *)
Definition after_draw (w : World) : World :=
  mkWorld (heap w) (relative_speed_lists w) (S (rng_calls w)) (solver_calls w).

(** [random.random()] returns values in [[0, 1)]. *)
Definition random_in_unit (env : PyEnv) : Prop :=
  forall n, 0 <= @random_random env n < 1.

(** The length of a route: the sum of the leg distances
    [calculate_position_along_track_using_waypoints] computes. *)
Fixpoint route_length (prev : Waypoint) (rest : list Waypoint) : R :=
  match rest with
  | [] => 0
  | waypoint :: rest' =>
      calculate_distance (wp_position prev) (wp_position waypoint) + route_length waypoint rest'
  end.

(** [m] leaves the lists of [settings.relative_speed] as they are. *)
Definition rs_same {A} (m : M A) : Prop :=
  forall w, relative_speed_lists (snd (m w)) = relative_speed_lists w.

Lemma ssa_periodic (angle : R) (k : Z) : ssa (angle + 2 * PI * IZR k) = ssa angle.
Proof.
  pose proof PI_bounds as Hpi. unfold ssa, np_mod.
  replace ((angle + 2 * PI * IZR k + PI) / (2 * PI)) with ((angle + PI) / (2 * PI) + IZR k)
    by (field; lra).
  destruct (Rfloor_spec ((angle + PI) / (2 * PI))) as [H1 H2].
  rewrite (Rfloor_unique _ (Rfloor ((angle + PI) / (2 * PI)) + k)) by (rewrite plus_IZR; lra).
  rewrite plus_IZR. ring.
Qed.

Lemma atan_nonpos (z : R) : z <= 0 -> atan z <= 0.
Proof.
  intros Hz. destruct (Req_dec z 0) as [->|Hn]; [rewrite atan_0; lra|].
  left. rewrite <- atan_0. apply atan_increasing. lra.
Qed.

Lemma atan_pos (z : R) : 0 < z -> 0 < atan z.
Proof. intros Hz. rewrite <- atan_0. apply atan_increasing. lra. Qed.

Lemma np_arctan2_range (y x : R) : - PI < np_arctan2 y x <= PI.
Proof.
  pose proof PI_bounds as Hpi. unfold np_arctan2.
  destruct (Rltb 0 x) eqn:E1; bool_facts.
  { pose proof (atan_bound (y / x)). lra. }
  destruct (Rltb x 0) eqn:E2; bool_facts.
  - assert (Hi : / x < 0) by (apply Rinv_lt_0_compat; lra).
    pose proof (atan_bound (y / x)).
    destruct (Rleb 0 y) eqn:E3; bool_facts.
    + assert (Hq : y / x <= 0) by (unfold Rdiv; nra). pose proof (atan_nonpos _ Hq). lra.
    + assert (Hq : 0 < y / x) by (unfold Rdiv; nra). pose proof (atan_pos _ Hq). lra.
  - destruct (Rltb 0 y); [lra|]. destruct (Rltb y 0); lra.
Qed.


Lemma tan_shift_PI (u : R) : sin (u + PI) / cos (u + PI) = tan u.
Proof.
  rewrite neg_sin, neg_cos. unfold tan.
  destruct (Req_dec (cos u) 0) as [E|E].
  - rewrite E. unfold Rdiv. rewrite Ropp_0, Rinv_0. ring.
  - field. exact E.
Qed.

(** [np.arctan2] recovers the angle of a point given in polar form. *)
Lemma np_arctan2_polar (r t : R) :
  0 < r -> - PI < t <= PI -> np_arctan2 (r * sin t) (r * cos t) = t.
Proof.
  intros Hr Ht. pose proof PI_bounds as Hpi. unfold np_arctan2.
  destruct (Rlt_le_dec (- (PI / 2)) t) as [Hlo|Hlo];
  [destruct (Rlt_le_dec t (PI / 2)) as [Hhi|Hhi]|].
  - pose proof (cos_gt_0 t Hlo Hhi).
    rewrite (proj2 (Rltb_spec 0 (r * cos t))) by nra.
    replace (r * sin t / (r * cos t)) with (tan t) by (unfold tan; field; lra).
    apply atan_tan. lra.
  - destruct (Req_dec t (PI / 2)) as [->|Hne].
    + rewrite cos_PI2, sin_PI2, Rmult_0_r, Rmult_1_r. rcmp. reflexivity.
    + assert (Hc : cos t < 0) by (apply cos_lt_0; lra).
      assert (Hs : 0 <= sin t) by (apply sin_ge_0; lra).
      rcmp. rewrite (proj2 (Rltb_false 0 (r * cos t))) by nra.
      rewrite (proj2 (Rltb_spec (r * cos t) 0)) by nra.
      rewrite (proj2 (Rleb_spec 0 (r * sin t))) by nra.
      replace (r * sin t / (r * cos t)) with (sin t / cos t) by (field; lra).
      replace t with ((t - PI) + PI) at 1 2 by ring.
      rewrite tan_shift_PI, atan_tan by lra. ring.
  - destruct (Req_dec t (- (PI / 2))) as [->|Hne].
    + rewrite cos_neg, sin_neg, cos_PI2, sin_PI2, Rmult_0_r.
      rcmp. reflexivity.
    + assert (Hc : cos t < 0).
      { rewrite <- cos_neg. apply cos_lt_0; lra. }
      assert (Hs : sin t < 0) by (apply sin_lt_0_var; lra).
      rewrite (proj2 (Rltb_false 0 (r * cos t))) by nra.
      rewrite (proj2 (Rltb_spec (r * cos t) 0)) by nra.
      rewrite (proj2 (Rleb_false 0 (r * sin t))) by nra.
      replace (r * sin t / (r * cos t)) with (sin ((t + PI) + PI) / cos ((t + PI) + PI)).
      * rewrite tan_shift_PI, atan_tan by lra. ring.
      * rewrite !neg_sin, !neg_cos. field. lra.
Qed.

Lemma uniform_between (a b u : R) :
  0 <= u < 1 -> Rmin a b <= a + u * (b - a) <= Rmax a b.
Proof.
  intros Hu. unfold Rmin, Rmax.
  destruct (Rle_dec a b); split; nra.
Qed.

Lemma uniform_scaled (a b u k : R) :
  0 <= u < 1 -> a <= b -> 0 < k -> a * k <= (a + (0 + (1 - 0) * u) * (b - a)) * k <= b * k.
Proof.
  intros Hu Hab Hk. assert (a <= a + (0 + (1 - 0) * u) * (b - a) <= b) by nra.
  split; apply Rmult_le_compat_r; lra.
Qed.

Lemma div_le_bound (x d m : R) : 0 < m -> - d <= x <= d -> - (d / m) <= x / m <= d / m.
Proof.
  intros Hm Hx. pose proof (Rinv_0_lt_compat m Hm). unfold Rdiv. split; nra.
Qed.

Lemma small_ratio (x m : R) : 0 <= x <= 2 -> 1000 <= m -> 0 <= x / m < 1.
Proof.
  intros Hx Hm. assert (Hi : 0 < / m) by (apply Rinv_0_lt_compat; lra).
  assert (Hmi : / m * m = 1) by (field; lra). unfold Rdiv. split; nra.
Qed.

(** Offsets of at most 2 m from the point (0, 0) stay far from the wraps. *)
Lemma origin_scale_small (x : R) :
  0 <= x <= 2 -> 0 <= x / r_m_of 0 < 1 /\ 0 <= x / (r_n_of 0 * cos 0) < 1.
Proof.
  intros Hx. pose proof (r_m_ge 0). rewrite r_n_0, cos_0, Rmult_1_r.
  unfold a_radius in *. split; apply small_ratio; lra.
Qed.

Lemma sample_env_random_in_unit : random_in_unit sample_env.
Proof. intros n. simpl. lra. Qed.

Lemma heap_lookup_insert_same (m : gmap loc ShipStatic) (i : loc) (x : ShipStatic) :
  <[i := x]> m !! i = Some x.
Proof. simplify_map_eq. reflexivity. Qed.

Lemma route_length_nonneg (prev : Waypoint) (rest : list Waypoint) : 0 <= route_length prev rest.
Proof.
  revert prev. induction rest as [|wp rest IH]; intros prev; simpl; [lra|].
  pose proof (IH wp). unfold calculate_distance.
  destruct (llh2flat _ _ _ _ _ _) as [[a b] c]. pose proof (sqrt_pos (a ^ 2 + b ^ 2)). lra.
Qed.

Lemma along_track_loop_past_end (inital_speed vector_time : R) (rest : list Waypoint) :
  0 < inital_speed -> Forall (fun waypoint => leg waypoint = None) rest ->
  forall prev time_in_transit w,
  route_length prev rest < inital_speed * (vector_time - time_in_transit) ->
  along_track_loop prev rest inital_speed vector_time time_in_transit w = (inr None, w).
Proof.
  intros Hs Hall. induction Hall as [|wp rest Hleg Hall IH]; intros prev t w Hlen;
    [reflexivity|].
  cbn [along_track_loop route_length] in *. rewrite Hleg.
  pose proof (route_length_nonneg wp rest).
  set (d := calculate_distance (wp_position prev) (wp_position wp)) in *.
  rewrite mbind_unfold. unfold mret at 1, M_ret at 1. cbv beta iota zeta.
  rewrite (proj2 (Rltb_spec d (inital_speed * (vector_time - t)))) by lra.
  rewrite py_div_nonzero by lra. rewrite mbind_unfold. unfold mret at 1, M_ret at 1.
  cbv beta iota. apply IH.
  replace (inital_speed * (vector_time - (t + d / inital_speed)))
    with (inital_speed * (vector_time - t) - d) by (field; lra).
  lra.
Qed.

Lemma rs_same_ret {A} (x : A) : rs_same (mret x).
Proof. intros w; reflexivity. Qed.

Lemma rs_same_raise {A} (e : PyExc) : rs_same (A := A) (raise e).
Proof. intros w; reflexivity. Qed.

Lemma rs_same_bind {A B} (f : A -> M B) (m : M A) :
  rs_same m -> (forall x, rs_same (f x)) -> rs_same (mbind f m).
Proof.
  intros Hm Hf w. rewrite mbind_unfold. specialize (Hm w).
  destruct (m w) as [[e|x] w']; cbn [snd] in *; [exact Hm | rewrite Hf; exact Hm].
Qed.

Create HintDb relsame.

Ltac rsame_solve :=
  repeat match goal with
  | |- rs_same (mbind _ _) => apply rs_same_bind; [| intros ?]
  | |- rs_same (mret _) => apply rs_same_ret
  | |- rs_same (raise _) => apply rs_same_raise
  | |- rs_same ((fun _ => _) _) => cbv beta
  | |- rs_same (let _ := _ in _) => cbv zeta
  | |- rs_same (if ?b then _ else _) => destruct b
  | |- rs_same (match ?x with _ => _ end) => destruct x
  | |- rs_same _ => solve [eauto with relsame]
  end.

(** Without [assign_sog_to_target_ship], nothing writes the lists of
    [settings.relative_speed]. *)
Section RelativeSpeedKept.
Context `{PyEnv}.

Lemma rs_same_assert_some {A} (o : option A) : rs_same (assert_some o).
Proof. destruct o; intros w; reflexivity. Qed.

Lemma rs_same_list_index {A} (l : list A) (i : nat) : rs_same (list_index l i).
Proof. unfold list_index. destruct (l !! i); intros w; reflexivity. Qed.

Lemma rs_same_py_div (x y : R) : rs_same (py_div x y).
Proof. unfold py_div. destruct (Req_EM_T y 0); intros w; reflexivity. Qed.

Lemma rs_same_load (l : loc) : rs_same (load l).
Proof. intros w. unfold load. destruct (heap w !! l); reflexivity. Qed.

Lemma rs_same_store (l : loc) (s : ShipStatic) : rs_same (store l s).
Proof. intros w; reflexivity. Qed.

Lemma rs_same_alloc (s : ShipStatic) : rs_same (alloc s).
Proof. intros w; reflexivity. Qed.

Lemma rs_same_random_uniform (a b : R) : rs_same (random_uniform a b).
Proof. intros w; reflexivity. Qed.

Lemma rs_same_random_randint (a b : Z) : rs_same (random_randint a b).
Proof. intros w. unfold random_randint. destruct (b + 1 - a <=? 0)%Z; reflexivity. Qed.

Lemma rs_same_call_find_start a b c d e f g h :
  rs_same (call_find_start_position_target_ship a b c d e f g h).
Proof. intros w; reflexivity. Qed.

Hint Resolve rs_same_ret rs_same_raise rs_same_assert_some rs_same_list_index
  rs_same_py_div rs_same_load rs_same_store rs_same_alloc rs_same_random_uniform
  rs_same_random_randint rs_same_call_find_start : relsame.

Lemma rs_same_along_track_loop (rest : list Waypoint) :
  forall prev inital_speed vector_time time_in_transit,
  rs_same (along_track_loop prev rest inital_speed vector_time time_in_transit).
Proof.
  induction rest as [|wp rest IH]; intros; simpl; [apply rs_same_ret|]. rsame_solve.
Qed.
Hint Resolve rs_same_along_track_loop : relsame.

Lemma rs_same_calculate_position_along_track_using_waypoints (waypoints : list Waypoint)
    (inital_speed vector_time : R) :
  rs_same (calculate_position_along_track_using_waypoints waypoints inital_speed vector_time).
Proof. unfold calculate_position_along_track_using_waypoints. rsame_solve. Qed.
Hint Resolve rs_same_calculate_position_along_track_using_waypoints : relsame.

Lemma rs_same_assign_future_position_to_target_ship (p q : GeoPosition) (d : R) :
  rs_same (assign_future_position_to_target_ship p q d).
Proof. unfold assign_future_position_to_target_ship. rsame_solve. Qed.
Hint Resolve rs_same_assign_future_position_to_target_ship : relsame.

Lemma rs_same_assign_beta (t : EncounterType) (s : EncounterSettings) :
  rs_same (assign_beta t s).
Proof. unfold assign_beta. rsame_solve. Qed.
Hint Resolve rs_same_assign_beta : relsame.

Lemma rs_same_assign_beta_from_list (l : list R) : rs_same (assign_beta_from_list l).
Proof. unfold assign_beta_from_list. rsame_solve. Qed.
Hint Resolve rs_same_assign_beta_from_list : relsame.

Lemma rs_same_decide_target_ship (l : list loc) : rs_same (decide_target_ship l).
Proof. unfold decide_target_ship. rsame_solve. Qed.
Hint Resolve rs_same_decide_target_ship : relsame.

Lemma rs_same_mk_Initial p a b h n : rs_same (mk_Initial p a b h n).
Proof. unfold mk_Initial. rsame_solve. Qed.
Hint Resolve rs_same_mk_Initial : relsame.

Lemma rs_same_new_TargetShip l i wps : rs_same (new_TargetShip l i wps).
Proof. unfold new_TargetShip. rsame_solve. Qed.
Hint Resolve rs_same_new_TargetShip : relsame.

Lemma rs_same_check_encounter_evolvement o c p q a b r t s :
  rs_same (check_encounter_evolvement o c p q a b r t s).
Proof. unfold check_encounter_evolvement. rsame_solve. Qed.
Hint Resolve rs_same_check_encounter_evolvement : relsame.

Lemma rs_same_path_crosses_land p a b l t : rs_same (path_crosses_land p a b l t).
Proof.
  unfold path_crosses_land, path_crosses_land_loop, get_north, get_east, lat_lon0_index,
    Position_north_east.
  rsame_solve.
Qed.
Hint Resolve rs_same_path_crosses_land : relsame.

(** With [relative_sog_default] given, the inner loop does not call
    [assign_sog_to_target_ship]. *)
Lemma rs_same_inner_iteration t o rr s l ts oi vt b c f st :
  rs_same (inner_iteration t o (Some rr) s l ts oi vt b c f st).
Proof. unfold inner_iteration. cbv iota. rsame_solve. Qed.
Hint Resolve rs_same_inner_iteration : relsame.

Lemma rs_same_inner_loop t o rr s l ts fuel oi vt b c f :
  forall st, rs_same (inner_loop t o (Some rr) s l ts fuel oi vt b c f st).
Proof. induction fuel as [|fuel IH]; intros st; simpl; rsame_solve. Qed.
Hint Resolve rs_same_inner_loop : relsame.

Lemma rs_same_outer_iteration t o bd rr vd s l ts fuel st :
  rs_same (outer_iteration t o bd (Some rr) vd s l ts fuel st).
Proof. unfold outer_iteration. rsame_solve. Qed.
Hint Resolve rs_same_outer_iteration : relsame.

Lemma rs_same_outer_loop t o bd rr vd s l ts fuel inner_fuel :
  forall st, rs_same (outer_loop t o bd (Some rr) vd s l ts fuel inner_fuel st).
Proof. induction fuel as [|fuel IH]; intros st; simpl; rsame_solve. Qed.
Hint Resolve rs_same_outer_loop : relsame.

Lemma rs_same_generate_encounter t o ships n bd rr vd s :
  rs_same (generate_encounter t o ships n bd (Some rr) vd s).
Proof. unfold generate_encounter, generate_encounter_fuel. rsame_solve. Qed.

Lemma rs_mono_generate_encounter t o ships n bd r vd s :
  rs_mono (generate_encounter t o ships n bd r vd s).
Proof.
  unfold generate_encounter, generate_encounter_fuel.
  repeat match goal with
  | |- rs_mono (mbind _ _) => apply rs_mono_bind; [| intros ?]
  | |- rs_mono (mret _) => apply rs_mono_ret
  | |- rs_mono ((fun _ => _) _) => cbv beta
  | |- rs_mono (let _ := _ in _) => cbv zeta
  | |- rs_mono (if ?b then _ else _) => destruct b
  | |- rs_mono _ => solve [eauto with relspeed]
  end.
Qed.

End RelativeSpeedKept.

(** * Claims *)

(** ** C1: the root accepted by [find_start_position_target_ship] *)



(** ** C8: the range of [ssa] *)

(** C8 (counterexample): [ssa PI] is [-PI], outside the interval (-pi, pi]
    that the claim states. *)
Lemma ssa_PI_outside_left_open : ssa PI = - PI /\ ~ (- PI < ssa PI <= PI).
Proof. rewrite ssa_PI. split; [reflexivity|lra]. Qed.

(** C8 (amended): [ssa angle] is computed as [mod(angle + pi, 2 pi) - pi], lies
    in the half-open interval [-pi, pi) and differs from [angle] by a whole
    number of turns. *)
Lemma ssa_half_open_congruent (angle : R) :
  ssa angle = np_mod (angle + PI) (2 * PI) - PI /\
  - PI <= ssa angle < PI /\
  exists k : Z, ssa angle = angle + 2 * PI * IZR k.
Proof.
  split; [reflexivity|]. split; [apply ssa_range | apply ssa_congr].
Qed.

(** ** C7: round trip through [flat2llh] and [llh2flat] *)

(** C7 (counterexample): from the reference point [(0, pi - 0.001)] an offset
    of about 12.8 km east crosses the antimeridian; [flat2llh] wraps the
    longitude with [ssa] and [llh2flat] does not unwrap it, so the east
    offset comes back shifted by a full turn of the parallel, far outside a
    1e-6 relative tolerance. *)
Lemma flat_roundtrip_antimeridian :
  - PI / 2 < 0 < PI / 2 /\
  Rabs (2 / 1000 * a_radius) <= 300000 /\
  flat_roundtrip 0 (2 / 1000 * a_radius) 0 (PI - 1 / 1000) =
    (0, (2 / 1000 - 2 * PI) * a_radius) /\
  ~ (Rabs (snd (flat_roundtrip 0 (2 / 1000 * a_radius) 0 (PI - 1 / 1000))
           - 2 / 1000 * a_radius)
     <= 1 / 1000000 * Rabs (2 / 1000 * a_radius)).
Proof.
  pose proof PI_bounds. rewrite flat_roundtrip_antimeridian_value. unfold a_radius.
  repeat split; try lra.
  - rewrite Rabs_pos_eq; lra.
  - cbn [snd]. rewrite Rabs_left by lra. rewrite (Rabs_pos_eq (2 / 1000 * 6378137)) by lra.
    lra.
Qed.

(** C7 (amended): for [|lat_0| < pi/2] the round trip returns the offsets
    shifted by whole turns of the two [ssa] wraps, and returns them exactly
    (in real arithmetic) when neither [lat_0 + north / r_m] nor
    [lon_0 + east / (r_n cos lat_0)] leaves [[-pi, pi)]. *)
Lemma flat_roundtrip_inverse_without_wrap (north east lat_0 lon_0 : R) :
  - PI / 2 < lat_0 < PI / 2 ->
  (exists k1 k2 : Z,
    flat_roundtrip north east lat_0 lon_0 =
    (north + 2 * PI * IZR k1 * r_m_of lat_0,
     east + 2 * PI * IZR k2 * (r_n_of lat_0 * cos lat_0))) /\
  (- PI <= lat_0 + north / r_m_of lat_0 < PI ->
   - PI <= lon_0 + east / (r_n_of lat_0 * cos lat_0) < PI ->
   flat_roundtrip north east lat_0 lon_0 = (north, east)).
Proof.
  intros Hl. split.
  - apply flat_roundtrip_turns. assert (0 < cos lat_0) by (apply cos_gt_0; lra). lra.
  - apply flat_roundtrip_exact_aux; exact Hl.
Qed.

Lemma flat_roundtrip_inverse_without_wrap_witness :
  (- PI / 2 < 0 < PI / 2) /\
  flat_roundtrip 1000 1000 0 1 = (1000, 1000).
Proof.
  pose proof PI_bounds. pose proof (r_m_ge 0). split; [lra|].
  apply (flat_roundtrip_inverse_without_wrap 1000 1000 0 1); [lra| |].
  - rewrite Rplus_0_l. split.
    + apply Rle_trans with 0; [lra|]. unfold Rdiv. apply Rmult_le_pos; [lra|].
      left. apply Rinv_0_lt_compat. unfold a_radius in *. lra.
    + apply Rle_lt_trans with 1; [|lra].
      apply Rmult_le_reg_r with (r_m_of 0); [unfold a_radius in *; lra|].
      unfold Rdiv. rewrite Rmult_assoc, Rinv_l by (unfold a_radius in *; lra).
      unfold a_radius in *. lra.
  - rewrite r_n_0, cos_0, Rmult_1_r. unfold a_radius. split; lra.
Defined.

(** ** C3: overlap of the classification rules *)

(** C3 (counterexample): with the default thresholds the pair
    [(alpha, beta) = (0, 0.05)] meets the conditions of both rule 3
    (head-on) and rule 4 (crossing, give way); [determine_colreg] returns the
    first, [HEAD_ON]. *)
Lemma colreg_rules_3_4_both_hold :
  colreg_domain 0 0.05 /\
  default_rule 3 0 0.05 = true /\ default_rule 4 0 0.05 = true /\
  determine_colreg 0 0.05 (theta13_criteria default_classification)
    (theta14_criteria default_classification) (theta15_criteria default_classification)
    (theta15 default_classification) = HEAD_ON.
Proof.
  pose proof PI_bounds. split; [unfold colreg_domain; lra|].
  unfold default_rule, determine_colreg, colreg_rule, default_classification;
  cbn [fst snd theta13_criteria theta14_criteria theta15_criteria theta15].
  rcmp. repeat split; reflexivity.
Qed.

(** C3 (amended): with the default thresholds, over [alpha] in [[-pi, pi)]
    and [beta] in [[0, 2 pi)], the rule pairs (1,2), (1,3), (1,4), (2,3) and
    (2,5) never hold together, while each of the pairs (1,5), (2,4), (3,4),
    (3,5) and (4,5) holds together at the listed angles; [determine_colreg]
    takes the first rule that holds, so its order decides these cases. *)
Lemma colreg_rules_overlap_pattern :
  (forall (i j : nat) (alpha beta : R),
     In (i, j) [(1, 2); (1, 3); (1, 4); (2, 3); (2, 5)]%nat ->
     colreg_domain alpha beta ->
     default_rule i alpha beta && default_rule j alpha beta = false) /\
  (forall (i j : nat) (alpha beta : R),
     In (i, j, alpha, beta)
       [(1%nat, 5%nat, 0.05, 3.35); (2%nat, 4%nat, -2.93, 0.05); (3%nat, 4%nat, 0, 0.05);
        (3%nat, 5%nat, 0.05, 0); (4%nat, 5%nat, 0.5, 0.5)] ->
     colreg_domain alpha beta /\
     default_rule i alpha beta = true /\ default_rule j alpha beta = true).
Proof.
  split; [exact default_rules_disjoint | exact default_rules_overlap_at].
Qed.

(** ** C2: the fallback of [find_start_position_target_ship] *)

(** C2: when the discriminant [b^2 - 4ac] of the quadratic is at most 0,
    [find_start_position_target_ship] returns the target ship's future
    position unchanged together with [found = false]. *)
Lemma find_start_fallback_on_nonpositive_discriminant
    (own_ship_position lat_lon0 : GeoPosition) (own_ship_cog : R)
    (target_ship_position_future : GeoPosition)
    (target_ship_vector_length desired_beta : R)
    (desired_encounter_type : EncounterType) (encounter_settings : EncounterSettings) :
  discriminant own_ship_position lat_lon0 own_ship_cog target_ship_position_future
    target_ship_vector_length desired_beta <= 0 ->
  find_start_position_target_ship own_ship_position lat_lon0 own_ship_cog
    target_ship_position_future target_ship_vector_length desired_beta
    desired_encounter_type encounter_settings = (target_ship_position_future, false).
Proof.
  intros Hd. unfold find_start_position_target_ship.
  rewrite (proj2 (Rleb_spec _ _) Hd). reflexivity.
Qed.

Lemma find_start_fallback_on_nonpositive_discriminant_witness :
  discriminant origin origin 0 origin 0 0 <= 0 /\
  find_start_position_target_ship origin origin 0 origin 0 0 HEAD_ON zero_settings =
    (origin, false).
Proof.
  assert (Hd : discriminant origin origin 0 origin 0 0 <= 0).
  { unfold discriminant, start_position_coefficients, llh2flat, origin; cbn [lat lon].
    rewrite !Rplus_0_r, !Rminus_diag, !Rmult_0_l, !Rplus_0_l, cos_0, sin_0. right. ring. }
  split; [exact Hd|].
  apply (find_start_fallback_on_nonpositive_discriminant origin origin 0 origin 0 0
           HEAD_ON zero_settings Hd).
Defined.

(** ** C4: at most 25 calls of the solver *)

(** C4. Whatever the inputs, the random draws and the library results, a
    call of [generate_encounter] calls [find_start_position_target_ship] at
    most 25 times. Stated for every fuel bound of the two loops, so the
    bound comes from the loop guards ([generate_encounter] is the case
    [fuel = 5]). *)
Theorem generate_encounter_at_most_25_solver_calls `{PyEnv} (fuel : nat)
    (desired_encounter_type : EncounterType) (own_ship : OwnShip)
    (target_ships_static : list loc) (encounter_number : Z) (beta_default : BetaDefault)
    (relative_sog_default vector_time_default : option R) (settings : EncounterSettings)
    (w : World) :
  (solver_calls (snd (generate_encounter_fuel fuel desired_encounter_type own_ship
     target_ships_static encounter_number beta_default relative_sog_default
     vector_time_default settings w)) <= solver_calls w + 25)%nat.
Proof.
  revert w.
  enough (Hc : calls_le 25 (generate_encounter_fuel fuel desired_encounter_type own_ship
     target_ships_static encounter_number beta_default relative_sog_default
     vector_time_default settings)) by exact Hc.
  unfold generate_encounter_fuel. cl_pure_prefix.
  apply calls_le_bind_pure; [|intros ?; pc_solve].
  exact (outer_loop_calls _ _ _ _ _ _ _ _ fuel fuel _).
Qed.

(** ** C9: [path_crosses_land] *)

(** C9. [path_crosses_land] does not sample 10 points of the track:
    - the loop runs [int(time_interval / 10)] times, not 10;
    - with [time_interval = 5] it returns [False] without looking at any
      point, so even when every point is land;
    - with [time_interval = 50] (the default) its first iteration raises;
    - given a [GeoPosition], as [generate_encounter] passes it, reading
      [position_1.north] raises [AttributeError]. *)
Theorem path_crosses_land_samples_no_point :
  (forall north east speed course lat_0 lon_0 w,
     path_crosses_land (PositionNorthEast north east) speed course
       (LatLon0List [lat_0; lon_0]) 5 w = (inr false, w)) /\
  (forall north east speed course lat_0 lon_0 w,
     path_crosses_land (PositionNorthEast north east) speed course
       (LatLon0List [lat_0; lon_0]) 50 w = (inl ValidationError, w)) /\
  (forall g speed course lat_lon0 time_interval w,
     path_crosses_land (PositionGeo g) speed course lat_lon0 time_interval w
     = (inl AttributeError, w)).
Proof.
  assert (Hint : forall x : R, 0 <= x < 1 -> py_int x = 0%Z).
  { intros x Hx. unfold py_int. destruct (Rle_dec 0 x); [|lra].
    apply Rfloor_unique; simpl; lra. }
  assert (Hint5 : forall x : R, 5 <= x < 6 -> py_int x = 5%Z).
  { intros x Hx. unfold py_int. destruct (Rle_dec 0 x); [|lra].
    apply Rfloor_unique; simpl; lra. }
  split; [|split].
  - intros. unfold path_crosses_land. cbn -[py_int Rdiv].
    rewrite (Hint (5 / 10)) by lra. reflexivity.
  - intros. unfold path_crosses_land. cbn -[py_int Rdiv].
    rewrite (Hint5 (50 / 10)) by lra. reflexivity.
  - intros. reflexivity.
Qed.

(** ** C10: the templates are not modified *)

(** C10. [generate_encounter] leaves every [ShipStatic] object that exists
    before the call as it was, the templates of [target_ships_static]
    included, whatever the call returns or raises; and the [static] of the
    returned target ship is an object created during the call (the deep
    copy made by [decide_target_ship]), not one of them. *)
Theorem generate_encounter_keeps_templates `{PyEnv} (fuel : nat)
    (desired_encounter_type : EncounterType) (own_ship : OwnShip)
    (target_ships_static : list loc) (encounter_number : Z) (beta_default : BetaDefault)
    (relative_sog_default vector_time_default : option R) (settings : EncounterSettings)
    (w : World) :
  (forall l s, heap w !! l = Some s ->
     heap (snd (generate_encounter_fuel fuel desired_encounter_type own_ship
       target_ships_static encounter_number beta_default relative_sog_default
       vector_time_default settings w)) !! l = Some s) /\
  (forall target_ship found w',
     generate_encounter_fuel fuel desired_encounter_type own_ship target_ships_static
       encounter_number beta_default relative_sog_default vector_time_default settings w
     = (inr (target_ship, found), w') ->
     static target_ship ∉ dom (heap w)).
Proof.
  unfold generate_encounter_fuel.
  destruct (decide_target_ship_fresh target_ships_static w) as [Hd Hx].
  split.
  - intros l s Hl.
    assert (Hne : l <> fresh (dom (heap w))).
    { intros ->. apply (is_fresh (dom (heap w))). apply elem_of_dom. eauto. }
    specialize (Hd l Hne). rewrite Hl in Hd.
    rewrite mbind_unfold. destruct (own_initial own_ship) as [oi|]; [|exact Hl].
    cbn [assert_some mret M_ret]. cbv beta.
    rewrite mbind_unfold.
    destruct (decide_target_ship target_ships_static w) as [[e|ts] w1] eqn:E;
      [exact Hd|]. cbn [snd] in Hd. cbv beta.
    rewrite (Hx ts w1 eq_refl) in *.
    rewrite mbind_unfold.
    pose proof (heap_same_outer_loop desired_encounter_type own_ship beta_default
      relative_sog_default vector_time_default settings
      (mkGeoPosition (lat (position oi)) (lon (position oi))) (fresh (dom (heap w)))
      fuel fuel (mkSearchState false 0 0 (position oi) 0 0) w1) as Ho.
    destruct (outer_loop _ _ _ _ _ _ _ _ fuel fuel _ w1) as [[e|st] w2];
      cbn [snd] in Ho |- *; [congruence|]. cbv beta.
    match goal with
    | |- heap (snd (?X w2)) !! l = _ =>
        assert (Hf : heap_frame (fresh (dom (heap w))) X) by hf_solve
    end.
    rewrite (Hf l Hne w2), Ho. exact Hd.
  - intros target_ship found w' E.
    rewrite mbind_unfold in E. destruct (own_initial own_ship) as [oi|]; [|discriminate E].
    cbn [assert_some mret M_ret] in E. cbv beta in E.
    rewrite mbind_unfold in E.
    destruct (decide_target_ship target_ships_static w) as [[e|ts] w1] eqn:Ed;
      [discriminate E|]. cbv beta in E.
    rewrite (Hx ts w1 eq_refl) in *.
    rewrite mbind_unfold in E.
    destruct (outer_loop _ _ _ _ _ _ _ _ fuel fuel _ w1) as [[e|st] w2]; [discriminate E|].
    cbv beta in E.
    match type of E with
    | ?X w2 = _ =>
        assert (Hs : post X (fun r : TargetShip * bool =>
                               static (fst r) = fresh (dom (heap w))))
    end.
    { repeat match goal with
        | |- post (mbind _ (new_TargetShip _ _ _)) _ =>
            eapply post_bind; [apply new_TargetShip_post | intros ? ?]
        | |- post (mbind _ _) _ => apply post_bind_any; intros ?
        | |- post (mret _) _ => apply post_ret
        | |- post ((fun _ => _) _) _ => cbv beta
        | |- post (let _ := _ in _) _ => cbv zeta
        | |- post (if ?b then _ else _) _ => destruct b
        end; simpl; assumption. }
    pose proof (Hs w2 _ w' E) as Hst. cbn [fst] in Hst. rewrite Hst. apply is_fresh.
Qed.

(** C6 (code_bug): [assign_sog_to_target_ship] writes [relative_sog[0]]
    into the list held by [settings.relative_speed], so a call of
    [generate_encounter] can leave the settings' relative-speed ranges
    different from the ones it was given. *)
Lemma generate_encounter_writes_settings_relative_speed :
  relative_speed_lists (snd (@generate_encounter sample_env OVERTAKING_STAND_ON sample_own_ship
    [1%positive] 1 (BetaFloat 0) None (Some 1) sample_settings sample_world))
  <> relative_speed sample_settings.
Proof.
  assert (exists w1, (exists a, overtaking_stand_on (relative_speed_lists w1) = [a; 8 / 10] /\ 2 / 10 < a) /\
            rs_reaches (@generate_encounter sample_env OVERTAKING_STAND_ON sample_own_ship
    [1%positive] 1 (BetaFloat 0) None (Some 1) sample_settings) sample_world w1) as (w1 & E1 & Hr).
  { eexists. split; cycle 1.
    - unfold generate_encounter, generate_encounter_fuel.
      eapply rs_reaches_bind_r; [reflexivity|]. cbv beta zeta.
      eapply rs_reaches_bind_r; [reflexivity|]. cbv beta zeta.
      apply rs_reaches_bind_l; [| intros; rm_solve].
      change (Z.to_nat maximum_loops) with 5%nat.
      match goal with |- rs_reaches (@outer_loop ?env ?a ?b ?c ?d ?e ?f ?g ?h (S ?n) ?i ?st) _ _ =>
        change (@outer_loop env a b c d e f g h (S n) i st) with
          (st' ← @outer_iteration env a b c d e f g h i st; @outer_loop env a b c d e f g h n i st') end.
      apply rs_reaches_bind_l; [| intros; apply (@rs_mono_outer_loop sample_env)].
      unfold outer_iteration. cbv zeta.
      do 6 (eapply rs_reaches_bind_r; [reflexivity|]; cbv beta zeta).
      eapply rs_reaches_bind_r; [apply (@along_track_sample sample_env)|]; cbv beta zeta.
      eapply rs_reaches_bind_r; [apply assign_future_sample|]; cbv beta zeta.
      match goal with |- rs_reaches (@inner_loop ?env ?a ?b ?c ?d ?e ?f (S ?n) ?g ?h ?i ?j ?k ?st) _ _ =>
        change (@inner_loop env a b c d e f (S n) g h i j k st) with
          (st' ← @inner_iteration env a b c d e f g h i j k st; @inner_loop env a b c d e f n g h i j k st') end.
      apply rs_reaches_bind_l; [| intros; apply (@rs_mono_inner_loop sample_env)].
      unfold inner_iteration. cbv beta zeta iota.
      apply rs_reaches_bind_l; [| intros; rm_solve].
      eapply rs_reaches_bind_r; [rewrite py_div_nonzero by lra; reflexivity|]; cbv beta.
      apply rs_reaches_self.
    - erewrite assign_sog_writes; [| reflexivity | cbn; lra |].
      + eexists; split; [reflexivity|].
        replace (calculate_min_vector_length_target_ship _ _ _ _ _) with (1 / 2)
          by (symmetry; apply min_vector_length_sample).
        cbn. lra.
      + replace (calculate_min_vector_length_target_ship _ _ _ _ _) with (1 / 2)
          by (symmetry; apply min_vector_length_sample).
        cbn. lra. }
  intros Heq. destruct E1 as (a & Ea & Ha). destruct Hr as [Hot _].
  rewrite Ea, Heq in Hot. cbn in Hot.
  destruct Hot as [E | (a' & b & t & E2 & E3 & Hlt)].
  - injection E as E. lra.
  - injection E2 as <- <-. injection E3; intros; lra.
Qed.

(** C5 (counterexample): the sample own ship with [relative_sog_default = 0]
    exhausts the 25 attempts. The returned target ship has the own ship's
    [initial], generated waypoints, and its copy of the template has been
    given the name ["TGT 2"]. *)
Lemma generate_encounter_exhausted_sample :
  exists ts w',
    @generate_encounter sample_env OVERTAKING_STAND_ON sample_own_ship [1%positive] 1
      (BetaFloat 0) (Some 0) (Some 1) sample_settings sample_world = (inr (ts, false), w') /\
    initial ts = own_initial sample_own_ship /\ initial ts <> None /\ waypoints ts <> None /\
    heap w' !! static ts <> Some sample_template.
Proof.
  assert (Hr : runs_to (@generate_encounter sample_env OVERTAKING_STAND_ON sample_own_ship
      [1%positive] 1 (BetaFloat 0) (Some 0) (Some 1) sample_settings) sample_world
      (fun r w' => snd r = false /\ initial (fst r) = own_initial sample_own_ship /\
         waypoints (fst r) <> None /\ heap w' !! static (fst r) <> Some sample_template)).
  { unfold generate_encounter, generate_encounter_fuel.
    eapply runs_to_eq; [reflexivity|]. cbv beta zeta.
    eapply runs_to_eq; [reflexivity|]. cbv beta zeta.
    eapply runs_to_bind; [apply outer_loop_sample; [cbn; simplify_map_eq; reflexivity | reflexivity]|].
    intros st w2 (Hf & Hh). rewrite Hf.
    set (l0 := fresh _) in *. cbn [heap] in Hh.
    assert (Hs : heap w2 !! l0 = Some sample_template) by (rewrite Hh; simplify_map_eq; reflexivity).
    unfold new_TargetShip. cbv zeta.
    eapply runs_to_eq; [rewrite mbind_unfold; unfold load at 1; rewrite Hs; reflexivity|].
    cbv beta.
    apply runs_to_ret. cbn [fst snd initial waypoints static heap].
    split; [reflexivity|]. split; [reflexivity|]. split; [discriminate|].
    simplify_map_eq. intros E. injection E as E. discriminate E. }
  destruct Hr as ([ts found] & w' & E & Hfound & Hi & Hw & Hs). cbn in Hfound, Hi, Hw, Hs.
  subst found. exists ts, w'. repeat split; auto. rewrite Hi. discriminate.
Qed.

(** C5 (amended): when [generate_encounter] returns [found = false], the
    target ship carries the own ship's [initial] and the waypoints generated
    from it, and its [static] is a copy of one of the listed templates,
    named ["TGT <id>"] when the template had no name. *)
Theorem generate_encounter_failure_result `{PyEnv} (t : EncounterType) (own_ship : OwnShip)
    (ships : list loc) (n : Z) (bd : BetaDefault) (r vd : option R)
    (settings : EncounterSettings) (w : World) :
  match generate_encounter t own_ship ships n bd r vd settings w with
  | (inr (ts, false), w') =>
      initial ts = own_initial own_ship /\
      waypoints ts = generate_waypoints (own_initial own_ship) /\
      exists l s, l ∈ ships /\ heap w !! l = Some s /\
        heap w' !! static ts =
          Some (if str_truthy (name s) then s else with_name s ("TGT " +:+ pretty (id s)))
  | _ => True
  end.
Proof.
  unfold generate_encounter, generate_encounter_fuel.
  rewrite mbind_unfold.
  destruct (own_initial own_ship) as [oi|] eqn:Hoi; [|exact I].
  cbn [assert_some mret M_ret]. cbv beta zeta.
  rewrite mbind_unfold.
  destruct (decide_target_ship ships w) as [[e|ts0] w1] eqn:Ed; [exact I|].
  apply decide_target_ship_spec in Ed as (l & s & Hin & Hl & Hh1).
  rewrite mbind_unfold.
  match goal with |- context [outer_loop ?a1 ?a2 ?a3 ?a4 ?a5 ?a6 ?a7 ?a8 ?a9 ?a10 ?a11 w1] =>
    pose proof (heap_same_outer_loop a1 a2 a3 a4 a5 a6 a7 a8 a9 a10 a11 w1) as Hh2;
    destruct (outer_loop a1 a2 a3 a4 a5 a6 a7 a8 a9 a10 a11 w1) as [[exn|st] w2] eqn:Eo end; [exact I|].
  cbn [snd] in Hh2.
  destruct (encounter_found st).
  - match goal with |- match ?X w2 with _ => _ end =>
      assert (Hp : post X (fun r => snd r = true)) by (post_solve; reflexivity);
      destruct (X w2) as [[e|[ts b]] w'] eqn:Ex; [exact I|] end.
    pose proof (Hp w2 _ w' Ex) as Hb. cbn in Hb. subst b. exact I.
  - assert (Hs : heap w2 !! ts0 = Some s) by (rewrite Hh2, Hh1; simplify_map_eq; reflexivity).
    unfold new_TargetShip. rewrite !mbind_unfold. unfold load at 1. rewrite Hs.
    cbn [list_truthy]. rewrite !mbind_unfold.
    destruct (str_truthy (name s)) eqn:En; cbn.
    + split; [reflexivity|]. split; [reflexivity|]. exists l, s. rewrite En. auto.
    + split; [reflexivity|]. split; [reflexivity|]. exists l, s. rewrite En.
      repeat split; auto. simplify_map_eq. reflexivity.
Qed.


(** * Further properties of the code *)

(** ** [trafficgen.utils] *)

(** X1: the unit conversions invert each other: knots and metres per
    second, metres and nautical miles, degrees and radians. *)
Theorem unit_conversions_round_trip (x : R) :
  m_pr_s_2_knot (knot_2_m_pr_s x) = x /\ knot_2_m_pr_s (m_pr_s_2_knot x) = x /\
  m_2_nm (nm_2_m x) = x /\ nm_2_m (m_2_nm x) = x /\
  rad_2_deg (deg_2_rad x) = x /\ deg_2_rad (rad_2_deg x) = x.
Proof.
  pose proof PI_bounds.
  unfold m_pr_s_2_knot, knot_2_m_pr_s, m_2_nm, nm_2_m, rad_2_deg, deg_2_rad.
  repeat split; field; lra.
Qed.

(** X2: [convert_angle_minus_pi_to_pi_to_0_to_2_pi] maps [(-pi, pi]] into
    [[0, 2 pi)] and [convert_angle_0_to_2_pi_to_minus_pi_to_pi] maps
    [[0, 2 pi)] into [(-pi, pi]]; each undoes the other there. The angle
    [-pi] comes back as [pi]. *)
Theorem convert_angle_round_trips :
  (forall x, - PI < x <= PI ->
     0 <= convert_angle_minus_pi_to_pi_to_0_to_2_pi x < 2 * PI /\
     convert_angle_0_to_2_pi_to_minus_pi_to_pi (convert_angle_minus_pi_to_pi_to_0_to_2_pi x) = x) /\
  (forall x, 0 <= x < 2 * PI ->
     - PI < convert_angle_0_to_2_pi_to_minus_pi_to_pi x <= PI /\
     convert_angle_minus_pi_to_pi_to_0_to_2_pi (convert_angle_0_to_2_pi_to_minus_pi_to_pi x) = x) /\
  convert_angle_0_to_2_pi_to_minus_pi_to_pi (convert_angle_minus_pi_to_pi_to_0_to_2_pi (- PI)) = PI.
Proof.
  pose proof PI_bounds as Hpi.
  unfold convert_angle_minus_pi_to_pi_to_0_to_2_pi, convert_angle_0_to_2_pi_to_minus_pi_to_pi.
  split; [|split].
  - intros x Hx. destruct (Rle_lt_dec 0 x).
    + rcmp. lra.
    + rcmp. split; [lra|ring].
  - intros x Hx. destruct (Rle_lt_dec x PI).
    + rcmp. rcmp. lra.
    + rcmp. rcmp. split; [lra|ring].
  - rcmp. ring.
Qed.

(** X3: moving a position for time 0 returns it unchanged, when its latitude
    and longitude lie in [[-pi, pi)] and the reference latitude is strictly
    between the poles. *)
Theorem calculate_position_at_certain_time_zero (position lat_lon0 : GeoPosition)
    (sog cog : R) :
  - PI / 2 < lat lat_lon0 < PI / 2 ->
  - PI <= lat position < PI -> - PI <= lon position < PI ->
  calculate_position_at_certain_time position lat_lon0 sog cog 0 = position.
Proof.
  intros Hl Hn He. pose proof PI_bounds as Hpi.
  pose proof (r_n_pos (lat lat_lon0)). pose proof (r_m_pos (lat lat_lon0)).
  assert (Hc : 0 < cos (lat lat_lon0)) by (apply cos_gt_0; lra).
  destruct position as [la lo]. destruct lat_lon0 as [la0 lo0]. cbn [lat lon] in *.
  unfold calculate_position_at_certain_time, llh2flat, flat2llh. cbv zeta. cbn [lat lon].
  rewrite !Rplus_0_r.
  replace (la0 + ((la - la0) * r_m_of la0 + sog * 0 * cos cog) / r_m_of la0) with la
    by (field; lra).
  replace (lo0 + ((lo - lo0) * (r_n_of la0 * cos la0) + sog * 0 * sin cog)
                   / (r_n_of la0 * cos la0)) with lo by (field; lra).
  rewrite (ssa_id _ Hn), (ssa_id _ He). reflexivity.
Qed.

Lemma calculate_position_at_certain_time_zero_witness :
  (- PI / 2 < lat origin < PI / 2 /\ - PI <= lat origin < PI /\ - PI <= lon origin < PI) /\
  calculate_position_at_certain_time origin origin 1 0 0 = origin.
Proof.
  pose proof PI_bounds as Hpi.
  assert (H1 : - PI / 2 < lat origin < PI / 2) by (simpl; lra).
  assert (H2 : - PI <= lat origin < PI) by (simpl; lra).
  assert (H3 : - PI <= lon origin < PI) by (simpl; lra).
  split; [split; [exact H1 | split; [exact H2 | exact H3]]|].
  exact (calculate_position_at_certain_time_zero origin origin 1 0 H1 H2 H3).
Defined.

(** X4: moving a position for [t_1] and then for [t_2] at the same speed and
    course gives the position reached in [t_1 + t_2], when the first move does
    not wrap the latitude or the longitude. *)
Theorem calculate_position_at_certain_time_compose (position lat_lon0 : GeoPosition)
    (sog cog t_1 t_2 : R) :
  - PI / 2 < lat lat_lon0 < PI / 2 ->
  - PI <= lat position + sog * t_1 * cos cog / r_m_of (lat lat_lon0) < PI ->
  - PI <= lon position + sog * t_1 * sin cog / (r_n_of (lat lat_lon0) * cos (lat lat_lon0)) < PI ->
  calculate_position_at_certain_time
    (calculate_position_at_certain_time position lat_lon0 sog cog t_1) lat_lon0 sog cog t_2 =
  calculate_position_at_certain_time position lat_lon0 sog cog (t_1 + t_2).
Proof.
  intros Hl Hn He. pose proof PI_bounds as Hpi.
  pose proof (r_n_pos (lat lat_lon0)). pose proof (r_m_pos (lat lat_lon0)).
  assert (Hc : 0 < cos (lat lat_lon0)) by (apply cos_gt_0; lra).
  destruct position as [la lo]. destruct lat_lon0 as [la0 lo0]. cbn [lat lon] in *.
  unfold calculate_position_at_certain_time, llh2flat, flat2llh. cbv zeta. cbn [lat lon].
  rewrite !Rplus_0_r.
  replace (la0 + ((la - la0) * r_m_of la0 + sog * t_1 * cos cog) / r_m_of la0)
    with (la + sog * t_1 * cos cog / r_m_of la0) by (field; lra).
  replace (lo0 + ((lo - lo0) * (r_n_of la0 * cos la0) + sog * t_1 * sin cog)
                   / (r_n_of la0 * cos la0))
    with (lo + sog * t_1 * sin cog / (r_n_of la0 * cos la0)) by (field; lra).
  rewrite (ssa_id _ Hn), (ssa_id _ He). f_equal; f_equal; field; lra.
Qed.

Lemma calculate_position_at_certain_time_compose_witness :
  (- PI / 2 < lat origin < PI / 2 /\
   - PI <= lat origin + 1 * 1 * cos 0 / r_m_of (lat origin) < PI /\
   - PI <= lon origin + 1 * 1 * sin 0 / (r_n_of (lat origin) * cos (lat origin)) < PI) /\
  calculate_position_at_certain_time
    (calculate_position_at_certain_time origin origin 1 0 1) origin 1 0 1 =
  calculate_position_at_certain_time origin origin 1 0 (1 + 1).
Proof.
  pose proof PI_bounds as Hpi.
  assert (H1 : - PI / 2 < lat origin < PI / 2) by (simpl; lra).
  assert (H2 : - PI <= lat origin + 1 * 1 * cos 0 / r_m_of (lat origin) < PI).
  { simpl lat. rewrite cos_0. pose proof (origin_scale_small (1 * 1 * 1)) as [Hs _]; [lra|].
    lra. }
  assert (H3 : - PI <= lon origin + 1 * 1 * sin 0 / (r_n_of (lat origin) * cos (lat origin)) < PI).
  { simpl lat; simpl lon. rewrite sin_0.
    pose proof (origin_scale_small (1 * 1 * 0)) as [_ Hs]; [lra|]. lra. }
  split; [split; [exact H1 | split; [exact H2 | exact H3]]|].
  exact (calculate_position_at_certain_time_compose origin origin 1 0 1 1 H1 H2 H3).
Defined.

(** X5: [calculate_bearing_between_waypoints] returns a bearing in
    [[0, 2 pi)]. *)
Theorem calculate_bearing_between_waypoints_range (position_prev position_next : GeoPosition) :
  0 <= calculate_bearing_between_waypoints position_prev position_next < 2 * PI.
Proof.
  pose proof PI_bounds as Hpi. unfold calculate_bearing_between_waypoints.
  destruct (llh2flat _ _ _ _ _ _) as [[n e] z].
  pose proof (np_arctan2_range e n) as Ha.
  unfold convert_angle_minus_pi_to_pi_to_0_to_2_pi.
  destruct (Rleb 0 _) eqn:E; bool_facts; lra.
Qed.

(** X6: from the destination [calculate_destination_along_track] returns,
    [calculate_distance] and [calculate_bearing_between_waypoints] give back
    the distance and the bearing, for a positive distance, a bearing in
    [[0, 2 pi)] and a move that does not wrap the latitude or longitude. *)
Theorem calculate_destination_along_track_round_trip (position_prev : GeoPosition)
    (distance bearing : R) :
  0 < distance -> 0 <= bearing < 2 * PI ->
  - PI / 2 < lat position_prev < PI / 2 ->
  - PI <= lat position_prev + distance * cos bearing / r_m_of (lat position_prev) < PI ->
  - PI <= lon position_prev + distance * sin bearing
            / (r_n_of (lat position_prev) * cos (lat position_prev)) < PI ->
  let position_next := calculate_destination_along_track position_prev distance bearing in
  calculate_distance position_prev position_next = distance /\
  calculate_bearing_between_waypoints position_prev position_next = bearing.
Proof.
  intros Hd Hb Hl Hn He. pose proof PI_bounds as Hpi.
  pose proof (flat_roundtrip_exact_aux (distance * cos bearing) (distance * sin bearing)
                (lat position_prev) (lon position_prev) Hl Hn He) as Hrt.
  unfold flat_roundtrip in Hrt. cbv zeta.
  unfold calculate_distance, calculate_bearing_between_waypoints,
    calculate_destination_along_track. cbv zeta.
  destruct (flat2llh _ _ _ _ _ _) as [[la lo] h]. cbn [lat lon].
  destruct (llh2flat _ _ _ _ _ _) as [[n e] z].
  injection Hrt as -> ->. split.
  - replace ((distance * cos bearing) ^ 2 + (distance * sin bearing) ^ 2) with (distance ^ 2).
    + apply sqrt_pow2. lra.
    + pose proof (sin2_cos2 bearing). unfold Rsqr in *. nra.
  - destruct (Rle_dec bearing PI) as [Hle|Hgt].
    + rewrite np_arctan2_polar by lra.
      unfold convert_angle_minus_pi_to_pi_to_0_to_2_pi. rcmp. reflexivity.
    + replace (sin bearing) with (sin (bearing - 2 * PI)).
      2:{ replace bearing with ((bearing - 2 * PI) + 2 * INR 1 * PI) at 2 by (simpl; ring).
          rewrite sin_period. reflexivity. }
      replace (cos bearing) with (cos (bearing - 2 * PI)).
      2:{ replace bearing with ((bearing - 2 * PI) + 2 * INR 1 * PI) at 2 by (simpl; ring).
          rewrite cos_period. reflexivity. }
      rewrite np_arctan2_polar by lra.
      unfold convert_angle_minus_pi_to_pi_to_0_to_2_pi. rcmp. ring.
Qed.

Lemma calculate_destination_along_track_round_trip_witness :
  (0 < 1 /\ 0 <= 0 < 2 * PI /\ - PI / 2 < lat origin < PI / 2 /\
   - PI <= lat origin + 1 * cos 0 / r_m_of (lat origin) < PI /\
   - PI <= lon origin + 1 * sin 0 / (r_n_of (lat origin) * cos (lat origin)) < PI) /\
  calculate_distance origin (calculate_destination_along_track origin 1 0) = 1 /\
  calculate_bearing_between_waypoints origin (calculate_destination_along_track origin 1 0) = 0.
Proof.
  pose proof PI_bounds as Hpi.
  assert (H1 : 0 < 1) by lra. assert (H2 : 0 <= 0 < 2 * PI) by lra.
  assert (H3 : - PI / 2 < lat origin < PI / 2) by (simpl; lra).
  assert (H4 : - PI <= lat origin + 1 * cos 0 / r_m_of (lat origin) < PI).
  { simpl lat. rewrite cos_0. pose proof (origin_scale_small (1 * 1)) as [Hs _]; [lra|]. lra. }
  assert (H5 : - PI <= lon origin + 1 * sin 0 / (r_n_of (lat origin) * cos (lat origin)) < PI).
  { simpl lat; simpl lon. rewrite sin_0.
    pose proof (origin_scale_small (1 * 0)) as [_ Hs]; [lra|]. lra. }
  split; [repeat split; assumption || lra|].
  exact (calculate_destination_along_track_round_trip origin 1 0 H1 H2 H3 H4 H5).
Defined.

(** X7: [calculate_position_along_track_using_waypoints] raises [IndexError]
    on an empty list of waypoints, and returns the position of the only
    waypoint of a one-element list, whatever the speed and time. *)
Theorem calculate_position_along_track_edges (inital_speed vector_time : R) (w : World) :
  calculate_position_along_track_using_waypoints [] inital_speed vector_time w
    = (inl IndexError, w) /\
  forall waypoint, calculate_position_along_track_using_waypoints [waypoint]
                     inital_speed vector_time w = (inr (wp_position waypoint), w).
Proof. split; [reflexivity | intros waypoint; reflexivity]. Qed.

(** X8: when the distance [inital_speed * vector_time] exceeds the length of
    the route and no waypoint sets a leg speed, the position returned is the
    last waypoint's. *)
Theorem along_track_beyond_route_end (first : Waypoint) (rest : list Waypoint)
    (inital_speed vector_time : R) (w : World) :
  0 < inital_speed -> Forall (fun waypoint => leg waypoint = None) rest ->
  route_length first rest < inital_speed * vector_time ->
  calculate_position_along_track_using_waypoints (first :: rest) inital_speed vector_time w
    = (inr (wp_position (List.last rest first)), w).
Proof.
  intros Hs Hall Hlen. unfold calculate_position_along_track_using_waypoints.
  rewrite mbind_unfold.
  rewrite (along_track_loop_past_end inital_speed vector_time rest Hs Hall first 0 w)
    by (rewrite Rminus_0_r; exact Hlen).
  reflexivity.
Qed.

Lemma along_track_beyond_route_end_witness :
  (0 < 1 /\ Forall (fun waypoint => leg waypoint = None) [sample_waypoint] /\
   route_length sample_waypoint [sample_waypoint] < 1 * 1) /\
  calculate_position_along_track_using_waypoints [sample_waypoint; sample_waypoint] 1 1 sample_world
  = (inr (wp_position sample_waypoint), sample_world).
Proof.
  assert (H1 : 0 < 1) by lra.
  assert (H2 : Forall (fun waypoint => leg waypoint = None) [sample_waypoint])
    by (constructor; [reflexivity | constructor]).
  assert (H3 : route_length sample_waypoint [sample_waypoint] < 1 * 1)
    by (simpl; rewrite distance_same; lra).
  split; [split; [exact H1 | split; [exact H2 | exact H3]]|].
  exact (along_track_beyond_route_end sample_waypoint [sample_waypoint] 1 1
           sample_world H1 H2 H3).
Defined.

(** ** [marine_system_simulator] *)

(** X9: [ssa] is idempotent and does not change under whole turns of its
    argument. *)
Theorem ssa_idempotent_and_periodic (angle : R) (k : Z) :
  ssa (ssa angle) = ssa angle /\ ssa (angle + 2 * PI * IZR k) = ssa angle.
Proof.
  split; [apply ssa_id, ssa_range | apply ssa_periodic].
Qed.

(** X10: [flat2llh] returns a latitude and a longitude in [[-pi, pi)] (the
    latitude is wrapped by [ssa], not limited to [[-pi/2, pi/2]]), and
    [llh2flat] gives back its down coordinate [z_n] exactly. *)
Theorem flat2llh_ranges (x_n y_n lat_0 lon_0 z_n height_ref : R) :
  let '(lat, lon, height) := flat2llh x_n y_n lat_0 lon_0 z_n height_ref in
  - PI <= lat < PI /\ - PI <= lon < PI /\
  let '(_, _, z) := llh2flat lat lon lat_0 lon_0 height height_ref in z = z_n.
Proof.
  unfold flat2llh. cbv zeta. split; [apply ssa_range|]. split; [apply ssa_range|].
  unfold llh2flat. cbv zeta. ring.
Qed.

(** ** [trafficgen.encounter]: geometry *)

(** X11: [calculate_relative_bearing] returns a relative bearing [beta] in
    [[0, 2 pi)] and a contact angle [alpha] in [[-pi, pi)]. *)
Theorem calculate_relative_bearing_ranges (position_own_ship : GeoPosition)
    (heading_own_ship : R) (position_target_ship : GeoPosition)
    (heading_target_ship : R) (lat_lon0 : GeoPosition) :
  let '(beta, alpha) := calculate_relative_bearing position_own_ship heading_own_ship
                          position_target_ship heading_target_ship lat_lon0 in
  0 <= beta < 2 * PI /\ - PI <= alpha < PI.
Proof.
  pose proof PI_bounds as Hpi.
  pose proof (relative_bearing_beta_range position_own_ship heading_own_ship
                position_target_ship heading_target_ship lat_lon0) as Hb.
  unfold calculate_relative_bearing in *.
  destruct (llh2flat _ _ _ _ _ _) as [[n1 e1] z1].
  destruct (llh2flat _ _ _ _ _ _) as [[n2 e2] z2].
  cbv beta iota zeta in *. cbn [fst] in Hb. split; [exact Hb|].
  match goal with |- context [while_lt_add ?x (- PI) _] => set (a := x) end.
  pose proof (while_lt_add_ge a (- PI) (2 * PI) ltac:(lra)).
  pose proof (while_ge_sub_range (while_lt_add a (- PI) (2 * PI)) PI (2 * PI) ltac:(lra) ltac:(lra)).
  lra.
Qed.

(** X12: [calculate_ship_cog] returns a course in [[0, 2 pi)] that is a whole
    number of thousandths of a radian, between 0 and 6283 of them. *)
Theorem calculate_ship_cog_range (pos_0 pos_1 lat_lon0 : GeoPosition) :
  0 <= calculate_ship_cog pos_0 pos_1 lat_lon0 < 2 * PI /\
  exists k : Z, (0 <= k <= 6283)%Z /\ calculate_ship_cog pos_0 pos_1 lat_lon0 = IZR k / 1000.
Proof.
  pose proof PI_bounds as Hpi. unfold calculate_ship_cog.
  destruct (llh2flat _ _ _ _ _ _) as [[n0 e0] z0].
  destruct (llh2flat _ _ _ _ _ _) as [[n1 e1] z1].
  cbv beta iota zeta.
  pose proof (np_arctan2_range (e1 - e0) (n1 - n0)) as Ha.
  set (c := np_arctan2 (e1 - e0) (n1 - n0)) in *.
  assert (Hc : 0 <= (if Rltb c 0 then c + 2 * PI else c) < 2 * PI)
    by (destruct (Rltb c 0) eqn:E; bool_facts; lra).
  set (c' := if Rltb c 0 then c + 2 * PI else c) in *.
  unfold np_round. replace (10 ^ 3) with 1000 by ring.
  pose proof (round_half_even_bounds (c' * 1000)) as Hr.
  set (r := round_half_even (c' * 1000)) in *.
  assert (Hr0 : (-1 < r)%Z) by (apply lt_IZR; simpl; lra).
  assert (Hr1 : (r < 6284)%Z) by (apply lt_IZR; simpl; lra).
  assert (Hr0' : (0 <= r)%Z) by lia. assert (Hr1' : (r <= 6283)%Z) by lia.
  clear Hr0 Hr1. rename Hr0' into Hr0. rename Hr1' into Hr1.
  pose proof (IZR_le _ _ Hr0). pose proof (IZR_le _ _ Hr1).
  split; [simpl in *; split; lra|]. exists r. split; [lia|reflexivity].
Qed.

(** X13: with the default COLREG limits (0.087, 0.087, 1.22, (2.97, 3.40)) and
    a relative bearing [beta] within 0.088 of ahead, [determine_colreg] returns
    [HEAD_ON] when the contact angle [alpha] is within 0.088 of zero, and
    [OVERTAKING_GIVE_WAY] when [alpha], taken in [[0, 2 pi)], lies strictly
    between 2.97 and 3.40. *)
Theorem determine_colreg_default_head_on_and_overtaking (alpha beta : R) :
  Rabs (convert_angle_0_to_2_pi_to_minus_pi_to_pi beta) <= 0.088 ->
  (Rabs alpha <= 0.088 -> determine_colreg alpha beta 0.087 0.087 1.22 (2.97, 3.40) = HEAD_ON) /\
  (2.97 < convert_angle_minus_pi_to_pi_to_0_to_2_pi alpha < 3.40 ->
     determine_colreg alpha beta 0.087 0.087 1.22 (2.97, 3.40) = OVERTAKING_GIVE_WAY).
Proof.
  pose proof PI_bounds as Hpi.
  unfold convert_angle_0_to_2_pi_to_minus_pi_to_pi, convert_angle_minus_pi_to_pi_to_0_to_2_pi,
    determine_colreg, colreg_rule.
  cbv beta iota zeta. cbn [fst snd].
  intros Hb. pose proof Hb as Hb'. apply Rabs_le_iff in Hb'.
  destruct (Rleb 0 beta) eqn:E1, (Rleb beta PI) eqn:E2; cbn [andb] in *; bool_facts;
  (split; intros Ha;
   [pose proof Ha as Ha'; apply Rabs_le_iff in Ha' |];
   destruct (Rleb 0 alpha) eqn:E3; bool_facts; rcmp; try reflexivity; lra).
Qed.

Lemma determine_colreg_default_head_on_and_overtaking_witness :
  Rabs (convert_angle_0_to_2_pi_to_minus_pi_to_pi 0) <= 0.088 /\
  determine_colreg 0 0 0.087 0.087 1.22 (2.97, 3.40) = HEAD_ON.
Proof.
  pose proof PI_bounds as Hpi.
  assert (H : Rabs (convert_angle_0_to_2_pi_to_minus_pi_to_pi 0) <= 0.088).
  { unfold convert_angle_0_to_2_pi_to_minus_pi_to_pi. rcmp. lra. }
  split; [exact H|].
  apply (proj1 (determine_colreg_default_head_on_and_overtaking 0 0 H)).
  rewrite Rabs_R0. lra.
Defined.

(** X14: [calculate_min_vector_length_target_ship] is the distance from the
    target ship's future position to the line through the own ship along the
    course [own_ship_cog + desired_beta], so it is never more than the
    straight distance between the two positions. *)
Theorem min_vector_length_perpendicular (own_ship_position : GeoPosition)
    (own_ship_cog : R) (target_ship_position_future : GeoPosition)
    (desired_beta : R) (lat_lon0 : GeoPosition) :
  let psi := own_ship_cog + desired_beta in
  let '(n_1, e_1, _) := llh2flat (lat own_ship_position) (lon own_ship_position)
                          (lat lat_lon0) (lon lat_lon0) 0 0 in
  let '(n_3, e_3, _) := llh2flat (lat target_ship_position_future)
                          (lon target_ship_position_future) (lat lat_lon0) (lon lat_lon0) 0 0 in
  calculate_min_vector_length_target_ship own_ship_position own_ship_cog
    target_ship_position_future desired_beta lat_lon0 =
    Rabs (cos psi * (e_3 - e_1) - sin psi * (n_3 - n_1)) /\
  calculate_min_vector_length_target_ship own_ship_position own_ship_cog
    target_ship_position_future desired_beta lat_lon0 <= sqrt ((n_3 - n_1) ^ 2 + (e_3 - e_1) ^ 2).
Proof.
  unfold calculate_min_vector_length_target_ship. cbv zeta.
  destruct (llh2flat _ _ _ _ _ _) as [[n1 e1] z1].
  destruct (llh2flat _ _ _ _ _ _) as [[n3 e3] z3].
  cbn [fst snd].
  set (psi := own_ship_cog + desired_beta).
  replace (n1 + cos psi - n1) with (cos psi) by ring.
  replace (e1 + sin psi - e1) with (sin psi) by ring.
  assert (H1 : cos psi ^ 2 + sin psi ^ 2 = 1)
    by (pose proof (sin2_cos2 psi); unfold Rsqr in *; lra).
  rewrite H1, sqrt_1.
  replace ((cos psi * (e3 - e1) - sin psi * (n3 - n1)) / 1)
    with (cos psi * (e3 - e1) - sin psi * (n3 - n1)) by field.
  split; [reflexivity|].
  rewrite <- sqrt_Rsqr_abs. apply sqrt_le_1_alt. unfold Rsqr.
  assert (((n3 - n1) ^ 2 + (e3 - e1) ^ 2) * (cos psi ^ 2 + sin psi ^ 2)
          - (cos psi * (e3 - e1) - sin psi * (n3 - n1)) * (cos psi * (e3 - e1) - sin psi * (n3 - n1))
          = ((e3 - e1) * sin psi + (n3 - n1) * cos psi) ^ 2) by ring.
  rewrite H1 in H. pose proof (pow2_ge_0 ((e3 - e1) * sin psi + (n3 - n1) * cos psi)). lra.
Qed.

(** ** [trafficgen.encounter]: random draws and the ship list *)

Section EncounterDraws.
Context `{env : PyEnv}.

(** X15: with [random] drawing from [[0, 1)], [assign_future_position_to_target_ship]
    draws two numbers and returns a position whose flat-earth distance from the
    own ship's future position is at most [max_meeting_distance], when that
    distance does not make the latitude or longitude wrap. *)
Theorem assign_future_position_within_meeting_distance
    (own_ship_position_future lat_lon0 : GeoPosition) (max_meeting_distance : R) (w : World) :
  random_in_unit env -> 0 <= max_meeting_distance ->
  - PI / 2 < lat lat_lon0 < PI / 2 ->
  - PI + max_meeting_distance / r_m_of (lat lat_lon0) <= lat own_ship_position_future
    < PI - max_meeting_distance / r_m_of (lat lat_lon0) ->
  - PI + max_meeting_distance / (r_n_of (lat lat_lon0) * cos (lat lat_lon0))
    <= lon own_ship_position_future
    < PI - max_meeting_distance / (r_n_of (lat lat_lon0) * cos (lat lat_lon0)) ->
  match assign_future_position_to_target_ship own_ship_position_future lat_lon0
          max_meeting_distance w with
  | (inl _, _) => False
  | (inr target_ship_position_future, w') =>
      w' = after_draw (after_draw w) /\
      let '(n_0, e_0, _) := llh2flat (lat own_ship_position_future) (lon own_ship_position_future)
                              (lat lat_lon0) (lon lat_lon0) 0 0 in
      let '(n_1, e_1, _) := llh2flat (lat target_ship_position_future)
                              (lon target_ship_position_future) (lat lat_lon0) (lon lat_lon0) 0 0 in
      sqrt ((n_1 - n_0) ^ 2 + (e_1 - e_0) ^ 2) <= max_meeting_distance
  end.
Proof.
  intros Hr HD Hl Hn He. pose proof PI_bounds as Hpi.
  pose proof (Hr (rng_calls w)) as Hu1. pose proof (Hr (S (rng_calls w))) as Hu2.
  destruct own_ship_position_future as [la lo]. destruct lat_lon0 as [la0 lo0].
  cbn [lat lon] in *.
  pose proof (r_n_pos la0). pose proof (r_m_pos la0).
  assert (Hc : 0 < cos la0) by (apply cos_gt_0; lra).
  unfold assign_future_position_to_target_ship, mbind, M_bind, random_uniform, mret, M_ret.
  cbn [rng_calls heap relative_speed_lists solver_calls].
  set (u1 := random_random (rng_calls w)) in *.
  set (u2 := random_random (S (rng_calls w))) in *.
  set (a := (0 + (1 - 0) * u1) * 2 * PI).
  set (d := (0 + (1 - 0) * u2) * max_meeting_distance).
  assert (Hd : 0 <= d <= max_meeting_distance) by (unfold d; nra).
  pose proof (COS_bound a). pose proof (SIN_bound a).
  assert (Hdc : - max_meeting_distance <= d * cos a <= max_meeting_distance) by nra.
  assert (Hds : - max_meeting_distance <= d * sin a <= max_meeting_distance) by nra.
  pose proof (div_le_bound _ _ _ H0 Hdc) as Bn.
  assert (Hm : 0 < r_n_of la0 * cos la0) by (apply Rmult_lt_0_compat; lra).
  pose proof (div_le_bound _ _ _ Hm Hds) as Be.
  unfold llh2flat, flat2llh. cbv zeta. cbn [lat lon]. rewrite !Rplus_0_r.
  replace (la0 + ((la - la0) * r_m_of la0 + d * cos a) / r_m_of la0)
    with (la + d * cos a / r_m_of la0) by (field; lra).
  replace (lo0 + ((lo - lo0) * (r_n_of la0 * cos la0) + d * sin a) / (r_n_of la0 * cos la0))
    with (lo + d * sin a / (r_n_of la0 * cos la0)) by (field; lra).
  rewrite !ssa_id by lra.
  split; [reflexivity|].
  replace ((la + d * cos a / r_m_of la0 - la0) * r_m_of la0 - (la - la0) * r_m_of la0)
    with (d * cos a) by (field; lra).
  replace ((lo + d * sin a / (r_n_of la0 * cos la0) - lo0) * (r_n_of la0 * cos la0)
           - (lo - lo0) * (r_n_of la0 * cos la0)) with (d * sin a) by (field; lra).
  replace ((d * cos a) ^ 2 + (d * sin a) ^ 2) with (d ^ 2).
  - rewrite sqrt_pow2; lra.
  - pose proof (sin2_cos2 a). unfold Rsqr in *. nra.
Qed.

(** X16: with [random] drawing from [[0, 1)], [assign_vector_time] raises
    [IndexError] on a list of fewer than two times (an empty list before any
    draw, a one-element list after one draw), and otherwise draws once and
    returns a time between the first two entries. *)
Theorem assign_vector_time_result (vector_time_range : list R) (w : World) :
  random_in_unit env ->
  match assign_vector_time vector_time_range w with
  | (inl e, w') => e = IndexError /\
      ((vector_time_range = [] /\ w' = w) \/
       (exists v0, vector_time_range = [v0] /\ w' = after_draw w))
  | (inr t, w') => exists v0 v1 rest, vector_time_range = v0 :: v1 :: rest /\
      Rmin v0 v1 <= t <= Rmax v0 v1 /\ w' = after_draw w
  end.
Proof.
  intros Hr. unfold assign_vector_time, mbind, M_bind, list_index, random_uniform, mret, M_ret.
  destruct vector_time_range as [|v0 [|v1 rest]]; cbn.
  - auto.
  - split; [reflexivity|]. right. exists v0. auto.
  - exists v0, v1, rest. split; [reflexivity|]. split; [|reflexivity].
    apply uniform_between. specialize (Hr (rng_calls w)). lra.
Qed.

(** X17: with [random] drawing from [[0, 1)], [assign_beta_from_list] raises
    [AssertionError] without drawing unless the list has exactly two entries,
    and otherwise draws once and returns a value between the two. *)
Theorem assign_beta_from_list_result (beta_limit : list R) (w : World) :
  random_in_unit env ->
  match assign_beta_from_list beta_limit w with
  | (inl e, w') => e = AssertionError /\ w' = w /\ length beta_limit <> 2%nat
  | (inr beta, w') => exists b0 b1, beta_limit = [b0; b1] /\
      Rmin b0 b1 <= beta <= Rmax b0 b1 /\ w' = after_draw w
  end.
Proof.
  intros Hr. unfold assign_beta_from_list.
  destruct (decide (length beta_limit = 2%nat)) as [Hl|Hl].
  - destruct beta_limit as [|b0 [|b1 [|? ?]]]; simpl in Hl; try lia.
    unfold mbind, M_bind, list_index, random_uniform, mret, M_ret. cbn.
    exists b0, b1. split; [reflexivity|]. split; [|reflexivity].
    apply uniform_between. specialize (Hr (rng_calls w)). lra.
  - simpl. auto.
Qed.

(** X18: with [random] drawing from [[0, 1)] and the default COLREG
    classification, [assign_beta] draws once and returns a relative bearing in
    the sector of the encounter type (for [CROSSING_STAND_ON] one of two
    sectors); for [NO_RISK_COLLISION] it returns 0 without drawing. It never
    raises. *)
Theorem assign_beta_default_ranges (encounter_type : EncounterType)
    (encounter_settings : EncounterSettings) (w : World) :
  random_in_unit env ->
  classification encounter_settings = default_classification ->
  match assign_beta encounter_type encounter_settings w with
  | (inl _, _) => False
  | (inr beta, w') =>
      match encounter_type with
      | OVERTAKING_STAND_ON => 2.97 <= beta < 3.40 /\ w' = after_draw w
      | OVERTAKING_GIVE_WAY | HEAD_ON => - 0.087 <= beta < 0.087 /\ w' = after_draw w
      | CROSSING_GIVE_WAY => 0 <= beta < 2.97 /\ w' = after_draw w
      | CROSSING_STAND_ON =>
          (0 <= beta < 1.22 \/ 2 * PI - 3.40 <= beta < 2 * PI) /\ w' = after_draw w
      | NO_RISK_COLLISION => beta = 0 /\ w' = w
      end
  end.
Proof.
  intros Hr Hc. pose proof PI_bounds as Hpi. specialize (Hr (rng_calls w)).
  unfold assign_beta. rewrite Hc. unfold default_classification. cbn.
  unfold mbind, M_bind, random_uniform, mret, M_ret.
  destruct encounter_type; cbn; (split; [|reflexivity]); try nra.
  set (u := random_random (rng_calls w)) in *.
  unfold convert_angle_minus_pi_to_pi_to_0_to_2_pi.
  destruct (Rleb 0 _) eqn:E; bool_facts; [left|right]; lra.
Qed.

(** X19: [assign_sog_to_target_ship] divides [min_target_ship_sog] by
    [own_ship_sog] before it reads the relative speed list, so an own ship
    speed of 0 raises [ZeroDivisionError] whatever the list holds. With a
    non-zero own ship speed, an empty list raises [IndexError] before any draw,
    and a one-element list raises [IndexError] too: before any draw when its
    value is below the speed ratio, otherwise after one draw. The world is
    otherwise unchanged. *)
Theorem assign_sog_to_target_ship_errors (encounter_type : EncounterType)
    (min_target_ship_sog : R) (w : World) :
  assign_sog_to_target_ship encounter_type 0 min_target_ship_sog w
    = (inl ZeroDivisionError, w) /\
  forall own_ship_sog, own_ship_sog <> 0 ->
  (relative_sog_of encounter_type (relative_speed_lists w) = Some [] ->
   assign_sog_to_target_ship encounter_type own_ship_sog min_target_ship_sog w
   = (inl IndexError, w)) /\
  (forall r0, relative_sog_of encounter_type (relative_speed_lists w) = Some [r0] ->
   assign_sog_to_target_ship encounter_type own_ship_sog min_target_ship_sog w
   = (inl IndexError,
      if Rltb r0 (min_target_ship_sog / own_ship_sog) then w else after_draw w)).
Proof.
  unfold assign_sog_to_target_ship, get_relative_speed.
  split.
  - unfold mbind, M_bind, py_div. cbn.
    destruct (Req_EM_T 0 0); [reflexivity|congruence].
  - intros own Hown. rewrite !py_div_nonzero by exact Hown. split.
    + intros Hl. unfold mbind, M_bind, mret, M_ret, list_index. cbn. rewrite Hl. reflexivity.
    + intros r0 Hl. unfold mbind, M_bind, mret, M_ret, list_index, random_uniform. cbn.
      rewrite Hl. cbn.
      destruct (Rltb r0 (min_target_ship_sog / own)); reflexivity.
Qed.

(** X20: with [random] drawing from [[0, 1)] and a positive own ship speed,
    [assign_sog_to_target_ship] returns 0 for [NO_RISK_COLLISION]; for a
    relative speed range [r0 <= r1] it draws once and returns a speed between
    [r0] (raised to the minimum speed when that lies strictly inside the
    range) and [r1] times the own ship speed, leaving the ship store alone. *)
Theorem assign_sog_to_target_ship_range (encounter_type : EncounterType)
    (own_ship_sog min_target_ship_sog : R) (w : World) :
  random_in_unit env -> 0 < own_ship_sog ->
  (encounter_type = NO_RISK_COLLISION ->
   fst (assign_sog_to_target_ship encounter_type own_ship_sog min_target_ship_sog w) = inr 0) /\
  (forall r0 r1 rest,
   relative_sog_of encounter_type (relative_speed_lists w) = Some (r0 :: r1 :: rest) ->
   r0 <= r1 ->
   exists target_ship_sog w',
   assign_sog_to_target_ship encounter_type own_ship_sog min_target_ship_sog w
     = (inr target_ship_sog, w') /\ rng_calls w' = S (rng_calls w) /\
   heap w' = heap w /\
   (if Rltb r0 (min_target_ship_sog / own_ship_sog) && Rltb (min_target_ship_sog / own_ship_sog) r1
    then min_target_ship_sog <= target_ship_sog <= r1 * own_ship_sog
    else r0 * own_ship_sog <= target_ship_sog <= r1 * own_ship_sog)).
Proof.
  intros Hr Ho. specialize (Hr (rng_calls w)).
  unfold assign_sog_to_target_ship, get_relative_speed.
  rewrite !py_div_nonzero by lra.
  unfold mbind, M_bind, list_index, random_uniform, mret, M_ret. split.
  - intros ->. cbn.
    destruct (Rltb 0 (min_target_ship_sog / own_ship_sog)) eqn:E1; cbn; bool_facts.
    + rewrite (proj2 (Rltb_false _ 0)) by lra. cbn. f_equal. ring.
    + f_equal. ring.
  - intros r0 r1 rest Hl Hle. cbn. rewrite Hl. cbn.
    set (q := min_target_ship_sog / own_ship_sog).
    assert (Hq : q * own_ship_sog = min_target_ship_sog) by (unfold q; field; lra).
    destruct (Rltb r0 q) eqn:E1; cbn; [destruct (Rltb q r1) eqn:E2|]; cbn; bool_facts.
    + pose proof (uniform_scaled q r1 _ own_ship_sog Hr ltac:(lra) Ho). rewrite Hq in H.
      destruct encounter_type; cbn in Hl; try discriminate;
      (eexists _, _; split; [reflexivity|]; cbn;
       split; [reflexivity|]; split; [destruct (relative_speed_lists w); reflexivity|]; exact H).
    + eexists _, _; split; [reflexivity|]; cbn. split; [reflexivity|]. split; [reflexivity|].
      apply uniform_scaled; lra.
    + eexists _, _; split; [reflexivity|]; cbn. split; [reflexivity|]. split; [reflexivity|].
      apply uniform_scaled; lra.
Qed.

(** X21: [decide_target_ship] raises [ValueError] on an empty list; otherwise,
    when every listed location holds a ship, it draws one index, and stores a
    copy of the ship at that index under a location that was free, which it
    returns. *)
Theorem decide_target_ship_result (target_ships_static : list loc) (w : World) :
  (target_ships_static = [] -> decide_target_ship target_ships_static w = (inl ValueError, w)) /\
  (target_ships_static <> [] ->
   Forall (fun l => is_Some (heap w !! l)) target_ships_static ->
   let n := Z.of_nat (length target_ships_static) in
   exists l s x,
     target_ships_static !! Z.to_nat (random_randbelow (rng_calls w) n mod n) = Some l /\
     heap w !! l = Some s /\ heap w !! x = None /\
     decide_target_ship target_ships_static w
       = (inr x, mkWorld (<[x := s]> (heap w)) (relative_speed_lists w)
                   (S (rng_calls w)) (solver_calls w))).
Proof.
  split.
  - intros ->. reflexivity.
  - intros Hne Hall n.
    assert (Hn : (0 < n)%Z) by (unfold n; destruct target_ships_static; [congruence|simpl; lia]).
    set (k := (random_randbelow (rng_calls w) n mod n)%Z).
    assert (Hk : (0 <= k < n)%Z) by (apply Z.mod_pos_bound; lia).
    destruct (lookup_lt_is_Some_2 target_ships_static (Z.to_nat k)) as [l Hl].
    { unfold n in Hk. lia. }
    destruct (proj1 (Forall_lookup _ _) Hall _ _ Hl) as [s Hs].
    exists l, s, (fresh (dom (heap w))). split; [exact Hl|]. split; [exact Hs|]. split.
    + apply not_elem_of_dom, is_fresh.
    + unfold decide_target_ship, random_randint. fold n.
      rewrite (proj2 (Z.leb_gt _ _)) by lia.
      unfold mbind, M_bind. cbn -[Z.of_nat].
      replace (n + 1 - 1)%Z with n by lia. fold k.
      replace (1 + k - 1)%Z with k by lia.
      unfold list_index. rewrite Hl. unfold load. cbn. rewrite Hs. reflexivity.
Qed.

(** X22: [define_own_ship] keeps the given initial state, names the ship "OS"
    when its name is empty, and always gives it at least two waypoints: the
    given ones when there are two or more, generated ones when the list is
    empty, and otherwise a list starting at the initial position. *)
Theorem define_own_ship_result (desired_traffic_situation : SituationInput)
    (own_ship_static : ShipStatic) (encounter_settings : EncounterSettings)
    (lat_lon0 : GeoPosition) :
  let own_ship_initial := osi_initial (situation_own_ship desired_traffic_situation) in
  let own_ship := define_own_ship desired_traffic_situation own_ship_static
                    encounter_settings lat_lon0 in
  own_initial own_ship = Some own_ship_initial /\
  own_static own_ship = (if str_truthy (name own_ship_static) then own_ship_static
                         else with_name own_ship_static "OS") /\
  str_truthy (name (own_static own_ship)) = true /\
  exists wps, own_waypoints own_ship = Some wps /\ (2 <= length wps)%nat /\
    match osi_waypoints (situation_own_ship desired_traffic_situation) with
    | Some ((_ :: _ :: _) as given) => wps = given
    | Some [] => Some wps = generate_waypoints (Some own_ship_initial)
    | _ => exists rest, wps = mkWaypoint (position own_ship_initial) None None :: rest
    end.
Proof.
  destruct desired_traffic_situation as [[init owps]]. cbn [situation_own_ship osi_initial osi_waypoints].
  unfold define_own_ship, new_OwnShip. cbn [situation_own_ship osi_initial osi_waypoints].
  split; [reflexivity|]. split; [reflexivity|]. split.
  { destruct (str_truthy (name own_ship_static)) eqn:E; [exact E|reflexivity]. }
  destruct owps as [[|w1 [|w2 rest]]|]; cbn [list_truthy].
  - unfold generate_waypoints. destruct (geod_fwd _ _ _ _) as [[lon1 lat1] z].
    eexists. split; [reflexivity|]. split; [simpl; lia|reflexivity].
  - eexists. split; [reflexivity|]. split; [simpl; lia|]. eexists. reflexivity.
  - eexists. split; [reflexivity|]. split; [simpl; lia|reflexivity].
  - eexists. split; [reflexivity|]. split; [simpl; lia|]. eexists. reflexivity.
Qed.

(** X23: when [generate_encounter] reports an encounter found, the target ship
    heads along its course under way using engine, its two waypoints are its
    initial position and the position reached after [situation_length], and it
    is stored under a location free before the call, as a copy of one of the
    listed ships with id 10 and name "target_ship_" followed by the number. *)
Theorem generate_encounter_found_result (t : EncounterType) (own_ship : OwnShip)
    (ships : list loc) (n : Z) (bd : BetaDefault) (r vd : option R)
    (settings : EncounterSettings) (w : World) :
  match generate_encounter t own_ship ships n bd r vd settings w with
  | (inr (ts, true), w') =>
      exists oi init l s,
        own_initial own_ship = Some oi /\ initial ts = Some init /\
        heading init = Some (cog init) /\ nav_status init = Some UNDER_WAY_USING_ENGINE /\
        waypoints ts = Some [mkWaypoint (position init) None None;
          mkWaypoint (calculate_position_at_certain_time (position init)
            (mkGeoPosition (lat (position oi)) (lon (position oi)))
            (sog init) (cog init) (situation_length settings)) None None] /\
        heap w !! static ts = None /\
        l ∈ ships /\ heap w !! l = Some s /\
        heap w' !! static ts = Some (with_id_name s 10 ("target_ship_" +:+ pretty n))
  | _ => True
  end.
Proof.
  unfold generate_encounter, generate_encounter_fuel.
  rewrite mbind_unfold.
  destruct (own_initial own_ship) as [oi|] eqn:Hoi; [|exact I].
  cbn [assert_some mret M_ret]. cbv beta zeta.
  rewrite mbind_unfold.
  pose proof (decide_target_ship_fresh ships w) as [_ Hfr].
  destruct (decide_target_ship ships w) as [[e|ts0] w1] eqn:Ed; [exact I|].
  specialize (Hfr _ _ eq_refl).
  apply decide_target_ship_spec in Ed as (l & s & Hin & Hl & Hh1).
  rewrite mbind_unfold.
  match goal with |- context [outer_loop ?a1 ?a2 ?a3 ?a4 ?a5 ?a6 ?a7 ?a8 ?a9 ?a10 ?a11 w1] =>
    pose proof (heap_same_outer_loop a1 a2 a3 a4 a5 a6 a7 a8 a9 a10 a11 w1) as Hh2;
    destruct (outer_loop a1 a2 a3 a4 a5 a6 a7 a8 a9 a10 a11 w1) as [[exn|st] w2] eqn:Eo end; [exact I|].
  cbn [snd] in Hh2.
  assert (Hs : heap w2 !! ts0 = Some s) by (rewrite Hh2, Hh1; simplify_map_eq; reflexivity).
  destruct (encounter_found st).
  - rewrite !mbind_unfold. unfold load at 1.
    unfold mbind, M_bind, store, load, mk_Initial, new_TargetShip, mret, M_ret.
    cbv beta iota zeta. rewrite Hs. cbv beta iota zeta.
    cbn [heap list_truthy]. rewrite !heap_lookup_insert_same. cbv beta iota zeta.
    match goal with |- context [if ?c then _ else _] => destruct c eqn:Ev end;
      [|exact I].
    unfold mbind, M_bind, store, load, mret, M_ret. cbv beta iota zeta.
    cbn [heap]. rewrite !heap_lookup_insert_same. cbv beta iota zeta.
    replace (str_truthy (name (with_name (with_id s 10) ("target_ship_" +:+ pretty n))))
      with true by reflexivity.
    cbv beta iota zeta.
    eexists oi, _, l, s. cbn [initial waypoints static heading nav_status position sog cog heap].
    repeat split; try reflexivity; try assumption.
    + rewrite Hfr. apply not_elem_of_dom, is_fresh.
    + rewrite heap_lookup_insert_same. reflexivity.
  - match goal with |- match ?X w2 with _ => _ end =>
      assert (Hp : post X (fun r => snd r = false)) by (post_solve; reflexivity);
      destruct (X w2) as [[e|[ts b]] w'] eqn:Ex; [exact I|] end.
    pose proof (Hp w2 _ w' Ex) as Hb. cbn in Hb. subst b. exact I.
Qed.

(** X24: [generate_encounter] raises [AssertionError] when the own ship has no
    initial state, and [ValueError] when the list of target ships is empty;
    in both cases the world is unchanged. *)
Theorem generate_encounter_edge_errors (t : EncounterType) (own_ship : OwnShip)
    (ships : list loc) (n : Z) (bd : BetaDefault) (r vd : option R)
    (settings : EncounterSettings) (w : World) :
  (own_initial own_ship = None ->
   generate_encounter t own_ship ships n bd r vd settings w = (inl AssertionError, w)) /\
  (own_initial own_ship <> None ->
   generate_encounter t own_ship [] n bd r vd settings w = (inl ValueError, w)).
Proof.
  unfold generate_encounter, generate_encounter_fuel. split.
  - intros Hoi. rewrite mbind_unfold, Hoi. reflexivity.
  - intros Hoi. rewrite mbind_unfold.
    destruct (own_initial own_ship) as [oi|]; [|congruence]. reflexivity.
Qed.

(** X25: when [generate_encounter] is given a relative speed, it leaves the
    stored relative speed lists unchanged. *)
Theorem generate_encounter_fixed_relative_sog_keeps_lists (t : EncounterType)
    (own_ship : OwnShip) (ships : list loc) (n : Z) (bd : BetaDefault)
    (relative_sog : R) (vd : option R) (settings : EncounterSettings) (w : World) :
  relative_speed_lists
    (snd (generate_encounter t own_ship ships n bd (Some relative_sog) vd settings w))
  = relative_speed_lists w.
Proof. revert w. apply rs_same_generate_encounter. Qed.

(** X26: [generate_encounter] changes a stored relative speed list at most by
    raising its first value: each list after the call is the list before it,
    or that list with a larger first element. *)
Theorem generate_encounter_relative_speed_only_grows (t : EncounterType)
    (own_ship : OwnShip) (ships : list loc) (n : Z) (bd : BetaDefault)
    (r vd : option R) (settings : EncounterSettings) (w : World) :
  rs_grows (relative_speed_lists w)
    (relative_speed_lists (snd (generate_encounter t own_ship ships n bd r vd settings w))).
Proof. revert w. apply rs_mono_generate_encounter. Qed.

End EncounterDraws.

Lemma assign_future_position_within_meeting_distance_witness :
  (random_in_unit sample_env /\ 0 <= 2 /\ - PI / 2 < lat origin < PI / 2 /\
   - PI + 2 / r_m_of (lat origin) <= lat origin < PI - 2 / r_m_of (lat origin) /\
   - PI + 2 / (r_n_of (lat origin) * cos (lat origin)) <= lon origin
     < PI - 2 / (r_n_of (lat origin) * cos (lat origin))) /\
  match @assign_future_position_to_target_ship sample_env origin origin 2 sample_world with
  | (inl _, _) => False
  | (inr target_ship_position_future, w') =>
      w' = after_draw (after_draw sample_world) /\
      let '(n_0, e_0, _) := llh2flat (lat origin) (lon origin) (lat origin) (lon origin) 0 0 in
      let '(n_1, e_1, _) := llh2flat (lat target_ship_position_future)
                              (lon target_ship_position_future) (lat origin) (lon origin) 0 0 in
      sqrt ((n_1 - n_0) ^ 2 + (e_1 - e_0) ^ 2) <= 2
  end.
Proof.
  pose proof PI_bounds as Hpi. pose proof (origin_scale_small 2) as [Hm Hn]; [lra|].
  assert (H1 : random_in_unit sample_env) by exact sample_env_random_in_unit.
  assert (H2 : 0 <= 2) by lra.
  assert (H3 : - PI / 2 < lat origin < PI / 2) by (simpl; lra).
  assert (H4 : - PI + 2 / r_m_of (lat origin) <= lat origin < PI - 2 / r_m_of (lat origin))
    by (simpl lat; lra).
  assert (H5 : - PI + 2 / (r_n_of (lat origin) * cos (lat origin)) <= lon origin
               < PI - 2 / (r_n_of (lat origin) * cos (lat origin))) by (simpl lat; simpl lon; lra).
  split; [exact (conj H1 (conj H2 (conj H3 (conj H4 H5))))|].
  exact (@assign_future_position_within_meeting_distance sample_env origin origin 2
           sample_world H1 H2 H3 H4 H5).
Defined.

Lemma assign_vector_time_result_witness :
  random_in_unit sample_env /\
  match @assign_vector_time sample_env [10; 30] sample_world with
  | (inl e, w') => e = IndexError /\
      (([10; 30] = [] /\ w' = sample_world) \/
       (exists v0, [10; 30] = [v0] /\ w' = after_draw sample_world))
  | (inr t, w') => exists v0 v1 rest, [10; 30] = v0 :: v1 :: rest /\
      Rmin v0 v1 <= t <= Rmax v0 v1 /\ w' = after_draw sample_world
  end.
Proof.
  split; [exact sample_env_random_in_unit|].
  exact (@assign_vector_time_result sample_env [10; 30] sample_world
           sample_env_random_in_unit).
Defined.

Lemma assign_beta_from_list_result_witness :
  random_in_unit sample_env /\
  match @assign_beta_from_list sample_env [0; 1] sample_world with
  | (inl e, w') => e = AssertionError /\ w' = sample_world /\ length [0; 1] <> 2%nat
  | (inr beta, w') => exists b0 b1, [0; 1] = [b0; b1] /\
      Rmin b0 b1 <= beta <= Rmax b0 b1 /\ w' = after_draw sample_world
  end.
Proof.
  split; [exact sample_env_random_in_unit|].
  exact (@assign_beta_from_list_result sample_env [0; 1] sample_world
           sample_env_random_in_unit).
Defined.

Lemma assign_beta_default_ranges_witness :
  (random_in_unit sample_env /\ classification sample_settings = default_classification) /\
  match @assign_beta sample_env HEAD_ON sample_settings sample_world with
  | (inl _, _) => False
  | (inr beta, w') => - 0.087 <= beta < 0.087 /\ w' = after_draw sample_world
  end.
Proof.
  assert (Hc : classification sample_settings = default_classification) by reflexivity.
  split; [split; [exact sample_env_random_in_unit | exact Hc]|].
  exact (@assign_beta_default_ranges sample_env HEAD_ON sample_settings sample_world
           sample_env_random_in_unit Hc).
Defined.

Lemma assign_sog_to_target_ship_range_witness :
  (random_in_unit sample_env /\ 0 < 1) /\
  (forall r0 r1 rest,
   relative_sog_of HEAD_ON (relative_speed_lists sample_world) = Some (r0 :: r1 :: rest) ->
   r0 <= r1 ->
   exists target_ship_sog w',
   @assign_sog_to_target_ship sample_env HEAD_ON 1 (1 / 2) sample_world
     = (inr target_ship_sog, w') /\ rng_calls w' = S (rng_calls sample_world) /\
   heap w' = heap sample_world /\
   (if Rltb r0 (1 / 2 / 1) && Rltb (1 / 2 / 1) r1
    then 1 / 2 <= target_ship_sog <= r1 * 1
    else r0 * 1 <= target_ship_sog <= r1 * 1)).
Proof.
  assert (H1 : 0 < 1) by lra.
  split; [split; [exact sample_env_random_in_unit | exact H1]|].
  exact (proj2 (@assign_sog_to_target_ship_range sample_env HEAD_ON 1 (1 / 2) sample_world
                  sample_env_random_in_unit H1)).
Defined.
